(** * Vector addition, sequential and over MPI: a shallow embedding

    The repository holds two C programs.

    - [vector_add2.c]: the sequential benchmark ([main] fills two
      vectors and calls [Vector_sum]), with the textbook routines it
      keeps without calling them ([Read_n], [Read_vector],
      [Print_vector]).
    - [mpi_vector_add3.c]: the SPMD variant; every process owns a block
      of [local_n = n / comm_sz] doubles of each vector, computes a
      partial dot product that [MPI_Reduce] sums at rank 0, scales its
      blocks in place and lets [MPI_Gather] reassemble them at rank 0.

    How the programs are embedded:

    - C [double] is IEEE binary64, Rocq's primitive [float], with one
      rounding per operation (no fused multiply-add); C [int] is [Z]:
      no operation of the programs overflows on the values they handle.
    - Arrays live in a memory of blocks, one per [malloc], whose cells
      are indeterminate until written; an access out of a block, through
      [NULL], or (in the arithmetic) to an indeterminate cell has no
      result.  Aliasing and frame conditions are statements about this
      memory.
    - The processes of the communicator run the same [main]; a run is
      the list of their states, by rank, and a collective call is one
      step on the whole list.  [MPI_Gather], [MPI_Reduce] and
      [MPI_Abort] belong to the MPI library: they follow the MPI
      standard, which leaves the order of the additions of a reduction
      to the library; that order is a parameter here (a [schedule]).
    - What the program cannot decide is an input of a run: the number
      of processes, the values [rand] returns at each rank after
      [srand(time(NULL) + my_rank)], the memory [malloc] can hand out.
      The clock ([MPI_Wtime]) is not modelled: the elapsed time is
      printed as an event without a value. *)

From Stdlib Require Import ZArith Lia Floats Uint63 String.
From stdpp Require Import base option list gmap.

Set Warnings "-inexact-float".

(** ** Memory: blocks of cells *)

(** A pointer as the programs use them: [NULL] or the base of a block
    returned by [malloc].  Every access of the programs is [a[i]] from
    such a base. *)
Inductive ptr := NULL | Ptr (b : N).

#[global] Instance ptr_eq_dec : EqDecision ptr.
Proof. solve_decision. Defined.

(** A cell of storage: [None] is the indeterminate content of storage
    that [malloc] returned and nobody wrote yet. *)
Abbreviation cell := (option float).
Abbreviation heap := (gmap N (list cell)).

(** The content of a cell, initialised or not: what a byte copy or
    [printf("%f", a[i])] is handed.  No result: null or dangling
    pointer, or index out of the block. *)
Definition peek (h : heap) (p : ptr) (i : nat) : option cell :=
  match p with
  | NULL => None
  | Ptr b => a ← h !! b; a !! i
  end.

(** Overwrite a cell.  No result: null or dangling pointer, or index
    out of the block. *)
Definition poke (h : heap) (p : ptr) (i : nat) (c : cell) : option heap :=
  match p with
  | NULL => None
  | Ptr b =>
      a ← h !! b;
      if (i <? length a)%nat then Some (<[b := <[i := c]> a]> h) else None
  end.

(** [a[i]] as an rvalue of the arithmetic: the cell must hold a value. *)
Definition load (h : heap) (p : ptr) (i : nat) : option float :=
  mjoin (peek h p i).

(** [a[i] = v]. *)
Definition store (h : heap) (p : ptr) (i : nat) (v : float) : option heap :=
  poke h p i (Some v).

(** The [count] cells from the base of [p]. *)
Definition read_cells (h : heap) (p : ptr) (count : nat) : option (list cell) :=
  mapM (peek h p) (seq 0 count).

(** [p] is the base of a block with at least [k] cells. *)
Definition allocated (h : heap) (p : ptr) (k : nat) : Prop :=
  ∃ b a, p = Ptr b ∧ h !! b = Some a ∧ (k ≤ length a)%nat.

(** The block at [p] starts with the initialised values [vs]. *)
Definition holds (h : heap) (p : ptr) (vs : list float) : Prop :=
  ∀ i v, vs !! i = Some v → load h p i = Some v.

(** [h'] differs from [h] at most in the cells of the blocks [ps]
    point to: every other block is as it was, and no block appeared. *)
Definition only_wrote (ps : list ptr) (h h' : heap) : Prop :=
  (∀ b, Ptr b ∉ ps → h' !! b = h !! b) ∧ (∀ b, h !! b = None → h' !! b = None).

(** ** Counted loops *)

(** [for (i = start; i < start + k; i++) body]: the state is threaded
    through the iterations, and a failing iteration fails the loop. *)
Fixpoint for_range {S : Type} (body : nat → S → option S)
    (start k : nat) (s : S) : option S :=
  match k with
  | O => Some s
  | Datatypes.S k' => s' ← body start s; for_range body (Datatypes.S start) k' s'
  end.

(** [for (i = 0; i < n; i++) body] with [int i, n]: no iteration when
    [n <= 0]. *)
Definition for_loop {S : Type} (n : Z) (body : nat → S → option S) (s : S) : option S :=
  for_range body 0 (Z.to_nat n) s.

(** ** Numbers *)

(** [(double) k] for an [int k]: exact, every [int] is a binary64. *)
Definition double_of_int (k : Z) : float :=
  if (k <? 0)%Z then (- of_uint63 (Uint63.of_Z (- k)))%float
  else of_uint63 (Uint63.of_Z k).

(** The significand and the exponent of the binary64 that holds the
    positive integer [c] of at most 53 bits: [c], shifted left until its
    leading bit is bit 52. *)
Definition significand (c : positive) : positive :=
  Pos.shiftl_nat c (53 - Pos.to_nat (digits2_pos c)).

Definition exponent (c : positive) : Z := (Zpos (digits2_pos c) - 53)%Z.

(** The mathematical dot product in the order the loops add it up:
    [((0.0 + x0*y0) + x1*y1) + ...]. *)
Definition dot (xs ys : list float) : float :=
  foldl (λ acc xy, acc + xy.1 * xy.2)%float 0%float (zip xs ys).

(** The sum of a list of integers, and the dot product of two vectors
    of integers. *)
Definition total (ps : list Z) : Z := foldr Z.add 0%Z ps.

Definition int_dot (xs ys : list Z) : Z := total (zip_with Z.mul xs ys).

(** [a] is within relative error [1e-9] of [b]. *)
Definition within_tolerance (a b : float) : bool :=
  (abs (a - b) <? 1e-9 * abs b)%float.

(** ** Doubles as exact numbers *)

(** The magnitude of a finite double in units of [2^-1074], the
    smallest positive double: every finite double is an integer
    number of them.  [scaled] is the signed value. *)
Definition magnitude (x : float) : Z :=
  match Prim2SF x with
  | S754_finite _ m e => (Zpos m * 2 ^ (e + 1074))%Z
  | _ => 0%Z
  end.

Definition scaled (x : float) : Z :=
  match Prim2SF x with
  | S754_finite true _ _ => (- magnitude x)%Z
  | _ => magnitude x
  end.

Definition finite (x : float) : bool :=
  match Prim2SF x with
  | S754_zero _ | S754_finite _ _ _ => true
  | _ => false
  end.

(** [a] is within relative error [1e-9] of [b], in exact arithmetic:
    both are finite, and [|a - b| < 1e-9 * |b|] or [a] and [b] are the
    same number. *)
Definition close_to (a b : float) : bool :=
  finite a && finite b
  && ((scaled a =? scaled b)%Z
      || (10 ^ 9 * Z.abs (scaled a - scaled b) <? Z.abs (scaled b))%Z).

(** A product that a sum of sign [sg] can take without cancelling or
    overflowing: a zero, or a finite double of sign [sg] ([true] is
    negative) whose exponent is at most 938, which puts it below
    [2^991] in magnitude. *)
Definition summable (sg : bool) (p : float) : bool :=
  match Prim2SF p with
  | S754_zero _ => true
  | S754_finite s _ e => Bool.eqb s sg && (e <=? 938)%Z
  | _ => false
  end.

(** [a] is a zero or a finite double of sign [sg]. *)
Definition of_sign (sg : bool) (a : float) : Prop :=
  match Prim2SF a with
  | S754_zero _ => True
  | S754_finite s _ _ => s = sg
  | _ => False
  end.

(** The double [a], of sign [sg], is within [c * 2^-52], relatively,
    of the exact magnitude [sum] (in units of [2^-1074]). *)
Definition approximates (sg : bool) (c : Z) (a : float) (sum : Z) : Prop :=
  of_sign sg a ∧ (0 ≤ sum)%Z ∧ (2 ^ 52 * Z.abs (magnitude a - sum) ≤ c * sum)%Z.

(** What [k] steps of [shr_1] leave of a non-negative significand: the
    quotient by [2^k], and where the remainder lies with respect to
    the half. *)
Definition shifted (m0 : Z) (k : nat) (mrs : shr_record) : Prop :=
  ∃ rem, (0 ≤ shr_m mrs)%Z ∧ (m0 = shr_m mrs * 2 ^ Z.of_nat k + rem)%Z
         ∧ (0 ≤ rem < 2 ^ Z.of_nat k)%Z
         ∧ match shr_r mrs, shr_s mrs with
           | false, false => rem = 0%Z
           | false, true => (0 < 2 * rem < 2 ^ Z.of_nat k)%Z
           | true, false => (2 * rem = 2 ^ Z.of_nat k)%Z
           | true, true => (2 ^ Z.of_nat k < 2 * rem)%Z
           end.

(** The values of [int], 32 bits wide. *)
Definition INT_MIN : Z := - 2 ^ 31.
Definition INT_MAX : Z := 2 ^ 31 - 1.

(** ** Process outcomes *)

(** How a call that may end the process comes back. *)
Inductive outcome (A : Type) :=
  | Returns (a : A)
  | Exits (status : Z) (stderr : string).
Arguments Returns {A} a.
Arguments Exits {A} status stderr.

(** * The sequential program, [vector_add2.c] *)
Module Seq.

(** [Read_n]: prompt, [scanf("%d", n_p)], then the guard.  Standard
    input is the list of the decimal integers still to be read; the
    result carries what was printed on standard output and the rest of
    the input.  No result when there is no integer to read ([*n_p] is
    then left as it was, indeterminate), and none when the integer read
    is no value of [int]: the C standard leaves that conversion
    undefined (the GNU library stores the low 32 bits of the number). *)
Definition Read_n (stdin : list Z) : option (outcome Z * string * list Z) :=
  match stdin with
  | [] => None
  | n :: rest =>
      let out := "What's the order of the vectors?
"%string in
      if ((n <? INT_MIN) || (INT_MAX <? n))%Z then None
      else if (n <=? 0)%Z
      then Some (Exits (-1) "Order should be positive
"%string, out, rest)
      else Some (Returns n, out, rest)
  end.

(** [Vector_sum]: [for (i = 0; i < n; i++) z[i] = x[i] + y[i];] *)
Definition Vector_sum (x y z : ptr) (n : Z) (h : heap) : option heap :=
  for_loop n
    (λ i h, xi ← load h x i; yi ← load h y i; store h z i (xi + yi)%float)
    h.

(** *** The process and the C library *)

(** What the program prints on standard output. *)
Inductive output :=
  | Line (s : string)           (* printf("%s\n", ...): a title or a prompt, with its newline *)
  | Number (c : cell)           (* printf("%f ", b[i]); [None]: storage nobody wrote *)
  | Newline                     (* printf("\n") *)
  | ExecutionTime.              (* printf("Execution Time (ms): %f\n", execution_time) *)

(** The process: its memory and allocator, the generator [rand] draws
    from, standard input and what it printed.  Standard input is what
    the calls of [scanf("%lf", ...)] to come find, one after the other:
    [Some v], a number, which the call converts and consumes; [None],
    characters that are no number but that the failing call consumes,
    as it does a sign with no digit after it.  After the last of them
    every call fails and consumes nothing: the input has ended, or it
    stands at a character that starts no number. *)
Record process := Process {
  mem : heap;
  brk : N;                      (* the next block [malloc] hands out *)
  avail : Z;                    (* cells [malloc] can still hand out *)
  rand_calls : nat;             (* calls of [rand] so far *)
  stdin : list (option float);
  stdout : list output;
}.

Definition with_mem (h : heap) (p : process) : process :=
  Process h (brk p) (avail p) (rand_calls p) (stdin p) (stdout p).

Definition with_stdin (input : list (option float)) (p : process) : process :=
  Process (mem p) (brk p) (avail p) (rand_calls p) input (stdout p).

Definition drew (k : nat) (p : process) : process :=
  Process (mem p) (brk p) (avail p) (k + rand_calls p) (stdin p) (stdout p).

Definition printed (o : list output) (p : process) : process :=
  Process (mem p) (brk p) (avail p) (rand_calls p) (stdin p) (stdout p ++ o).

(** [malloc(count * sizeof(double))]: a fresh block of indeterminate
    cells, or [NULL] when the request cannot be served (a negative
    [count] converts to a huge [size_t]). *)
Definition malloc (count : Z) (p : process) : ptr * process :=
  if ((count <? 0) || (avail p <? count))%Z then (NULL, p)
  else (Ptr (brk p),
        Process (<[brk p := replicate (Z.to_nat count) None]> (mem p))
                (brk p + 1)%N (avail p - count)%Z (rand_calls p) (stdin p) (stdout p)).

(** [free(q)]; [free(NULL)] does nothing. *)
Definition free (q : ptr) (p : process) : process :=
  match q with
  | NULL => p
  | Ptr b =>
      Process (delete b (mem p)) (brk p)
              (avail p + Z.of_nat (length (default [] (mem p !! b))))%Z
              (rand_calls p) (stdin p) (stdout p)
  end.

(** *** The other functions of the file *)

(** [Allocate_vectors]: the three blocks, returned through [x_pp],
    [y_pp] and [z_pp]; a failed [malloc] prints the message and calls
    [exit(-1)]. *)
Definition Allocate_vectors (n : Z) (p : process) : outcome (ptr * ptr * ptr * process) :=
  let '(x, p) := malloc n p in
  let '(y, p) := malloc n p in
  let '(z, p) := malloc n p in
  match x, y, z with
  | Ptr _, Ptr _, Ptr _ => Returns (x, y, z, p)
  | _, _, _ => Exits (-1) "Can't allocate vectors
"%string
  end.

(** [Read_vector]: the prompt, then [scanf("%lf", &a[i])] for
    [0 <= i < n].  A [scanf] that finds no number stores nothing, and
    the function does not look at what it returns: the loop goes on,
    and the next call stores at the next index. *)
Definition Read_vector (a : ptr) (n : Z) (vec_name : string) (p : process)
  : option process :=
  for_loop n
    (λ i p,
       match stdin p with
       | [] => Some p
       | None :: rest => Some (with_stdin rest p)
       | Some v :: rest => h ← store (mem p) a i v; Some (with_stdin rest (with_mem h p))
       end)
    (printed [Line ("Enter the vector " ++ vec_name)] p).

(** [for (i = lo; i < hi; i++) printf("%f ", a[i]);] with [int i]. *)
Definition print_cells (a : ptr) (lo hi : Z) (p : process) : option process :=
  cells ← mapM (λ i, if (i <? 0)%Z then None else peek (mem p) a (Z.to_nat i))
               ((λ k, lo + Z.of_nat k)%Z <$> seq 0 (Z.to_nat (hi - lo)));
  Some (printed (Number <$> cells) p).

(** [Print_vector]: the title, the [n] elements, a newline. *)
Definition Print_vector (b : ptr) (n : Z) (title : string) (p : process)
  : option process :=
  p ← print_cells b 0 n (printed [Line title] p);
  Some (printed [Newline] p).

(** *** [main] *)

(** What the C library decides: the values [rand] returns after
    [srand(time(NULL))], the memory [malloc] can hand out, and what
    standard input holds.  The clock is not modelled: the execution
    time is printed as an event without a value. *)
Record env := Env {
  rand : nat → Z;               (* [rand k]: the [k]-th value of [rand()] *)
  memory : Z;
  input : list (option float);
}.

Definition n : Z := 100000.

(** How the process ends. *)
Inductive run :=
  | Undefined                                   (* behaviour the C standard leaves open *)
  | Exited (status : Z) (stderr : string)       (* exit(status) *)
  | Finished (status : Z) (p : process).        (* main returns [status] *)

Definition start (e : env) : process := Process ∅ 0%N (memory e) 0 (input e) [].

(** Lines 42 to 45:
    [x[i] = (double)(rand() % 100); y[i] = (double)(rand() % 100);] *)
Definition generate (e : env) (x y : ptr) (n : Z) (p : process) : option process :=
  for_loop n
    (λ i p,
       h1 ← store (mem p) x i (double_of_int (Z.rem (rand e (rand_calls p)) 100));
       h2 ← store h1 y i (double_of_int (Z.rem (rand e (S (rand_calls p))) 100));
       Some (drew 2 (with_mem h2 p)))
    p.

(** One of the six displays of lines 54 to 88: the title, the elements
    [lo <= i < hi] of [a], a newline. *)
Definition display (title : string) (a : ptr) (lo hi : Z) (p : process) : option process :=
  p ← print_cells a lo hi (printed [Line title] p);
  Some (printed [Newline] p).

(** [main]: [Read_n], [Read_vector] and [Print_vector] are not called. *)
Definition main (e : env) : run :=
  match Allocate_vectors n (start e) with
  | Exits st msg => Exited st msg
  | Returns (x, y, z, p) =>
      let finish :=
        p ← generate e x y n p;
        h ← Vector_sum x y z n (mem p);
        p ← display "Vector x (primeros 10):" x 0 10 (with_mem h p);
        p ← display "Vector x (últimos 10):" x (n - 10) n p;
        p ← display "Vector y (primeros 10):" y 0 10 p;
        p ← display "Vector y (últimos 10):" y (n - 10) n p;
        p ← display "Vector z (primeros 10):" z 0 10 p;
        p ← display "Vector z (últimos 10):" z (n - 10) n p;
        Some (free z (free y (free x (printed [ExecutionTime] p)))) in
      match finish with
      | None => Undefined
      | Some p => Finished 0 p
      end
  end.

(** *** States the statements below speak of *)

(** The process of [main] between [Allocate_vectors] and the [free]s:
    the blocks 0, 1 and 2 hold the cells of [x], [y] and [z]. *)
Definition at_work (e : env) (k : nat) (a b c : list cell) (draws : nat)
    (out : list output) : process :=
  Process (<[2%N := c]> (<[1%N := b]> (<[0%N := a]> ∅))) 3%N
          (memory e - Z.of_nat k - Z.of_nat k - Z.of_nat k)%Z draws (input e) out.

(** The cells [old] of an array after calls of [scanf("%lf", &a[i])]
    that found [found], the first of them at [i = 0]: a number is
    stored in the cell of its call, and the other cells are as they
    were. *)
Fixpoint stored (found : list (option float)) (old : list cell) : list cell :=
  match found, old with
  | Some v :: found', _ :: old' => Some v :: stored found' old'
  | None :: found', c :: old' => c :: stored found' old'
  | _, _ => old
  end.

(** The integers [main] draws: [x[i]] out of call [2i] of [rand],
    [y[i]] out of call [2i + 1]. *)
Definition drawn_x (e : env) (i : nat) : Z := Z.rem (rand e (2 * i)) 100.
Definition drawn_y (e : env) (i : nat) : Z := Z.rem (rand e (S (2 * i))) 100.

(** A display of the values [v i], [lo <= i < lo + count]. *)
Definition shown (title : string) (v : nat → float) (lo count : nat) : list output :=
  Line title :: (Number <$> (Some <$> (v <$> seq lo count))) ++ [Newline].

(** What [main] prints for vectors of [k] elements. *)
Definition report (e : env) (k : nat) : list output :=
  shown "Vector x (primeros 10):" (λ i, double_of_int (drawn_x e i)) 0 10
  ++ shown "Vector x (últimos 10):" (λ i, double_of_int (drawn_x e i)) (k - 10) 10
  ++ shown "Vector y (primeros 10):" (λ i, double_of_int (drawn_y e i)) 0 10
  ++ shown "Vector y (últimos 10):" (λ i, double_of_int (drawn_y e i)) (k - 10) 10
  ++ shown "Vector z (primeros 10):" (λ i, double_of_int (drawn_x e i + drawn_y e i)) 0 10
  ++ shown "Vector z (últimos 10):"
       (λ i, double_of_int (drawn_x e i + drawn_y e i)) (k - 10) 10
  ++ [ExecutionTime].

End Seq.

(** * The MPI program, [mpi_vector_add3.c] *)
Module Mpi.

(** What rank 0 prints. *)
Inductive output :=
  | Title (s : string)          (* printf("%s:\n", title) *)
  | Number (c : cell)           (* printf("%f ", b[i]); [None]: storage nobody wrote *)
  | Newline                     (* printf("\n") *)
  | DotProduct (v : float)      (* printf("Producto punto: %f\n\n", dot_product) *)
  | Elapsed.                    (* printf("Tiempo total: %f milisegundos\n", ...) *)

(** The collective calls a process has gone through. *)
Inductive collective := Barrier | Gather | Reduce.

(** One process of the communicator: its private memory and allocator,
    the generator [rand] draws from, the locals of [main], and what it
    printed. *)
Record proc := Proc {
  mem : heap;
  brk : N;                      (* the next block [malloc] hands out *)
  avail : Z;                    (* cells [malloc] can still hand out *)
  rand_calls : nat;             (* calls of [rand] so far *)
  local_x : ptr;
  local_y : ptr;
  local_z : ptr;
  dot_product : float;
  calls : list collective;
  stdout : list output;
}.

Definition with_mem (h : heap) (p : proc) : proc :=
  Proc h (brk p) (avail p) (rand_calls p) (local_x p) (local_y p) (local_z p)
       (dot_product p) (calls p) (stdout p).

Definition with_vectors (x y z : ptr) (p : proc) : proc :=
  Proc (mem p) (brk p) (avail p) (rand_calls p) x y z
       (dot_product p) (calls p) (stdout p).

Definition with_dot_product (d : float) (p : proc) : proc :=
  Proc (mem p) (brk p) (avail p) (rand_calls p) (local_x p) (local_y p) (local_z p)
       d (calls p) (stdout p).

Definition drew (k : nat) (p : proc) : proc :=
  Proc (mem p) (brk p) (avail p) (k + rand_calls p) (local_x p) (local_y p) (local_z p)
       (dot_product p) (calls p) (stdout p).

Definition called (c : collective) (p : proc) : proc :=
  Proc (mem p) (brk p) (avail p) (rand_calls p) (local_x p) (local_y p) (local_z p)
       (dot_product p) (calls p ++ [c]) (stdout p).

Definition printed (o : list output) (p : proc) : proc :=
  Proc (mem p) (brk p) (avail p) (rand_calls p) (local_x p) (local_y p) (local_z p)
       (dot_product p) (calls p) (stdout p ++ o).

(** [malloc(count * sizeof(double))]: a fresh block of indeterminate
    cells, or [NULL] when the request cannot be served (a negative
    [count] converts to a huge [size_t]).  A request for no cell gets
    an empty block of its own, as the GNU library answers it. *)
Definition malloc (count : Z) (p : proc) : ptr * proc :=
  if ((count <? 0) || (avail p <? count))%Z then (NULL, p)
  else (Ptr (brk p),
        Proc (<[brk p := replicate (Z.to_nat count) None]> (mem p))
             (brk p + 1)%N (avail p - count)%Z (rand_calls p)
             (local_x p) (local_y p) (local_z p)
             (dot_product p) (calls p) (stdout p)).

(** [free(q)]; [free(NULL)] does nothing. *)
Definition free (q : ptr) (p : proc) : proc :=
  match q with
  | NULL => p
  | Ptr b =>
      Proc (delete b (mem p)) (brk p)
           (avail p + Z.of_nat (length (default [] (mem p !! b))))%Z (rand_calls p)
           (local_x p) (local_y p) (local_z p)
           (dot_product p) (calls p) (stdout p)
  end.

Definition is_null (q : ptr) : bool :=
  match q with NULL => true | Ptr _ => false end.

(** [Allocate_vectors]: the three blocks of a process; a failed
    [malloc] prints the message and calls [MPI_Abort(comm, -1)]. *)
Definition Allocate_vectors (local_n : Z) (p : proc) : outcome proc :=
  let '(x, p) := malloc local_n p in
  let '(y, p) := malloc local_n p in
  let '(z, p) := malloc local_n p in
  if is_null x || is_null y || is_null z
  then Exits (-1) "Error en la asignación de memoria
"%string
  else Returns (with_vectors x y z p).

(** The body of [Parallel_dot_product] before the reduction: the local
    partial dot product,
    [for (i = 0; i < local_n; i++) local_dot_product += local_x[i] * local_y[i];]
    from [0.0]. *)
Definition local_dot_product (local_x local_y : ptr) (local_n : Z) (h : heap)
  : option float :=
  for_loop local_n
    (λ i acc, xi ← load h local_x i; yi ← load h local_y i;
              Some (acc + xi * yi)%float)
    0%float.

(** [Parallel_scalar_multiplication]:
    [for (i = 0; i < local_n; i++) { local_x[i] *= scalar; local_y[i] *= scalar; }] *)
Definition Parallel_scalar_multiplication
    (local_x local_y : ptr) (scalar : float) (local_n : Z) (h : heap) : option heap :=
  for_loop local_n
    (λ i h,
       xi ← load h local_x i;
       h1 ← store h local_x i (xi * scalar)%float;
       yi ← load h1 local_y i;
       store h1 local_y i (yi * scalar)%float)
    h.

(** *** The collectives, as the MPI standard defines them *)

(** The order in which a reduction combines the contributions of the
    ranks.  The standard leaves it to the library: it assumes the
    operator associative, and lets a library that knows it commutative
    reorder as well. *)
Inductive schedule :=
  | Contribution (r : nat)
  | Combine (a b : schedule).

Fixpoint ranks (s : schedule) : list nat :=
  match s with
  | Contribution r => [r]
  | Combine a b => ranks a ++ ranks b
  end.

(** A schedule for [W] processes takes the contribution of every rank
    once. *)
Definition schedule_for (W : nat) (s : schedule) : Prop :=
  ranks s ≡ₚ seq 0 W.

(** The sum [MPI_SUM] on [MPI_DOUBLE] produces along a schedule. *)
Fixpoint combine (s : schedule) (send : list float) : option float :=
  match s with
  | Contribution r => send !! r
  | Combine a b => x ← combine a send; y ← combine b send; Some (x + y)%float
  end.

(** Rank order, left to right: [((p0 + p1) + p2) + ...]. *)
Fixpoint rank_order_from (acc : schedule) (r k : nat) : schedule :=
  match k with
  | O => acc
  | S k' => rank_order_from (Combine acc (Contribution r)) (S r) k'
  end.

Definition rank_order (W : nat) : schedule :=
  rank_order_from (Contribution 0) 1 (W - 1).

(** [MPI_Reduce(&send, &recv, 1, MPI_DOUBLE, MPI_SUM, 0, comm)] over
    the whole communicator: [send] and [recv] list the operands by
    rank; the receive buffer changes at rank 0 only. *)
Definition MPI_Reduce (s : schedule) (send recv : list float) : option (list float) :=
  total ← combine s send;
  Some (imap (λ r old, match r with O => total | S _ => old end) recv).

(** Where cell [i] of the block of rank [r] lands in the receive
    buffer of a gather of [recvcount] cells per rank. *)
Definition global_index (recvcount r i : nat) : nat := r * recvcount + i.

(** The cells [cs], from local index [i] on, of the block of rank [r]
    into the receive buffer. *)
Fixpoint place (h : heap) (recvbuf : ptr) (recvcount r i : nat) (cs : list cell)
  : option heap :=
  match cs with
  | [] => Some h
  | c :: cs' =>
      h' ← poke h recvbuf (global_index recvcount r i) c;
      place h' recvbuf recvcount r (S i) cs'
  end.

(** [MPI_Gather(sendbuf, count, MPI_DOUBLE, recvbuf, recvcount, MPI_DOUBLE, 0, comm)]
    at the root: [blocks] lists, from rank [r] on, the cells each rank
    sends; they are stored in rank order.  The receive buffer is
    significant at the root only: nothing happens at the other ranks. *)
Fixpoint MPI_Gather (h : heap) (recvbuf : ptr) (recvcount r : nat)
    (blocks : list (list cell)) : option heap :=
  match blocks with
  | [] => Some h
  | cs :: rest =>
      h' ← place h recvbuf recvcount r 0 cs;
      MPI_Gather h' recvbuf recvcount (S r) rest
  end.

(** *** The functions of the program that call them *)

(** [Parallel_dot_product] on every process at once: each computes its
    partial; the reduction leaves the total in [global_dot_product] at
    rank 0, and the [0.0] it was initialised with elsewhere.  The
    result lists what the call returns at each rank. *)
Definition Parallel_dot_product (s : schedule) (local_n : Z) (w : list proc)
  : option (list float) :=
  partials ← mapM (λ p, local_dot_product (local_x p) (local_y p) local_n (mem p)) w;
  MPI_Reduce s partials (replicate (length w) 0%float).

(** [Print_vector] on every process at once, for the vector [local_b]
    selects: rank 0 allocates [n] cells, the gather fills them, and
    rank 0 prints the [n] cells and frees the buffer.  The other ranks
    keep [b = NULL]. *)
Definition Print_vector (local_b : proc → ptr) (local_n n : Z) (title : string)
    (w : list proc) : option (list proc) :=
  blocks ← mapM (λ p, read_cells (mem p) (local_b p) (Z.to_nat local_n)) w;
  match w with
  | [] => Some []
  | p0 :: others =>
      let '(b, p0) := malloc n p0 in
      h ← MPI_Gather (mem p0) b (Z.to_nat local_n) 0 blocks;
      cells ← read_cells h b (Z.to_nat n);
      let p0 := printed (Title title :: (Number <$> cells) ++ [Newline]) (with_mem h p0) in
      Some (called Gather <$> (free b p0 :: others))
  end.

(** The process [p] owns the blocks [xy.1] and [xy.2] of [local_n]
    values as its [local_x] and [local_y]. *)
Definition owns (local_n : Z) (p : proc) (xy : list float * list float) : Prop :=
  length xy.1 = Z.to_nat local_n ∧ length xy.2 = Z.to_nat local_n
  ∧ holds (mem p) (local_x p) xy.1 ∧ holds (mem p) (local_y p) xy.2.

(** Blocks of integers, as [main] generates them: the blocks of
    doubles they are stored as, and the two vectors they are the
    partition of. *)
Definition as_doubles (xy : list Z * list Z) : list float * list float :=
  (double_of_int <$> xy.1, double_of_int <$> xy.2).

Definition whole_x (blocks : list (list Z * list Z)) : list Z := concat (fst <$> blocks).
Definition whole_y (blocks : list (list Z * list Z)) : list Z := concat (snd <$> blocks).

(** *** [main] *)

(** What the launcher and the C library decide. *)
Record env := Env {
  comm_sz : nat;                (* mpiexec -n comm_sz *)
  rand : nat → nat → Z;         (* [rand r k]: the [k]-th value of [rand()] at rank [r] *)
  memory : nat → Z;             (* cells [malloc] can hand out at each rank *)
  reduction : schedule;         (* how the library sums *)
}.

Definition n : Z := 20.
Definition scalar : float := 2.5%float.

(** Line 51, [local_n = n / comm_sz]: the division of C truncates. *)
Definition block_length (n : Z) (comm_sz : nat) : Z := Z.quot n (Z.of_nat comm_sz).

(** How a run of the communicator ends. *)
Inductive run :=
  | Undefined                                   (* behaviour the C standard leaves open *)
  | Aborted (status : Z) (stderr : string)      (* MPI_Abort *)
  | Finished (status : Z) (w : list proc).      (* every process returns [status] *)

Definition start (e : env) (r : nat) : proc :=
  Proc ∅ 0%N (memory e r) 0 NULL NULL NULL 0%float [] [].

(** [Allocate_vectors] at every rank: the first [MPI_Abort] ends the run. *)
Fixpoint allocate_all (local_n : Z) (w : list proc) : outcome (list proc) :=
  match w with
  | [] => Returns []
  | p :: rest =>
      match Allocate_vectors local_n p with
      | Exits st msg => Exits st msg
      | Returns p' =>
          match allocate_all local_n rest with
          | Exits st msg => Exits st msg
          | Returns rest' => Returns (p' :: rest')
          end
      end
  end.

(** Lines 56 to 60 at rank [r]:
    [local_x[i] = (double)(rand() % 100); local_y[i] = (double)(rand() % 100);] *)
Definition generate (e : env) (local_n : Z) (r : nat) (p : proc) : option proc :=
  for_loop local_n
    (λ i p,
       h1 ← store (mem p) (local_x p) i
               (double_of_int (Z.rem (rand e r (rand_calls p)) 100));
       h2 ← store h1 (local_y p) i
               (double_of_int (Z.rem (rand e r (S (rand_calls p))) 100));
       Some (drew 2 (with_mem h2 p)))
    p.

(** Line 72 at one process:
    [Parallel_scalar_multiplication(local_x, local_y, scalar, local_n);] *)
Definition scale (s : float) (local_n : Z) (p : proc) : option proc :=
  h ← Parallel_scalar_multiplication (local_x p) (local_y p) s local_n (mem p);
  Some (with_mem h p).

(** The same step at every rank, from rank [r] on. *)
Fixpoint each (f : nat → proc → option proc) (r : nat) (w : list proc)
  : option (list proc) :=
  match w with
  | [] => Some []
  | p :: rest => p' ← f r p; rest' ← each f (S r) rest; Some (p' :: rest')
  end.

Definition at_root (f : proc → proc) (w : list proc) : list proc :=
  match w with
  | [] => []
  | p0 :: others => f p0 :: others
  end.

(** [main] up to the last [printf], line 84: the processes as they are
    before the blocks are freed. *)
Definition compute (e : env) (local_n : Z) (w : list proc) : option (list proc) :=
  w ← each (generate e local_n) 0 w;
  let w := called Barrier <$> w in
  w ← Print_vector local_x local_n n "Vector x (antes de multiplicar por escalar)" w;
  w ← Print_vector local_y local_n n "Vector y (antes de multiplicar por escalar)" w;
  dots ← Parallel_dot_product (reduction e) local_n w;
  let w := zip_with (λ d p, called Reduce (with_dot_product d p)) dots w in
  w ← each (λ _, scale scalar local_n) 0 w;
  w ← Print_vector local_x local_n n "Vector x (después de multiplicar por escalar)" w;
  w ← Print_vector local_y local_n n "Vector y (después de multiplicar por escalar)" w;
  let w := at_root (λ p, printed [DotProduct (dot_product p)] p) w in
  Some (at_root (printed [Elapsed]) w).

Definition main_body (e : env) : run :=
  match comm_sz e with
  | O => Undefined
  | S _ =>
      let local_n := block_length n (comm_sz e) in
      match allocate_all local_n (start e <$> seq 0 (comm_sz e)) with
      | Exits st msg => Aborted st msg
      | Returns w =>
          match compute e local_n w with
          | None => Undefined
          | Some w => Finished 0 w
          end
      end
  end.

(** [main]: the body, then the three [free]s, [MPI_Finalize] and
    [return 0]. *)
Definition main (e : env) : run :=
  match main_body e with
  | Finished st w =>
      Finished st ((λ p, free (local_z p) (free (local_y p) (free (local_x p) p))) <$> w)
  | r => r
  end.

(** *** States the statements below speak of *)

(** [local_z] of [p] is a block of [k] cells that nobody has written,
    apart from the blocks of [local_x] and [local_y]; the allocator has
    handed out blocks below [brk] only. *)
Definition z_untouched (k : nat) (p : proc) : Prop :=
  ∃ bz, local_z p = Ptr bz ∧ mem p !! bz = Some (replicate k None)
        ∧ local_x p ≠ Ptr bz ∧ local_y p ≠ Ptr bz
        ∧ ∀ b, (brk p ≤ b)%N → mem p !! b = None.

(** A process as [Allocate_vectors] and the stores of [xs] and [ys]
    leave it. *)
Definition holding (xs ys : list float) : proc :=
  Proc {[ 0%N := Some <$> xs; 1%N := Some <$> ys; 2%N := replicate (length xs) None ]}
       3%N 1000 0 (Ptr 0) (Ptr 1) (Ptr 2) 0%float [] [].

(** The memory of a process between [Allocate_vectors] and the
    [free]s: the blocks of [local_x], [local_y] and [local_z]. *)
Definition three_blocks (a b c : list cell) : heap :=
  <[2%N := c]> (<[1%N := b]> (<[0%N := a]> ∅)).

(** The process of rank [r] at work on blocks of [k] cells: [a] and
    [b] are the cells of [local_x] and [local_y], and [local_z] is as
    [malloc] returned it. *)
Definition at_work (e : env) (k r : nat) (a b : list cell) (next : N) (draws : nat)
    (d : float) (cs : list collective) (out : list output) : proc :=
  Proc (three_blocks a b (replicate k None)) next
       (memory e r - Z.of_nat k - Z.of_nat k - Z.of_nat k)%Z draws
       (Ptr 0) (Ptr 1) (Ptr 2) d cs out.

(** The integers [main] draws at rank [r] for blocks of [k] elements:
    [local_x[i]] out of call [2i] of [rand], [local_y[i]] out of call
    [2i + 1]; and the blocks of all the ranks. *)
Definition drawn_x (e : env) (k r : nat) : list Z :=
  (λ i, Z.rem (rand e r (2 * i)) 100) <$> seq 0 k.

Definition drawn_y (e : env) (k r : nat) : list Z :=
  (λ i, Z.rem (rand e r (S (2 * i))) 100) <$> seq 0 k.

Definition drawn (e : env) (k W : nat) : list (list Z * list Z) :=
  (λ r, (drawn_x e k r, drawn_y e k r)) <$> seq 0 W.

(** What [Print_vector] writes for the vector [v], and the whole
    output of rank 0 for the vectors of integers [X] and [Y]. *)
Definition line (title : string) (v : list float) : list output :=
  Title title :: (Number <$> (Some <$> v)) ++ [Newline].

Definition report (X Y : list Z) : list output :=
  line "Vector x (antes de multiplicar por escalar)" (double_of_int <$> X)
  ++ line "Vector y (antes de multiplicar por escalar)" (double_of_int <$> Y)
  ++ line "Vector x (después de multiplicar por escalar)"
       ((λ v, double_of_int v * scalar)%float <$> X)
  ++ line "Vector y (después de multiplicar por escalar)"
       ((λ v, double_of_int v * scalar)%float <$> Y)
  ++ [DotProduct (double_of_int (int_dot X Y)); Elapsed].

(** The same when the blocks do not fill the buffer of [n] cells:
    every vector printed ends with [pad] cells that nobody wrote. *)
Definition padded_line (title : string) (v : list float) (pad : nat) : list output :=
  Title title :: (Number <$> ((Some <$> v) ++ replicate pad None)) ++ [Newline].

Definition padded_report (X Y : list Z) (pad : nat) : list output :=
  padded_line "Vector x (antes de multiplicar por escalar)" (double_of_int <$> X) pad
  ++ padded_line "Vector y (antes de multiplicar por escalar)" (double_of_int <$> Y) pad
  ++ padded_line "Vector x (después de multiplicar por escalar)"
       ((λ v, double_of_int v * scalar)%float <$> X) pad
  ++ padded_line "Vector y (después de multiplicar por escalar)"
       ((λ v, double_of_int v * scalar)%float <$> Y) pad
  ++ [DotProduct (double_of_int (int_dot X Y)); Elapsed].

(** A launch with [W] processes: [rand] returns [7 * k + r] at its
    [k]-th call at rank [r], and the library reduces in rank order. *)
Definition launch (W : nat) : env :=
  Env W (λ r k, Z.of_nat (7 * k + r)) (λ _, 1000%Z) (rank_order W).

End Mpi.

(** * Binary64 arithmetic on integers

    The vectors of [main] hold integers from 0 to 99.  On such values
    the arithmetic of the programs never rounds; the lemmas of this
    section derive that from the specification of the primitive
    floats. *)
Section Exact.
Open Scope Z_scope.

Lemma digits2_log2 p : Zpos (digits2_pos p) = Z.log2 (Zpos p) + 1.
Proof.
  assert (Hs : ∀ q, digits2_pos q = Pos.size q) by (induction q; simpl; congruence).
  destruct p; simpl; rewrite ?Hs; lia.
Qed.

Lemma shiftl_nat_Z p k : Zpos (Pos.shiftl_nat p k) = Zpos p * 2 ^ Z.of_nat k.
Proof.
  induction k as [|k IH].
  - simpl. lia.
  - rewrite Nat2Z.inj_succ, Z.pow_succ_r by lia.
    change (Pos.shiftl_nat p (S k)) with (xO (Pos.shiftl_nat p k)).
    rewrite Pos2Z.inj_xO, IH. lia.
Qed.

Lemma digits2_shiftl_nat p k :
  Zpos (digits2_pos (Pos.shiftl_nat p k)) = Zpos (digits2_pos p) + Z.of_nat k.
Proof.
  induction k as [|k IH]; [simpl; lia|].
  change (Pos.shiftl_nat p (S k)) with (xO (Pos.shiftl_nat p k)).
  simpl digits2_pos. rewrite Pos2Z.inj_succ, IH. lia.
Qed.

Lemma iter_pos_nat {A} (f : A → A) p x : SpecFloat.iter_pos f p x = Nat.iter (Pos.to_nat p) f x.
Proof.
  revert x. induction p as [p IH|p IH|]; intros x.
  - rewrite Pos2Nat.inj_xI.
    replace (S (2 * Pos.to_nat p))%nat with (Pos.to_nat p + (Pos.to_nat p + 1))%nat by lia.
    rewrite !Nat.iter_add. cbn [SpecFloat.iter_pos]. by rewrite !IH.
  - rewrite Pos2Nat.inj_xO.
    replace (2 * Pos.to_nat p)%nat with (Pos.to_nat p + Pos.to_nat p)%nat by lia.
    rewrite Nat.iter_add. cbn [SpecFloat.iter_pos]. by rewrite !IH.
  - done.
Qed.

Lemma shr_1_exact q k :
  Nat.iter k shr_1 (Build_shr_record (Zpos (Pos.shiftl_nat q k)) false false)
  = Build_shr_record (Zpos q) false false.
Proof.
  induction k as [|k IH]; [done|].
  rewrite Nat.iter_succ_r.
  change (Pos.shiftl_nat q (S k)) with (xO (Pos.shiftl_nat q k)). simpl shr_1. exact IH.
Qed.

Lemma shr_exact q k e :
  shr (Build_shr_record (Zpos (Pos.shiftl_nat q k)) false false) e (Z.of_nat k)
  = (Build_shr_record (Zpos q) false false, e + Z.of_nat k).
Proof.
  destruct k as [|k].
  - simpl. f_equal. lia.
  - unfold shr. change (Z.of_nat (S k)) with (Zpos (Pos.of_succ_nat k)).
    cbv iota beta. rewrite iter_pos_nat, SuccNat2Pos.id_succ.
    by rewrite shr_1_exact.
Qed.

(** Rounding a significand whose discarded bits are all zero is exact. *)
Lemma binary_round_aux_exact s q e (k : nat) :
  Zpos (digits2_pos q) = 53 → -1074 ≤ e ≤ 971 →
  binary_round_aux prec emax s (Zpos (Pos.shiftl_nat q k)) (e - Z.of_nat k) loc_Exact
  = S754_finite s q e.
Proof.
  intros Hq He. unfold binary_round_aux.
  assert (Hf : ∀ j : nat, fexp prec emax (Zpos (digits2_pos (Pos.shiftl_nat q j)) + (e - Z.of_nat j)) - (e - Z.of_nat j) = Z.of_nat j).
  { intros j. rewrite digits2_shiftl_nat, Hq. unfold fexp, SpecFloat.emin, prec, emax. lia. }
  unfold shr_fexp at 1. simpl Zdigits2. rewrite Hf. simpl shr_record_of_loc.
  rewrite shr_exact. simpl shr_m. simpl loc_of_shr_record. simpl round_nearest_even.
  replace (e - Z.of_nat k + Z.of_nat k) with e by lia.
  unfold shr_fexp. simpl Zdigits2. 
  specialize (Hf 0%nat). simpl in Hf. rewrite Z.sub_0_r in Hf. rewrite Hf.
  simpl. destruct (Z.leb_spec e (emax - prec)); [done|]. unfold emax, prec in *. lia.
Qed.

Lemma pos_eq_shiftl_nat m q (k : nat) :
  Zpos m = Zpos q * 2 ^ Z.of_nat k → m = Pos.shiftl_nat q k.
Proof. rewrite <- shiftl_nat_Z. congruence. Qed.

Lemma iter_xO_shiftl_nat m d : Pos.iter xO m d = Pos.shiftl_nat m (Pos.to_nat d).
Proof. by rewrite Pos2Nat.inj_iter. Qed.

Lemma exponent_range c : Zpos (digits2_pos c) ≤ 53 → -52 ≤ exponent c ≤ 0.
Proof. unfold exponent. lia. Qed.

Lemma significand_Z c :
  Zpos (digits2_pos c) ≤ 53 → Zpos (significand c) = Zpos c * 2 ^ (- exponent c).
Proof.
  intros Hc. unfold significand, exponent. rewrite shiftl_nat_Z. do 2 f_equal. lia.
Qed.

Lemma digits2_significand c :
  Zpos (digits2_pos c) ≤ 53 → Zpos (digits2_pos (significand c)) = 53.
Proof. intros Hc. unfold significand. rewrite digits2_shiftl_nat. lia. Qed.

(** Rounding [m * 2^e] when it is the integer [c] of at most 53 bits:
    the result is [c], normalised. *)
Lemma round_integer s c m e :
  Zpos (digits2_pos c) ≤ 53 → e ≤ exponent c → Zpos m = Zpos c * 2 ^ (- e) →
  binary_round_aux prec emax s (Zpos m) e loc_Exact
  = S754_finite s (significand c) (exponent c).
Proof.
  intros Hc He Hm. pose proof (exponent_range c Hc) as Hr.
  set (k := Z.to_nat (exponent c - e)).
  assert (m = Pos.shiftl_nat (significand c) k) as ->.
  { apply pos_eq_shiftl_nat. rewrite Hm, significand_Z by done.
    rewrite <- Z.mul_assoc, <- Z.pow_add_r by lia. do 2 f_equal. lia. }
  replace e with (exponent c - Z.of_nat k) by lia.
  apply binary_round_aux_exact; [by apply digits2_significand|lia].
Qed.

Lemma binary_round_integer s c m e :
  Zpos (digits2_pos c) ≤ 53 → e ≤ 0 → Zpos m = Zpos c * 2 ^ (- e) →
  binary_round prec emax s m e = S754_finite s (significand c) (exponent c).
Proof.
  intros Hc He Hm. pose proof (exponent_range c Hc) as Hr. unfold binary_round.
  assert (Hd : Zpos (digits2_pos m) + e = Zpos (digits2_pos c)).
  { rewrite !digits2_log2, Hm, Z.log2_mul_pow2 by lia. lia. }
  rewrite Hd.
  assert (Hf : fexp prec emax (Zpos (digits2_pos c)) = exponent c).
  { unfold fexp, SpecFloat.emin, exponent, prec, emax. lia. }
  rewrite Hf. unfold shl_align.
  destruct (exponent c - e) as [|d|d] eqn:Hsub.
  - apply round_integer; [done|lia|done].
  - apply round_integer; [done|lia|done].
  - rewrite iter_xO_shiftl_nat. apply round_integer; [done|lia|].
    rewrite shiftl_nat_Z, Hm, <- Z.mul_assoc, <- Z.pow_add_r by lia.
    do 2 f_equal. lia.
Qed.

Lemma Prim2SF_double_of_pos c :
  Zpos (digits2_pos c) ≤ 53 →
  Prim2SF (double_of_int (Zpos c)) = S754_finite false (significand c) (exponent c).
Proof.
  intros Hc. unfold double_of_int. change (Zpos c <? 0) with false. cbv iota.
  rewrite of_uint63_spec, Uint63.of_Z_spec.
  assert (Zpos c < 2 ^ 53).
  { apply Z.log2_lt_pow2; [lia|]. rewrite digits2_log2 in Hc. lia. }
  rewrite Z.mod_small by (change wB with (2 ^ 63); lia).
  simpl binary_normalize. apply binary_round_integer; [done|lia|]. simpl. lia.
Qed.

Lemma digits2_bound c : Zpos c < 2 ^ 53 → Zpos (digits2_pos c) ≤ 53.
Proof. intros Hc. rewrite digits2_log2. apply Z.log2_lt_pow2 in Hc; lia. Qed.

Lemma shl_align_fst m e e' :
  e' ≤ e → Zpos (fst (shl_align m e e')) = Zpos m * 2 ^ (e - e').
Proof.
  intros He. unfold shl_align. destruct (e' - e) as [|d|d] eqn:Hsub; simpl fst.
  - replace (e - e') with 0 by lia. lia.
  - lia.
  - rewrite iter_xO_shiftl_nat, shiftl_nat_Z. do 2 f_equal. lia.
Qed.

(** How the integers from [0] to [2^53 - 1] sit in binary64. *)
Lemma Prim2SF_double_of_int a :
  0 ≤ a < 2 ^ 53 →
  Prim2SF (double_of_int a)
  = match a with
    | Zpos c => S754_finite false (significand c) (exponent c)
    | _ => S754_zero false
    end.
Proof.
  intros Ha. destruct a as [|c|c]; [done| |lia].
  apply Prim2SF_double_of_pos, digits2_bound. lia.
Qed.

(** Products and sums of non-negative integers are exact in binary64
    as long as they stay below [2^53]. *)
Lemma double_of_int_mul a b :
  0 ≤ a < 2 ^ 53 → 0 ≤ b < 2 ^ 53 → a * b < 2 ^ 53 →
  (double_of_int a * double_of_int b)%float = double_of_int (a * b).
Proof.
  intros Ha Hb Hab. apply Prim2SF_inj.
  rewrite FloatAxioms.mul_spec, !Prim2SF_double_of_int by lia.
  destruct a as [|a|a], b as [|b|b]; try done; try lia.
  simpl Z.mul. unfold SF64mul, SFmul. simpl xorb.
  assert (Zpos (digits2_pos a) ≤ 53 ∧ Zpos (digits2_pos b) ≤ 53
          ∧ Zpos (digits2_pos (a * b)) ≤ 53) as (Hda & Hdb & Hdc).
  { split_and!; apply digits2_bound; lia. }
  apply round_integer; [done| |].
  - unfold exponent. rewrite !digits2_log2, Pos2Z.inj_mul.
    pose proof (Z.log2_mul_below (Zpos a) (Zpos b)). 
    pose proof (Z.log2_nonneg (Zpos a)). pose proof (Z.log2_nonneg (Zpos b)).
    rewrite !digits2_log2 in *. lia.
  - rewrite Pos2Z.inj_mul, !significand_Z by done.
    unfold exponent.
    replace (- (Z.pos (digits2_pos a) - 53 + (Z.pos (digits2_pos b) - 53)))
      with (- (Z.pos (digits2_pos a) - 53) + - (Z.pos (digits2_pos b) - 53)) by lia.
    rewrite Z.pow_add_r by lia. rewrite Pos2Z.inj_mul. lia.
Qed.

Lemma double_of_int_add a b :
  0 ≤ a → 0 ≤ b → a + b < 2 ^ 53 →
  (double_of_int a + double_of_int b)%float = double_of_int (a + b).
Proof.
  intros Ha Hb Hab. apply Prim2SF_inj.
  rewrite FloatAxioms.add_spec, !Prim2SF_double_of_int by lia.
  destruct a as [|a|a], b as [|b|b]; try done; try lia.
  simpl Z.add. unfold SF64add, SFadd. cbv zeta. simpl cond_Zopp.
  assert (Zpos (digits2_pos a) ≤ 53 ∧ Zpos (digits2_pos b) ≤ 53
          ∧ Zpos (digits2_pos (a + b)) ≤ 53) as (Hda & Hdb & Hdc).
  { split_and!; apply digits2_bound; lia. }
  pose proof (exponent_range a Hda). pose proof (exponent_range b Hdb).
  set (ez := Z.min (exponent a) (exponent b)).
  simpl Z.add. simpl binary_normalize.
  apply binary_round_integer; [done|lia|].
  rewrite Pos2Z.inj_add, !shl_align_fst, !significand_Z by lia.
  rewrite <- !Z.mul_assoc, <- !Z.pow_add_r by lia.
  replace (- exponent a + (exponent a - ez)) with (- ez) by lia.
  replace (- exponent b + (exponent b - ez)) with (- ez) by lia.
  rewrite Pos2Z.inj_add. lia.
Qed.
End Exact.

Lemma float_mul_comm (x y : float) : (x * y)%float = (y * x)%float.
Proof.
  apply Prim2SF_inj. rewrite !FloatAxioms.mul_spec. unfold SF64mul, SFmul.
  destruct (Prim2SF x) as [sx|sx| |sx mx ex], (Prim2SF y) as [sy|sy| |sy my ey];
    rewrite ?(xorb_comm sx sy), ?(Pos.mul_comm mx my), ?(Z.add_comm ex ey); done.
Qed.

Lemma float_add_comm (x y : float) : (x + y)%float = (y + x)%float.
Proof.
  apply Prim2SF_inj. rewrite !FloatAxioms.add_spec.
  destruct (Prim2SF x) as [sx|sx| |sx mx ex], (Prim2SF y) as [sy|sy| |sy my ey];
    try done; try (by destruct sx, sy).
  unfold SF64add, SFadd. cbv zeta. by rewrite Z.add_comm, (Z.min_comm ex ey).
Qed.

(** With two contributions the order cannot matter: binary64 addition
    is commutative. *)
Lemma combine_two_ranks (a b : float) :
  Mpi.combine (Mpi.Combine (Mpi.Contribution 1) (Mpi.Contribution 0)) [a; b]
  = Mpi.combine (Mpi.rank_order 2) [a; b].
Proof. simpl. by rewrite float_add_comm. Qed.

(** * Memory and loops *)

Lemma load_peek h p i v : load h p i = Some v ↔ peek h p i = Some (Some v).
Proof. unfold load. destruct (peek h p i) as [[c|]|]; simpl; naive_solver. Qed.

Lemma peek_poke_eq h h' p i c : poke h p i c = Some h' → peek h' p i = Some c.
Proof.
  unfold poke, peek. destruct p as [|b]; [done|].
  destruct (h !! b) as [a|] eqn:Hb; simpl; [|done].
  destruct (i <? length a)%nat eqn:Hi; [|done]. intros [= <-].
  apply Nat.ltb_lt in Hi.
  rewrite lookup_insert_eq. simpl. by rewrite list_lookup_insert_eq.
Qed.

Lemma peek_poke_ne h h' p i c q j :
  poke h p i c = Some h' → q ≠ p ∨ j ≠ i → peek h' q j = peek h q j.
Proof.
  unfold poke, peek. destruct p as [|b]; [done|].
  destruct (h !! b) as [a|] eqn:Hb; simpl; [|done].
  destruct (i <? length a)%nat eqn:Hi; [|done]. intros [= <-] Hne.
  destruct q as [|c']; [done|].
  destruct (decide (c' = b)) as [->|Hcb].
  - rewrite lookup_insert_eq, Hb. simpl.
    destruct Hne as [Hne|Hne]; [done|]. by rewrite list_lookup_insert_ne.
  - by rewrite lookup_insert_ne.
Qed.

Lemma load_store_eq h h' p i v : store h p i v = Some h' → load h' p i = Some v.
Proof. intros H. apply load_peek. eauto using peek_poke_eq. Qed.

Lemma load_store_ne h h' p i v q j :
  store h p i v = Some h' → q ≠ p ∨ j ≠ i → load h' q j = load h q j.
Proof. intros H Hne. unfold load. by erewrite peek_poke_ne. Qed.

Lemma poke_allocated h p i c k :
  allocated h p k → (i < k)%nat → is_Some (poke h p i c).
Proof.
  intros (b & a & -> & Hb & Hk) Hi. unfold poke. rewrite Hb. simpl.
  destruct (Nat.ltb_spec i (length a)); [eauto|lia].
Qed.

Lemma allocated_poke h h' p i c q k :
  poke h p i c = Some h' → allocated h q k → allocated h' q k.
Proof.
  unfold poke. destruct p as [|b]; [done|].
  destruct (h !! b) as [a|] eqn:Hb; simpl; [|done].
  destruct (i <? length a)%nat; [|done]. intros [= <-] (c' & a' & -> & Hc & Hk).
  destruct (decide (c' = b)) as [->|Hcb].
  - exists b, (<[i := c]> a). rewrite lookup_insert_eq, length_insert.
    split_and!; [done..|]. congruence.
  - exists c', a'. by rewrite lookup_insert_ne.
Qed.

Lemma load_allocated h p i v : load h p i = Some v → allocated h p (S i).
Proof.
  intros H%load_peek. unfold peek in H. destruct p as [|b]; [done|].
  destruct (h !! b) as [a|] eqn:Hb; [|done]. simpl in H.
  exists b, a. split_and!; [done..|]. by apply lookup_lt_Some in H.
Qed.

(** The invariant rule of a counted loop: an invariant that holds at
    the start and that every iteration re-establishes holds at the end,
    and the loop does come back. *)
Lemma for_range_inv {S : Type} (body : nat → S → option S) (I : nat → S → Prop) :
  ∀ k start s,
    I start s →
    (∀ j t, (start ≤ j < start + k)%nat → I j t →
            ∃ t', body j t = Some t' ∧ I (Datatypes.S j) t') →
    ∃ s', for_range body start k s = Some s' ∧ I (start + k)%nat s'.
Proof.
  induction k as [|k IH]; intros start s Hs Hstep; simpl.
  - exists s. by rewrite Nat.add_0_r.
  - destruct (Hstep start s ltac:(lia) Hs) as (t' & -> & Ht'). simpl.
    destruct (IH (Datatypes.S start) t' Ht') as (s' & Hs' & HI).
    { intros j t Hj. apply Hstep. lia. }
    exists s'. split; [done|]. by rewrite <- Nat.add_succ_comm.
Qed.

Lemma for_loop_inv {S : Type} (body : nat → S → option S) (I : nat → S → Prop) n s :
  I 0%nat s →
  (∀ j t, (j < Z.to_nat n)%nat → I j t → ∃ t', body j t = Some t' ∧ I (Datatypes.S j) t') →
  ∃ s', for_loop n body s = Some s' ∧ I (Z.to_nat n) s'.
Proof.
  intros Hs Hstep. unfold for_loop.
  apply (for_range_inv body I (Z.to_nat n) 0%nat s Hs).
  intros j t Hj. apply Hstep. lia.
Qed.

Lemma holds_lookup h p vs i :
  holds h p vs → (i < length vs)%nat → ∃ v, vs !! i = Some v ∧ load h p i = Some v.
Proof.
  intros H Hi. destruct (lookup_lt_is_Some_2 vs i Hi) as [v Hv]. eauto.
Qed.

(** * The sequential program *)

(** The loop of [Vector_sum] comes back, with [z[i] = x[i] + y[i]] on
    [0 <= i < n] and every other cell of the memory as it was; [z] may
    even be [x] or [y]. *)
Lemma Vector_sum_effect x y z n h xs ys :
  length xs = Z.to_nat n → length ys = Z.to_nat n →
  holds h x xs → holds h y ys → allocated h z (Z.to_nat n) →
  ∃ h', Seq.Vector_sum x y z n h = Some h'
        ∧ (∀ i xi yi, xs !! i = Some xi → ys !! i = Some yi →
                      load h' z i = Some (xi + yi)%float)
        ∧ (∀ q j, q ≠ z ∨ (Z.to_nat n ≤ j)%nat → peek h' q j = peek h q j).
Proof.
  intros Hlx Hly Hx Hy Hz. unfold Seq.Vector_sum.
  set (I := λ (k : nat) (hk : heap),
         (∀ i xi yi, (i < k)%nat → xs !! i = Some xi → ys !! i = Some yi →
                     load hk z i = Some (xi + yi)%float)
         ∧ (∀ q j, q ≠ z ∨ (k ≤ j)%nat → peek hk q j = peek h q j)
         ∧ allocated hk z (Z.to_nat n)).
  destruct (for_loop_inv
              (λ i h, xi ← load h x i; yi ← load h y i; store h z i (xi + yi)%float)
              I n h) as (h' & Hrun & Hsum & Hframe & _).
  - split_and!; [intros; lia|done|done].
  - intros j hk Hj (Hsum & Hframe & Halloc).
    destruct (holds_lookup h x xs j Hx ltac:(lia)) as (xj & Hxj & Hlxj).
    destruct (holds_lookup h y ys j Hy ltac:(lia)) as (yj & Hyj & Hlyj).
    assert (load hk x j = Some xj) as ->.
    { unfold load. rewrite Hframe by (right; lia). done. }
    assert (load hk y j = Some yj) as ->.
    { unfold load. rewrite Hframe by (right; lia). done. }
    simpl. destruct (poke_allocated hk z j (Some (xj + yj)%float) _ Halloc Hj) as [hk' Hst].
    exists hk'. split; [done|]. split_and!.
    + intros i xi yi Hi Hxi Hyi. destruct (decide (i = j)) as [->|Hne].
      * rewrite Hxj in Hxi. rewrite Hyj in Hyi. simplify_eq. eauto using load_store_eq.
      * erewrite load_store_ne by eauto. apply Hsum; [lia|done..].
    + intros q i Hq.
      rewrite (peek_poke_ne _ _ _ _ _ q i Hst) by (destruct Hq; [by left|right; lia]).
      apply Hframe. destruct Hq; [by left|right; lia].
    + eauto using allocated_poke.
  - exists h'. split_and!; [done| |done].
    intros i xi yi Hxi Hyi. apply Hsum; [|done..].
    apply lookup_lt_Some in Hxi. lia.
Qed.

(** * The local arithmetic of the MPI program *)

Lemma dot_snoc xs ys x y :
  length xs = length ys →
  dot (xs ++ [x]) (ys ++ [y]) = (dot xs ys + x * y)%float.
Proof.
  intros Hl. unfold dot. by rewrite zip_with_app, foldl_app.
Qed.

(** The loop of [Parallel_dot_product] adds the products up in index
    order, from [0.0]. *)
Lemma local_dot_product_dot x y local_n h xs ys :
  length xs = Z.to_nat local_n → length ys = Z.to_nat local_n →
  holds h x xs → holds h y ys →
  Mpi.local_dot_product x y local_n h = Some (dot xs ys).
Proof.
  intros Hlx Hly Hx Hy. unfold Mpi.local_dot_product.
  destruct (for_loop_inv
              (λ i acc, xi ← load h x i; yi ← load h y i; Some (acc + xi * yi)%float)
              (λ k acc, acc = dot (take k xs) (take k ys)) local_n 0%float)
    as (d & -> & ->).
  - done.
  - intros j acc Hj ->.
    destruct (holds_lookup h x xs j Hx ltac:(lia)) as (xj & Hxj & ->).
    destruct (holds_lookup h y ys j Hy ltac:(lia)) as (yj & Hyj & ->).
    simpl. eexists. split; [done|].
    rewrite (take_S_r xs j xj), (take_S_r ys j yj) by done.
    rewrite dot_snoc; [done|]. rewrite !length_take. lia.
  - by rewrite <- Hlx at 1; rewrite <- Hly, !firstn_all.
Qed.

(** The loop of [Parallel_scalar_multiplication] on two distinct
    blocks comes back, with every element of both blocks multiplied by
    the scalar and every other cell of the memory as it was. *)
Lemma scalar_multiplication_effect x y s local_n h xs ys :
  x ≠ y → length xs = Z.to_nat local_n → length ys = Z.to_nat local_n →
  holds h x xs → holds h y ys →
  ∃ h', Mpi.Parallel_scalar_multiplication x y s local_n h = Some h'
        ∧ holds h' x ((λ v, v * s)%float <$> xs)
        ∧ holds h' y ((λ v, v * s)%float <$> ys)
        ∧ (∀ q j, (q ≠ x ∧ q ≠ y) ∨ (Z.to_nat local_n ≤ j)%nat →
                  peek h' q j = peek h q j)
        ∧ (∀ q k, allocated h q k → allocated h' q k).
Proof.
  intros Hxy Hlx Hly Hx Hy. unfold Mpi.Parallel_scalar_multiplication.
  set (body := λ (i : nat) (h : heap),
         xi ← load h x i; h1 ← store h x i (xi * s)%float;
         yi ← load h1 y i; store h1 y i (yi * s)%float).
  set (I := λ (k : nat) (hk : heap),
         (∀ i v, (i < k)%nat → xs !! i = Some v → load hk x i = Some (v * s)%float)
         ∧ (∀ i v, (i < k)%nat → ys !! i = Some v → load hk y i = Some (v * s)%float)
         ∧ (∀ q j, (q ≠ x ∧ q ≠ y) ∨ (k ≤ j)%nat → peek hk q j = peek h q j)
         ∧ (∀ q m, allocated h q m → allocated hk q m)).
  destruct (for_loop_inv body I local_n h) as (h' & Hrun & Hsx & Hsy & Hframe & Hal).
  - split_and!; [intros; lia|intros; lia|done|done].
  - intros j hk Hj (Hsx & Hsy & Hframe & Hal). unfold body.
    destruct (holds_lookup h x xs j Hx ltac:(lia)) as (xj & Hxj & Hlxj).
    destruct (holds_lookup h y ys j Hy ltac:(lia)) as (yj & Hyj & Hlyj).
    assert (load hk x j = Some xj) as Hkx.
    { unfold load. rewrite Hframe by (right; lia). done. }
    assert (load hk y j = Some yj) as Hky.
    { unfold load. rewrite Hframe by (right; lia). done. }
    rewrite Hkx. simpl.
    destruct (poke_allocated hk x j (Some (xj * s)%float) (S j)) as [h1 Hst1];
      [eauto using load_allocated|lia|].
    change (store hk x j (xj * s)%float = Some h1) in Hst1. rewrite Hst1. simpl.
    assert (load h1 y j = Some yj) as ->.
    { erewrite load_store_ne; eauto. }
    simpl.
    destruct (poke_allocated h1 y j (Some (yj * s)%float) (S j)) as [h2 Hst2];
      [eauto using load_allocated, allocated_poke|lia|].
    exists h2. split; [done|]. split_and!.
    + intros i v Hi Hv. erewrite (load_store_ne h1 h2) by eauto.
      destruct (decide (i = j)) as [->|Hne].
      * rewrite Hxj in Hv. simplify_eq. eauto using load_store_eq.
      * erewrite (load_store_ne hk h1) by eauto. apply Hsx; [lia|done].
    + intros i v Hi Hv. destruct (decide (i = j)) as [->|Hne].
      * rewrite Hyj in Hv. simplify_eq. eauto using load_store_eq.
      * erewrite (load_store_ne h1 h2), (load_store_ne hk h1) by eauto.
        apply Hsy; [lia|done].
    + intros q i Hq.
      rewrite (peek_poke_ne _ _ _ _ _ q i Hst2), (peek_poke_ne _ _ _ _ _ q i Hst1)
        by (destruct Hq as [[??]|?]; [by left|right; lia]).
      apply Hframe. destruct Hq as [?|?]; [by left|right; lia].
    + eauto using allocated_poke.
  - exists h'. split_and!; [done| | |done|done].
    + intros i v Hv. apply list_lookup_fmap_Some in Hv as (v0 & -> & Hv0).
      apply Hsx; [|done]. apply lookup_lt_Some in Hv0. lia.
    + intros i v Hv. apply list_lookup_fmap_Some in Hv as (v0 & -> & Hv0).
      apply Hsy; [|done]. apply lookup_lt_Some in Hv0. lia.
Qed.

(** A block whose cells start with the values [vs] holds them. *)
Lemma holds_block (h : heap) b vs rest :
  h !! b = Some ((Some <$> vs) ++ rest) → holds h (Ptr b) vs.
Proof.
  intros Hb i v Hv. unfold load, peek. rewrite Hb. simpl.
  rewrite lookup_app_l by (rewrite length_fmap; eauto using lookup_lt_Some).
  by rewrite list_lookup_fmap, Hv.
Qed.

Lemma holding_owns xs ys :
  length ys = length xs →
  Mpi.owns (Z.of_nat (length xs)) (Mpi.holding xs ys) (xs, ys).
Proof.
  intros Hl. unfold Mpi.owns. simpl. rewrite Nat2Z.id. split_and!; [done..| |].
  - by apply (holds_block _ 0%N xs []); rewrite app_nil_r.
  - by apply (holds_block _ 1%N ys []); rewrite app_nil_r.
Qed.

Lemma float_0_neq_1 : 0%float ≠ 1%float.
Proof.
  intros H. apply (f_equal (λ v, PrimFloat.eqb v 0)) in H. vm_compute in H. discriminate.
Qed.

(** C9: [Read_n] guards the order it reads, a value of [int]: on a
    value [n <= 0] it writes the message on standard error and ends the
    process with a non-zero status; on a positive value it returns that
    value. *)
Theorem Read_n_guard (v : Z) (rest : list Z) :
  (INT_MIN ≤ v ≤ INT_MAX)%Z →
  ((v ≤ 0)%Z →
   ∃ out status,
     Seq.Read_n (v :: rest)
     = Some (Exits status "Order should be positive
"%string, out, rest)
     ∧ status ≠ 0%Z)
  ∧ ((0 < v)%Z → ∃ out, Seq.Read_n (v :: rest) = Some (Returns v, out, rest)).
Proof.
  intros Hint. unfold Seq.Read_n.
  destruct (Z.ltb_spec v INT_MIN); [lia|]. destruct (Z.ltb_spec INT_MAX v); [lia|].
  cbn [orb]. split; intros Hv.
  - destruct (Z.leb_spec v 0); [|lia]. by eexists _, (-1)%Z.
  - destruct (Z.leb_spec v 0); [lia|]. by eexists.
Qed.

(** C9 on the inputs 0 and 5. *)
Lemma Read_n_guard_witness :
  (∃ out status,
     Seq.Read_n [0%Z] = Some (Exits status "Order should be positive
"%string, out, []) ∧ status ≠ 0%Z)
  ∧ ∃ out, Seq.Read_n [5%Z] = Some (Returns 5%Z, out, []).
Proof.
  split.
  - exact (proj1 (Read_n_guard 0 [] ltac:(unfold INT_MIN, INT_MAX; lia)) ltac:(lia)).
  - exact (proj2 (Read_n_guard 5 [] ltac:(unfold INT_MIN, INT_MAX; lia)) ltac:(lia)).
Defined.

(** C7: after [Parallel_scalar_multiplication] every element of a
    block it was given, on [0 <= i < local_n], is the scalar times the
    original element; the cells of that block from [local_n] on and the
    blocks it was not given are as they were. *)
Theorem scalar_multiply_block x y s local_n h xs ys :
  x ≠ y → length xs = Z.to_nat local_n → length ys = Z.to_nat local_n →
  holds h x xs → holds h y ys →
  ∃ h', Mpi.Parallel_scalar_multiplication x y s local_n h = Some h'
        ∧ (∀ block original, (block = x ∧ original = xs) ∨ (block = y ∧ original = ys) →
             (∀ i v, original !! i = Some v → load h' block i = Some (s * v)%float)
             ∧ (∀ j, (Z.to_nat local_n ≤ j)%nat → peek h' block j = peek h block j))
        ∧ (∀ q j, q ≠ x → q ≠ y → peek h' q j = peek h q j).
Proof.
  intros Hxy Hlx Hly Hx Hy.
  destruct (scalar_multiplication_effect x y s local_n h xs ys)
    as (h' & Hrun & Hsx & Hsy & Hframe & _); [done..|].
  exists h'. split_and!; [done| |by eauto].
  intros block original [[-> ->]|[-> ->]]; (split; [|by eauto]); intros i v Hv.
  - rewrite float_mul_comm. apply Hsx. by rewrite list_lookup_fmap, Hv.
  - rewrite float_mul_comm. apply Hsy. by rewrite list_lookup_fmap, Hv.
Qed.

(** C7 on the blocks [[1; 2]] and [[5; 6]], scaled by 2. *)
Lemma scalar_multiply_block_witness :
  let h : heap := {[ 0%N := [Some 1%float; Some 2%float];
                     1%N := [Some 5%float; Some 6%float] ]} in
  ∃ h', Mpi.Parallel_scalar_multiplication (Ptr 0) (Ptr 1) 2%float 2 h = Some h'
        ∧ (∀ block original,
             (block = Ptr 0 ∧ original = [1%float; 2%float])
             ∨ (block = Ptr 1 ∧ original = [5%float; 6%float]) →
             (∀ i v, original !! i = Some v → load h' block i = Some (2 * v)%float)
             ∧ (∀ j, (Z.to_nat 2 ≤ j)%nat → peek h' block j = peek h block j))
        ∧ (∀ q j, q ≠ Ptr 0 → q ≠ Ptr 1 → peek h' q j = peek h q j).
Proof.
  intros h.
  apply (scalar_multiply_block (Ptr 0) (Ptr 1) 2%float 2 h [1%float; 2%float] [5%float; 6%float]).
  - discriminate.
  - reflexivity.
  - reflexivity.
  - apply (holds_block h 0%N _ []). reflexivity.
  - apply (holds_block h 1%N _ []). reflexivity.
Defined.

(** The two blocks must be two: handed the same block twice, the
    routine scales it twice. *)
Example scalar_multiplication_aliased :
  let h : heap := {[ 0%N := [Some 1%float; Some 2%float] ]} in
  Mpi.Parallel_scalar_multiplication (Ptr 0) (Ptr 0) 2%float 2 h
  = Some {[ 0%N := [Some 4%float; Some 8%float] ]}.
Proof. vm_compute. reflexivity. Qed.

(** C10: the one call of [Parallel_scalar_multiplication] in [main]
    scales both vectors of the process: afterwards every element of
    [local_x] and of [local_y] is the scalar times its original value,
    whereas every cell of [local_z], and of any block other than the
    two, is as it was, and so is the rest of the state of the process:
    only its memory changed. *)
Theorem scalar_multiplication_both (p : Mpi.proc) s local_n xs ys :
  Mpi.local_x p ≠ Mpi.local_y p →
  Mpi.local_z p ≠ Mpi.local_x p → Mpi.local_z p ≠ Mpi.local_y p →
  length xs = Z.to_nat local_n → length ys = Z.to_nat local_n →
  holds (Mpi.mem p) (Mpi.local_x p) xs → holds (Mpi.mem p) (Mpi.local_y p) ys →
  ∃ h', Mpi.Parallel_scalar_multiplication
          (Mpi.local_x p) (Mpi.local_y p) s local_n (Mpi.mem p) = Some h'
        ∧ Mpi.scale s local_n p = Some (Mpi.with_mem h' p)
        ∧ holds h' (Mpi.local_x p) ((λ v, s * v)%float <$> xs)
        ∧ holds h' (Mpi.local_y p) ((λ v, s * v)%float <$> ys)
        ∧ (∀ j, peek h' (Mpi.local_z p) j = peek (Mpi.mem p) (Mpi.local_z p) j)
        ∧ (∀ q j, q ≠ Mpi.local_x p → q ≠ Mpi.local_y p →
                  peek h' q j = peek (Mpi.mem p) q j).
Proof.
  intros Hxy Hzx Hzy Hlx Hly Hx Hy.
  destruct (scalar_multiplication_effect _ _ s local_n _ xs ys Hxy Hlx Hly Hx Hy)
    as (h' & Hrun & Hsx & Hsy & Hframe & _).
  assert (Hmul : (λ v, s * v)%float <$> xs = (λ v, v * s)%float <$> xs
                 ∧ (λ v, s * v)%float <$> ys = (λ v, v * s)%float <$> ys).
  { split; apply list_fmap_ext; intros; apply float_mul_comm. }
  destruct Hmul as [-> ->].
  exists h'. unfold Mpi.scale. rewrite Hrun. split_and!; eauto.
Qed.

(** C10 on the blocks [[1; 2]] and [[5; 6]], scaled by 2. *)
Lemma scalar_multiplication_both_witness :
  let p := Mpi.holding [1%float; 2%float] [5%float; 6%float] in
  ∃ h', Mpi.Parallel_scalar_multiplication (Ptr 0) (Ptr 1) 2%float 2 (Mpi.mem p) = Some h'
        ∧ Mpi.scale 2%float 2 p = Some (Mpi.with_mem h' p)
        ∧ holds h' (Ptr 0) [2%float; 4%float]
        ∧ holds h' (Ptr 1) [10%float; 12%float]
        ∧ (∀ j, peek h' (Ptr 2) j = peek (Mpi.mem p) (Ptr 2) j)
        ∧ (∀ q j, q ≠ Ptr 0 → q ≠ Ptr 1 → peek h' q j = peek (Mpi.mem p) q j).
Proof.
  intros p.
  exact (scalar_multiplication_both p 2%float 2 [1%float; 2%float] [5%float; 6%float]
           ltac:(discriminate) ltac:(discriminate) ltac:(discriminate)
           eq_refl eq_refl
           (holds_block (Mpi.mem p) 0%N [1%float; 2%float] [] eq_refl)
           (holds_block (Mpi.mem p) 1%N [5%float; 6%float] [] eq_refl)).
Defined.

(** * Partition and gather *)

Lemma blocks_cover (k W : nat) :
  concat ((λ r, Mpi.global_index k r <$> seq 0 k) <$> seq 0 W) = seq 0 (W * k).
Proof.
  induction W as [|W IH]; [done|].
  rewrite seq_S, fmap_app, concat_app, IH. simpl. rewrite app_nil_r.
  change (Mpi.global_index k W) with (Nat.add (W * k)).
  rewrite (fmap_add_seq (W * k) 0 k), Nat.add_0_r, <- seq_app. f_equal. lia.
Qed.

(** C3: when [n mod W = 0], the partition gives every process a block
    of [local_n = n / W] elements, [W * local_n = n], local index [i]
    of rank [r] is global index [r * local_n + i], and the blocks in
    rank order list the global indices [0 .. n-1], each once. *)
Theorem partition_covers (n : Z) (W : nat) :
  (0 < W)%nat → Z.rem n (Z.of_nat W) = 0%Z →
  let local_n := Z.to_nat (Mpi.block_length n W) in
  (Z.of_nat W * Mpi.block_length n W = n)%Z
  ∧ (∀ r i, Mpi.global_index local_n r i = (r * local_n + i)%nat)
  ∧ Forall (λ block, length block = local_n)
      ((λ r, Mpi.global_index local_n r <$> seq 0 local_n) <$> seq 0 W)
  ∧ concat ((λ r, Mpi.global_index local_n r <$> seq 0 local_n) <$> seq 0 W)
    = seq 0 (Z.to_nat n).
Proof.
  intros HW Hrem local_n. unfold Mpi.block_length in *.
  assert (Hn : (Z.of_nat W * (n ÷ Z.of_nat W) = n)%Z).
  { pose proof (Z.quot_rem' n (Z.of_nat W)). lia. }
  split_and!; [done|done| |].
  - apply Forall_fmap, Forall_forall. intros r _. simpl.
    by rewrite length_fmap, length_seq.
  - rewrite blocks_cover. f_equal. subst local_n.
    destruct (Z.le_gt_cases 0 n) as [Hpos|Hneg].
    + assert (0 ≤ n ÷ Z.of_nat W)%Z by (apply Z.quot_pos; lia).
      rewrite <- Hn at 2. rewrite Z2Nat.inj_mul, Nat2Z.id by lia. done.
    + assert (n ÷ Z.of_nat W ≤ 0)%Z by nia.
      rewrite (Z2Nat.nonpos n), (Z2Nat.nonpos (n ÷ _)) by lia. lia.
Qed.

(** C3 on [n = 6] and three processes. *)
Lemma partition_covers_witness :
  concat ((λ r, Mpi.global_index 2 r <$> seq 0 2) <$> seq 0 3) = [0; 1; 2; 3; 4; 5]%nat.
Proof.
  exact (proj2 (proj2 (proj2
    (partition_covers 6 3 ltac:(lia) eq_refl)))).
Defined.

Lemma poke_block (h : heap) b a i c :
  h !! b = Some a → (i < length a)%nat →
  poke h (Ptr b) i c = Some (<[b := <[i := c]> a]> h).
Proof.
  intros Hb Hi. unfold poke. rewrite Hb. simpl.
  by destruct (Nat.ltb_spec i (length a)); [|lia].
Qed.

(** Placing the cells of one rank overwrites its slice of the receive
    buffer and nothing else. *)
Lemma place_block cs : ∀ (h : heap) b a k r i,
  h !! b = Some a → (r * k + i + length cs ≤ length a)%nat →
  Mpi.place h (Ptr b) k r i cs
  = Some (<[b := take (r * k + i) a ++ cs ++ drop (r * k + i + length cs) a]> h).
Proof.
  induction cs as [|c cs IH]; intros h b a k r i Hb Hlen; cbn [Mpi.place length app].
  - rewrite Nat.add_0_r, take_drop. by rewrite insert_id.
  - simpl in Hlen. unfold Mpi.global_index.
    rewrite (poke_block h b a) by (done || lia). cbn [mbind option_bind].
    rewrite (IH _ b (<[r * k + i := c]> a)); cycle 1.
    { by rewrite lookup_insert_eq. }
    { rewrite length_insert. lia. }
    rewrite insert_insert_eq, drop_insert_lt by lia.
    replace (r * k + S i)%nat with (S (r * k + i)) by lia.
    rewrite (take_S_r _ _ c) by (apply list_lookup_insert_eq; lia).
    rewrite take_insert_ge by lia. rewrite <- app_assoc.
    replace (S (r * k + i) + length cs)%nat with (r * k + i + S (length cs))%nat by lia.
    done.
Qed.

Lemma length_concat_uniform {A} (k : nat) (blocks : list (list A)) :
  Forall (λ cs, length cs = k) blocks → length (concat blocks) = (length blocks * k)%nat.
Proof.
  induction 1 as [|cs blocks Hcs _ IH]; [done|].
  simpl. rewrite length_app, IH, Hcs. done.
Qed.

(** The gather stores the blocks in rank order, one after the other. *)
Lemma gather_blocks blocks : ∀ (h : heap) b a k r,
  h !! b = Some a → Forall (λ cs, length cs = k) blocks →
  ((r + length blocks) * k ≤ length a)%nat →
  Mpi.MPI_Gather h (Ptr b) k r blocks
  = Some (<[b := take (r * k) a ++ concat blocks ++ drop ((r + length blocks) * k) a]> h).
Proof.
  induction blocks as [|cs blocks IH]; intros h b a k r Hb Hk Hlen;
    cbn [Mpi.MPI_Gather length app concat].
  - rewrite Nat.add_0_r, take_drop. by rewrite insert_id.
  - apply Forall_cons in Hk as [Hcs Hk]. simpl in Hlen.
    rewrite (place_block cs h b a) by (done || lia). cbn [mbind option_bind].
    rewrite Nat.add_0_r, Hcs.
    set (a1 := take (r * k) a ++ cs ++ drop (r * k + k) a).
    assert (Hl1 : length (take (r * k) a) = (r * k)%nat) by (rewrite length_take; lia).
    assert (Ha1 : length a1 = length a).
    { unfold a1. rewrite !length_app, length_drop, Hl1, Hcs. lia. }
    rewrite (IH _ b a1); cycle 1.
    { by rewrite lookup_insert_eq. }
    { done. }
    { rewrite Ha1. lia. }
    rewrite insert_insert_eq.
    unfold a1. rewrite (app_assoc (take _ _) cs).
    rewrite take_app_length' by (rewrite length_app, Hl1, Hcs; lia).
    rewrite drop_app_ge by (rewrite length_app, Hl1, Hcs; lia).
    rewrite length_app, Hl1, Hcs, drop_drop, <- !app_assoc.
    replace (r * k + k + ((S r + length blocks) * k - (r * k + k)))%nat
      with ((r + S (length blocks)) * k)%nat by lia.
    done.
Qed.

Lemma read_cells_block (h : heap) b a :
  h !! b = Some a → read_cells h (Ptr b) (length a) = Some a.
Proof.
  intros Hb. unfold read_cells. apply mapM_Some_2.
  apply Forall2_same_length_lookup_2; [by rewrite length_seq|].
  intros i j c Hj Hc. apply lookup_seq in Hj as [-> _].
  unfold peek. rewrite Hb. done.
Qed.

Lemma read_cells_length (h : heap) p k cs : read_cells h p k = Some cs → length cs = k.
Proof. intros H%length_mapM. by rewrite length_seq in H. Qed.

Lemma concat_lookup_uniform {A} (k : nat) (blocks : list (list A)) :
  Forall (λ cs, length cs = k) blocks →
  ∀ r i cs c, blocks !! r = Some cs → cs !! i = Some c →
              concat blocks !! Mpi.global_index k r i = Some c.
Proof.
  unfold Mpi.global_index.
  induction 1 as [|cs0 blocks Hcs0 _ IH]; intros r i cs c Hr Hi; [done|].
  destruct r as [|r]; simpl in *.
  - simplify_eq. by apply lookup_app_l_Some.
  - rewrite lookup_app_r by lia.
    replace (k + r * k + i - length cs0)%nat with (r * k + i)%nat by lia. eauto.
Qed.

(** The blocks read at the ranks all have [k] cells. *)
Lemma blocks_uniform (local_b : Mpi.proc → ptr) (k : nat) (w : list Mpi.proc)
    (blocks : list (list cell)) :
  Forall2 (λ p cs, read_cells (Mpi.mem p) (local_b p) k = Some cs) w blocks →
  Forall (λ cs, length cs = k) blocks.
Proof.
  intros Hblocks. apply Forall_forall. intros cs Hcs.
  apply list_elem_of_lookup in Hcs as [r Hr].
  destruct (Forall2_lookup_r _ _ _ _ _ Hblocks Hr) as (p & _ & Hp).
  eauto using read_cells_length.
Qed.

(** A receive buffer of exactly the gathered length is overwritten as a
    whole. *)
Lemma gather_whole (k : nat) (blocks : list (list cell)) (h : heap) b a :
  Forall (λ cs, length cs = k) blocks →
  h !! b = Some a → length a = length (concat blocks) →
  Mpi.MPI_Gather h (Ptr b) k 0 blocks = Some (<[b := concat blocks]> h).
Proof.
  intros Hk Hb Ha. rewrite (length_concat_uniform k) in Ha by done.
  rewrite (gather_blocks blocks h b a) by (done || lia).
  rewrite drop_ge by lia. simpl. by rewrite app_nil_r.
Qed.

(** [Print_vector] with enough memory at rank 0: the buffer is
    allocated, filled by the gather, printed and freed. *)
Lemma Print_vector_gathers (local_b : Mpi.proc → ptr) (k : nat) (title : string)
    (p0 : Mpi.proc) (others : list Mpi.proc) (blocks : list (list cell)) :
  Forall2 (λ p cs, read_cells (Mpi.mem p) (local_b p) k = Some cs) (p0 :: others) blocks →
  Mpi.mem p0 !! Mpi.brk p0 = None →
  (Z.of_nat (length (p0 :: others) * k) ≤ Mpi.avail p0)%Z →
  Mpi.Print_vector local_b (Z.of_nat k) (Z.of_nat (length (p0 :: others) * k)) title
    (p0 :: others)
  = Some (Mpi.called Mpi.Gather <$>
            (Mpi.Proc (Mpi.mem p0) (Mpi.brk p0 + 1)%N (Mpi.avail p0)
               (Mpi.rand_calls p0) (Mpi.local_x p0) (Mpi.local_y p0) (Mpi.local_z p0)
               (Mpi.dot_product p0) (Mpi.calls p0)
               (Mpi.stdout p0
                ++ Mpi.Title title :: (Mpi.Number <$> concat blocks) ++ [Mpi.Newline])
             :: others)).
Proof.
  intros Hblocks Hfresh Havail. set (n := (length (p0 :: others) * k)%nat) in *.
  assert (Hk : Forall (λ cs, length cs = k) blocks) by (by eapply blocks_uniform).
  assert (Hn : length (concat blocks) = n).
  { rewrite (length_concat_uniform k) by done.
    by rewrite <- (Forall2_length _ _ _ Hblocks). }
  unfold Mpi.Print_vector. rewrite !Nat2Z.id.
  rewrite (mapM_Some_2 _ _ blocks Hblocks). cbn [mbind option_bind].
  unfold Mpi.malloc.
  destruct (Z.ltb_spec (Z.of_nat n) 0); [lia|].
  destruct (Z.ltb_spec (Mpi.avail p0) (Z.of_nat n)); [lia|].
  cbn [orb Mpi.mem]. rewrite !Nat2Z.id.
  rewrite (gather_whole k blocks _ _ (replicate n None))
    by (by rewrite ?lookup_insert_eq, ?length_replicate).
  cbn [mbind option_bind]. rewrite insert_insert_eq.
  rewrite <- Hn at 1.
  rewrite (read_cells_block _ _ (concat blocks)) by by rewrite lookup_insert_eq.
  cbn [mbind option_bind]. do 3 f_equal.
  unfold Mpi.free, Mpi.printed, Mpi.with_mem. cbn.
  rewrite lookup_insert_eq, delete_insert_eq, delete_id by done. cbn.
  f_equal. rewrite Hn. unfold n. simpl. lia.
Qed.

(** C4: out of one block of [local_n] cells per process, the gather
    builds at rank 0 the vector of [n = W * local_n] cells that is
    their concatenation in rank order (cell [i] of rank [r] at global
    index [r * local_n + i]); [Print_vector] prints exactly that vector
    at rank 0, and leaves every other process without it: its memory
    and output are as before the call. *)
Theorem gather_concatenates (local_b : Mpi.proc → ptr) (k : nat) (title : string)
    (p0 : Mpi.proc) (others : list Mpi.proc) (blocks : list (list cell)) :
  Forall2 (λ p cs, read_cells (Mpi.mem p) (local_b p) k = Some cs) (p0 :: others) blocks →
  Mpi.mem p0 !! Mpi.brk p0 = None →
  (Z.of_nat (length (p0 :: others) * k) ≤ Mpi.avail p0)%Z →
  let n := (length (p0 :: others) * k)%nat in
  length (concat blocks) = n
  ∧ (∀ r i cs c, blocks !! r = Some cs → cs !! i = Some c →
                 concat blocks !! Mpi.global_index k r i = Some c)
  ∧ (∀ (h : heap) b a, h !! b = Some a → length a = n →
       Mpi.MPI_Gather h (Ptr b) k 0 blocks = Some (<[b := concat blocks]> h))
  ∧ Mpi.Print_vector local_b (Z.of_nat k) (Z.of_nat n) title (p0 :: others)
    = Some (Mpi.called Mpi.Gather <$>
              (Mpi.Proc (Mpi.mem p0) (Mpi.brk p0 + 1)%N (Mpi.avail p0)
                 (Mpi.rand_calls p0) (Mpi.local_x p0) (Mpi.local_y p0) (Mpi.local_z p0)
                 (Mpi.dot_product p0) (Mpi.calls p0)
                 (Mpi.stdout p0
                  ++ Mpi.Title title :: (Mpi.Number <$> concat blocks) ++ [Mpi.Newline])
               :: others)).
Proof.
  intros Hblocks Hfresh Havail n.
  assert (Hk : Forall (λ cs, length cs = k) blocks) by (by eapply blocks_uniform).
  assert (Hn : length (concat blocks) = n).
  { rewrite (length_concat_uniform k) by done.
    by rewrite <- (Forall2_length _ _ _ Hblocks). }
  split_and!.
  - done.
  - by apply concat_lookup_uniform.
  - intros h b a Hb Ha. apply (gather_whole k blocks h b a); congruence.
  - by apply Print_vector_gathers.
Qed.

(** C4 on two processes holding [[1; 2]] and [[3; 4]]. *)
Lemma gather_concatenates_witness :
  let w := [Mpi.holding [1%float; 2%float] [5%float; 6%float];
            Mpi.holding [3%float; 4%float] [7%float; 8%float]] in
  ∃ w', Mpi.Print_vector Mpi.local_x 2 4 "x" w = Some w'
        ∧ Mpi.stdout <$> w'
          = [ [Mpi.Title "x"; Mpi.Number (Some 1%float); Mpi.Number (Some 2%float);
               Mpi.Number (Some 3%float); Mpi.Number (Some 4%float); Mpi.Newline];
              [] ]
        ∧ Mpi.mem <$> w' = Mpi.mem <$> w.
Proof.
  intros w.
  pose proof (proj2 (proj2 (proj2
    (gather_concatenates Mpi.local_x 2 "x"
       (Mpi.holding [1%float; 2%float] [5%float; 6%float])
       [Mpi.holding [3%float; 4%float] [7%float; 8%float]]
       [[Some 1%float; Some 2%float]; [Some 3%float; Some 4%float]]
       ltac:(repeat constructor) eq_refl ltac:(vm_compute; discriminate))))) as H.
  eexists. split; [exact H|]. split; reflexivity.
Defined.

(** * Reduction *)

Lemma total_app ps qs : total (ps ++ qs) = (total ps + total qs)%Z.
Proof. unfold total. induction ps as [|p ps IH]; simpl; lia. Qed.

Lemma total_nonneg ps : Forall (λ v, 0 ≤ v)%Z ps → (0 ≤ total ps)%Z.
Proof. unfold total. induction 1; simpl; lia. Qed.

Lemma total_Permutation ps qs : ps ≡ₚ qs → total ps = total qs.
Proof.
  unfold total. induction 1 as [|p ps qs _ IH|p q ps|ps qs rs _ IH1 _ IH2]; simpl; lia.
Qed.

Lemma lookups_seq (ps : list Z) :
  (λ r, default 0%Z (ps !! r)) <$> seq 0 (length ps) = ps.
Proof.
  apply list_eq. intros i. rewrite list_lookup_fmap.
  destruct (decide (i < length ps)%nat) as [Hi|Hi].
  - rewrite lookup_seq_lt by done. simpl.
    destruct (lookup_lt_is_Some_2 ps i Hi) as [v ->]. done.
  - rewrite lookup_seq_ge, lookup_ge_None_2 by lia. done.
Qed.

(** A schedule for [W] ranks finds every contribution. *)
Lemma combine_is_Some s (send : list float) :
  Mpi.schedule_for (length send) s → is_Some (Mpi.combine s send).
Proof.
  unfold Mpi.schedule_for. intros Hs.
  assert (Hr : ∀ r, r ∈ Mpi.ranks s → (r < length send)%nat).
  { intros r Hr. rewrite Hs in Hr. apply elem_of_seq in Hr. lia. }
  clear Hs. induction s as [r|a IHa b IHb]; simpl in *.
  - apply lookup_lt_is_Some_2, Hr, list_elem_of_singleton. done.
  - destruct IHa as [x ->]; [intros r ?; apply Hr, elem_of_app; auto|].
    destruct IHb as [y ->]; [intros r ?; apply Hr, elem_of_app; auto|].
    simpl. eauto.
Qed.

(** On non-negative integers whose sum stays below [2^53], every
    schedule adds up to the same double: the exact sum. *)
Lemma combine_integers s (ps : list Z) :
  Forall (λ v, 0 ≤ v)%Z ps →
  (∀ r, r ∈ Mpi.ranks s → (r < length ps)%nat) →
  (total ((λ r, default 0%Z (ps !! r)) <$> Mpi.ranks s) < 2 ^ 53)%Z →
  Mpi.combine s (double_of_int <$> ps)
  = Some (double_of_int (total ((λ r, default 0%Z (ps !! r)) <$> Mpi.ranks s))).
Proof.
  intros Hps. induction s as [r|a IHa b IHb]; simpl; intros Hr Hsum.
  - destruct (lookup_lt_is_Some_2 ps r) as [v Hv];
      [by apply Hr, list_elem_of_singleton|].
    rewrite list_lookup_fmap, Hv. simpl. do 2 f_equal. unfold total. simpl. lia.
  - rewrite fmap_app, total_app in *.
    assert (Hnn : ∀ t, (0 ≤ total ((λ r, default 0 (ps !! r)) <$> Mpi.ranks t))%Z).
    { intros t. apply total_nonneg, Forall_fmap, Forall_forall. intros r _. simpl.
      destruct (ps !! r) as [v|] eqn:Hv; simpl; [|lia].
      by apply (Forall_lookup_1 _ _ _ _ Hps Hv). }
    pose proof (Hnn a). pose proof (Hnn b).
    assert (Hra : ∀ r, r ∈ Mpi.ranks a → (r < length ps)%nat)
      by (intros r ?; apply Hr, elem_of_app; auto).
    assert (Hrb : ∀ r, r ∈ Mpi.ranks b → (r < length ps)%nat)
      by (intros r ?; apply Hr, elem_of_app; auto).
    rewrite (IHa Hra), (IHb Hrb) by lia. simpl.
    by rewrite double_of_int_add by lia.
Qed.

Lemma combine_integers_total s (ps : list Z) :
  Mpi.schedule_for (length ps) s →
  Forall (λ v, 0 ≤ v)%Z ps → (total ps < 2 ^ 53)%Z →
  Mpi.combine s (double_of_int <$> ps) = Some (double_of_int (total ps)).
Proof.
  unfold Mpi.schedule_for. intros Hs Hps Hsum.
  assert (Ht : total ((λ r, default 0%Z (ps !! r)) <$> Mpi.ranks s) = total ps).
  { transitivity (total ((λ r, default 0%Z (ps !! r)) <$> seq 0 (length ps)));
      [|by rewrite lookups_seq].
    apply total_Permutation. by rewrite Hs. }
  rewrite <- Ht. apply combine_integers; [done| |lia].
  intros r Hr. rewrite Hs in Hr. apply elem_of_seq in Hr. lia.
Qed.

Lemma int_dot_nonneg xs ys :
  Forall (λ v, 0 ≤ v)%Z xs → Forall (λ v, 0 ≤ v)%Z ys → (0 ≤ int_dot xs ys)%Z.
Proof.
  intros Hxs. revert ys. unfold int_dot, total.
  induction Hxs as [|x xs Hx _ IH]; intros ys Hys; [done|].
  destruct Hys as [|y ys Hy Hys]; [done|]. simpl. specialize (IH ys Hys). nia.
Qed.

Lemma int_dot_app xs xs' ys ys' :
  length xs = length ys →
  int_dot (xs ++ xs') (ys ++ ys') = (int_dot xs ys + int_dot xs' ys')%Z.
Proof. intros Hl. unfold int_dot. by rewrite zip_with_app, total_app. Qed.

Lemma Forall_weaken_nonneg (xs : list Z) :
  Forall (λ v, 0 ≤ v < 2 ^ 53)%Z xs → Forall (λ v, 0 ≤ v)%Z xs.
Proof. intros H. eapply Forall_impl; [done|]. simpl. lia. Qed.

(** The loop order never rounds on non-negative integers whose dot
    product stays below [2^53]. *)
Lemma foldl_dot_integers xs : ∀ ys acc,
  (0 ≤ acc)%Z →
  Forall (λ v, 0 ≤ v < 2 ^ 53)%Z xs → Forall (λ v, 0 ≤ v < 2 ^ 53)%Z ys →
  (acc + int_dot xs ys < 2 ^ 53)%Z →
  foldl (λ a xy, a + xy.1 * xy.2)%float (double_of_int acc)
        (zip (double_of_int <$> xs) (double_of_int <$> ys))
  = double_of_int (acc + int_dot xs ys).
Proof.
  induction xs as [|x xs IH]; intros ys acc Hacc Hxs Hys Hsum.
  { simpl. f_equal. unfold int_dot, total. simpl. lia. }
  destruct ys as [|y ys].
  { simpl. f_equal. unfold int_dot, total. simpl. lia. }
  apply Forall_cons in Hxs as [Hx Hxs]. apply Forall_cons in Hys as [Hy Hys].
  pose proof (int_dot_nonneg xs ys (Forall_weaken_nonneg _ Hxs) (Forall_weaken_nonneg _ Hys)).
  assert (Hcons : int_dot (x :: xs) (y :: ys) = (x * y + int_dot xs ys)%Z) by done.
  rewrite Hcons in *. simpl.
  rewrite double_of_int_mul, double_of_int_add by nia.
  rewrite IH by (done || nia). f_equal. lia.
Qed.

Lemma dot_integers xs ys :
  Forall (λ v, 0 ≤ v < 2 ^ 53)%Z xs → Forall (λ v, 0 ≤ v < 2 ^ 53)%Z ys →
  (int_dot xs ys < 2 ^ 53)%Z →
  dot (double_of_int <$> xs) (double_of_int <$> ys) = double_of_int (int_dot xs ys).
Proof.
  intros Hxs Hys Hsum. unfold dot.
  change 0%float with (double_of_int 0).
  by rewrite foldl_dot_integers.
Qed.

Lemma partial_dot_products local_n (w : list Mpi.proc) xys :
  Forall2 (Mpi.owns local_n) w xys →
  mapM (λ p, Mpi.local_dot_product (Mpi.local_x p) (Mpi.local_y p) local_n (Mpi.mem p)) w
  = Some ((λ xy, dot xy.1 xy.2) <$> xys).
Proof.
  intros Hw. apply mapM_Some_2, Forall2_fmap_r.
  eapply Forall2_impl; [done|]. intros p xy (Hlx & Hly & Hx & Hy). simpl.
  by apply local_dot_product_dot.
Qed.

Lemma reduce_at_root s send (t z : float) (m : nat) :
  Mpi.combine s send = Some t →
  Mpi.MPI_Reduce s send (replicate (S m) z) = Some (t :: replicate m z).
Proof.
  intros Ht. unfold Mpi.MPI_Reduce. rewrite Ht. simpl. do 2 f_equal.
  apply list_eq. intros i. rewrite list_lookup_imap.
  by destruct (replicate m z !! i).
Qed.

Lemma Parallel_dot_product_reduce s local_n p0 others xys t :
  Forall2 (Mpi.owns local_n) (p0 :: others) xys →
  Mpi.combine s ((λ xy, dot xy.1 xy.2) <$> xys) = Some t →
  Mpi.Parallel_dot_product s local_n (p0 :: others)
  = Some (t :: replicate (length others) 0%float).
Proof.
  intros Hw Ht. unfold Mpi.Parallel_dot_product.
  rewrite (partial_dot_products local_n _ xys Hw). simpl.
  by apply reduce_at_root.
Qed.

(** C8, what fails: [Parallel_dot_product] does not return the sum of
    the products of the blocks it is given.  On two processes whose
    loops add up to 17 and to 53 it returns 70 at rank 0 and 0 at
    rank 1; and at rank 0, on the same blocks, it returns 17 once the
    blocks of rank 1 have changed: what it returns is no function of
    the blocks it is given. *)
Lemma dot_product_is_the_total :
  let p0 := Mpi.holding [1%float; 2%float] [5%float; 6%float] in
  let p1 := Mpi.holding [3%float; 4%float] [7%float; 8%float] in
  let p1' := Mpi.holding [0%float; 0%float] [7%float; 8%float] in
  Mpi.local_dot_product (Mpi.local_x p0) (Mpi.local_y p0) 2 (Mpi.mem p0) = Some 17%float
  ∧ Mpi.local_dot_product (Mpi.local_x p1) (Mpi.local_y p1) 2 (Mpi.mem p1) = Some 53%float
  ∧ Mpi.Parallel_dot_product (Mpi.rank_order 2) 2 [p0; p1] = Some [70%float; 0%float]
  ∧ Mpi.Parallel_dot_product (Mpi.rank_order 2) 2 [p0; p1'] = Some [17%float; 0%float]
  ∧ 70%float ≠ 17%float ∧ 0%float ≠ 53%float.
Proof.
  intros p0 p1 p1'. split_and!; try (vm_compute; reflexivity).
  - intros H. apply (f_equal (λ v, PrimFloat.eqb v 17)) in H. vm_compute in H. discriminate.
  - intros H. apply (f_equal (λ v, PrimFloat.eqb v 53)) in H. vm_compute in H. discriminate.
Qed.

(** C8, as the code has it.  The loop of [Parallel_dot_product] adds
    up, at each process, the products [x[i] * y[i]] of its blocks on
    [0 <= i < local_n], in index order from [0.0].  What the function
    returns is the sum [MPI_Reduce] makes of the partial sums of all
    the processes, at rank 0, and [0.0] at every other rank: a
    function of the values in the blocks of all the processes and of
    the schedule of the reduction, the same wherever the blocks live
    and whatever else the memories hold.  [Parallel_scalar_multiplication]
    is such a function of the values of the two blocks it is given. *)
Theorem partial_dot_deterministic s local_n (p0 : Mpi.proc) (others : list Mpi.proc) xys :
  Mpi.schedule_for (length (p0 :: others)) s →
  Forall2 (Mpi.owns local_n) (p0 :: others) xys →
  (∀ p xy, Mpi.owns local_n p xy →
     Mpi.local_dot_product (Mpi.local_x p) (Mpi.local_y p) local_n (Mpi.mem p)
     = Some (dot xy.1 xy.2))
  ∧ (∃ sum,
       Mpi.combine s ((λ xy, dot xy.1 xy.2) <$> xys) = Some sum
       ∧ Mpi.Parallel_dot_product s local_n (p0 :: others)
         = Some (sum :: replicate (length others) 0%float))
  ∧ (∀ q0 qs, Forall2 (Mpi.owns local_n) (q0 :: qs) xys →
       Mpi.Parallel_dot_product s local_n (q0 :: qs)
       = Mpi.Parallel_dot_product s local_n (p0 :: others))
  ∧ (∀ sc p q xy,
       Mpi.owns local_n p xy → Mpi.owns local_n q xy →
       Mpi.local_x p ≠ Mpi.local_y p → Mpi.local_x q ≠ Mpi.local_y q →
       ∃ h1 h1',
         Mpi.Parallel_scalar_multiplication
           (Mpi.local_x p) (Mpi.local_y p) sc local_n (Mpi.mem p) = Some h1
         ∧ Mpi.Parallel_scalar_multiplication
             (Mpi.local_x q) (Mpi.local_y q) sc local_n (Mpi.mem q) = Some h1'
         ∧ ∀ i, (i < Z.to_nat local_n)%nat →
                is_Some (load h1 (Mpi.local_x p) i)
                ∧ is_Some (load h1 (Mpi.local_y p) i)
                ∧ load h1 (Mpi.local_x p) i = load h1' (Mpi.local_x q) i
                ∧ load h1 (Mpi.local_y p) i = load h1' (Mpi.local_y q) i).
Proof.
  intros Hs Hw.
  assert (Hlen : length xys = length (p0 :: others))
    by (symmetry; by eapply Forall2_length).
  destruct (combine_is_Some s ((λ xy, dot xy.1 xy.2) <$> xys)) as [sum Hsum].
  { by rewrite length_fmap, Hlen. }
  pose proof (Parallel_dot_product_reduce s local_n p0 others xys sum Hw Hsum) as Hrun.
  split_and!.
  - intros p xy (Hlx & Hly & Hx & Hy). by apply local_dot_product_dot.
  - by exists sum.
  - intros q0 qs Hq. rewrite Hrun.
    rewrite (Parallel_dot_product_reduce s local_n q0 qs xys sum Hq Hsum).
    apply Forall2_length in Hq. simpl in *. do 3 f_equal. lia.
  - intros sc p q xy (Hlx & Hly & Hx & Hy) (_ & _ & Hx' & Hy') Hxy Hxy'.
    destruct (scalar_multiplication_effect _ _ sc local_n _ xy.1 xy.2 Hxy Hlx Hly Hx Hy)
      as (h1 & Hrun1 & Hsx & Hsy & _).
    destruct (scalar_multiplication_effect _ _ sc local_n _ xy.1 xy.2 Hxy' Hlx Hly Hx' Hy')
      as (h1' & Hrun1' & Hsx' & Hsy' & _).
    exists h1, h1'. split_and!; [done..|]. intros i Hi.
    destruct (lookup_lt_is_Some_2 xy.1 i ltac:(lia)) as [xi Hxi].
    destruct (lookup_lt_is_Some_2 xy.2 i ltac:(lia)) as [yi Hyi].
    rewrite (Hsx i (xi * sc)%float), (Hsx' i (xi * sc)%float),
      (Hsy i (yi * sc)%float), (Hsy' i (yi * sc)%float)
      by (by rewrite list_lookup_fmap, ?Hxi, ?Hyi).
    eauto.
Qed.

(** C8 on two processes with the blocks [[1; 2]], [[5; 6]] and
    [[3; 4]], [[7; 8]]: the loops give 17 and 53, and the function
    returns 70 at rank 0 and 0 at rank 1. *)
Lemma partial_dot_deterministic_witness :
  let p0 := Mpi.holding [1%float; 2%float] [5%float; 6%float] in
  let p1 := Mpi.holding [3%float; 4%float] [7%float; 8%float] in
  Mpi.local_dot_product (Mpi.local_x p0) (Mpi.local_y p0) 2 (Mpi.mem p0) = Some 17%float
  ∧ Mpi.Parallel_dot_product (Mpi.rank_order 2) 2 [p0; p1] = Some [70%float; 0%float].
Proof.
  intros p0 p1.
  destruct (partial_dot_deterministic (Mpi.rank_order 2) 2 p0 [p1]
              [([1%float; 2%float], [5%float; 6%float]);
               ([3%float; 4%float], [7%float; 8%float])]
              (Permutation_refl _)
              ltac:(constructor;
                    [exact (holding_owns [1%float; 2%float] [5%float; 6%float] eq_refl)|];
                    constructor;
                    [exact (holding_owns [3%float; 4%float] [7%float; 8%float] eq_refl)|];
                    constructor))
    as (Hloop & (sum & Hsum & Hrun) & _).
  split.
  - exact (Hloop p0 ([1%float; 2%float], [5%float; 6%float])
             (holding_owns [1%float; 2%float] [5%float; 6%float] eq_refl)).
  - injection Hsum as <-. exact Hrun.
Defined.

(** C5, what fails: the order of the additions can change the double
    rank 0 receives.  Two schedules over the same three partial values
    [1e16], [1] and [-1e16] return [0] and [1]. *)
Lemma reduction_order_matters :
  let w := [Mpi.holding [1e16%float] [1%float];
            Mpi.holding [1%float] [1%float];
            Mpi.holding [(-1e16)%float] [1%float]] in
  let s := Mpi.Combine (Mpi.Combine (Mpi.Contribution 0) (Mpi.Contribution 2))
                       (Mpi.Contribution 1) in
  Mpi.schedule_for 3 (Mpi.rank_order 3) ∧ Mpi.schedule_for 3 s
  ∧ Mpi.Parallel_dot_product (Mpi.rank_order 3) 1 w = Some [0%float; 0%float; 0%float]
  ∧ Mpi.Parallel_dot_product s 1 w = Some [1%float; 0%float; 0%float]
  ∧ 0%float ≠ 1%float.
Proof.
  intros w s. split_and!.
  - unfold Mpi.schedule_for. simpl. done.
  - unfold Mpi.schedule_for. simpl. constructor. apply perm_swap.
  - vm_compute. reflexivity.
  - vm_compute. reflexivity.
  - exact float_0_neq_1.
Qed.

(** C5, as the code has it: rank 0 receives the partial values added
    up along the schedule of the library, and every other rank returns
    the [0.0] its receive variable was initialised with.  The order of
    the additions does not matter when none of them rounds: on partial
    values that are non-negative integers with a sum below [2^53] every
    schedule returns the exact sum. *)
Theorem reduction_at_root s local_n (p0 : Mpi.proc) (others : list Mpi.proc) xys :
  Mpi.schedule_for (length (p0 :: others)) s →
  Forall2 (Mpi.owns local_n) (p0 :: others) xys →
  ∃ sum,
    Mpi.combine s ((λ xy, dot xy.1 xy.2) <$> xys) = Some sum
    ∧ Mpi.Parallel_dot_product s local_n (p0 :: others)
      = Some (sum :: replicate (length others) 0%float)
    ∧ (∀ ps : list Z,
         (λ xy, dot xy.1 xy.2) <$> xys = double_of_int <$> ps →
         Forall (λ v, 0 ≤ v)%Z ps → (total ps < 2 ^ 53)%Z →
         sum = double_of_int (total ps)
         ∧ ∀ s', Mpi.schedule_for (length (p0 :: others)) s' →
                 Mpi.Parallel_dot_product s' local_n (p0 :: others)
                 = Mpi.Parallel_dot_product s local_n (p0 :: others)).
Proof.
  intros Hs Hw.
  assert (Hlen : length ((λ xy, dot xy.1 xy.2) <$> xys) = length (p0 :: others)).
  { rewrite length_fmap. symmetry. by eapply Forall2_length. }
  destruct (combine_is_Some s ((λ xy, dot xy.1 xy.2) <$> xys)) as [sum Hsum];
    [by rewrite Hlen|].
  exists sum. split_and!; [done|by eapply Parallel_dot_product_reduce|].
  intros ps Hps Hnn Hbound. rewrite Hps in Hsum, Hlen. rewrite length_fmap in Hlen.
  split.
  - rewrite combine_integers_total in Hsum by (by rewrite ?Hlen). congruence.
  - intros s' Hs'.
    rewrite (Parallel_dot_product_reduce s' local_n p0 others xys (double_of_int (total ps))),
      (Parallel_dot_product_reduce s local_n p0 others xys (double_of_int (total ps)));
      rewrite ?Hps; try done; apply combine_integers_total; by rewrite ?Hlen.
Qed.

(** C5 on two processes: the partial values 17 and 53 sum to 70 in
    either order. *)
Lemma reduction_at_root_witness :
  let w := [Mpi.holding [1%float; 2%float] [5%float; 6%float];
            Mpi.holding [3%float; 4%float] [7%float; 8%float]] in
  Mpi.Parallel_dot_product (Mpi.rank_order 2) 2 w = Some [70%float; 0%float]
  ∧ ∀ s', Mpi.schedule_for 2 s' →
          Mpi.Parallel_dot_product s' 2 w = Mpi.Parallel_dot_product (Mpi.rank_order 2) 2 w.
Proof.
  intros w.
  destruct (reduction_at_root (Mpi.rank_order 2) 2
              (Mpi.holding [1%float; 2%float] [5%float; 6%float])
              [Mpi.holding [3%float; 4%float] [7%float; 8%float]]
              [([1%float; 2%float], [5%float; 6%float]);
               ([3%float; 4%float], [7%float; 8%float])]
              (Permutation_refl _)
              ltac:(constructor;
                    [exact (holding_owns [1%float; 2%float] [5%float; 6%float] eq_refl)|];
                    constructor;
                    [exact (holding_owns [3%float; 4%float] [7%float; 8%float] eq_refl)|];
                    constructor))
    as (sum & Hc & Hp & Hexact).
  destruct (Hexact [17%Z; 53%Z] eq_refl ltac:(repeat constructor; lia) eq_refl)
    as [-> Hany].
  split; [exact Hp|exact Hany].
Defined.

Lemma total_elem_le ps v :
  Forall (λ v, 0 ≤ v)%Z ps → v ∈ ps → (v ≤ total ps)%Z.
Proof.
  unfold total. induction 1 as [|p ps Hp Hps IH]; intros Hv; [by apply elem_of_nil in Hv|].
  pose proof (total_nonneg ps Hps) as Hnn. unfold total in Hnn.
  apply elem_of_cons in Hv as [->|Hv]; simpl; [lia|]. specialize (IH Hv). lia.
Qed.

Lemma int_dot_concat (blocks : list (list Z * list Z)) :
  Forall (λ xy, length xy.1 = length xy.2) blocks →
  int_dot (concat (fst <$> blocks)) (concat (snd <$> blocks))
  = total ((λ xy, int_dot xy.1 xy.2) <$> blocks).
Proof.
  induction 1 as [|xy blocks Hxy _ IH]; [done|].
  rewrite !fmap_cons. cbn [concat]. rewrite int_dot_app, IH by done. done.
Qed.

Lemma Forall_concat_blocks {A} (P : A → Prop) (ls : list (list A)) :
  Forall (Forall P) ls → Forall P (concat ls).
Proof. induction 1; simpl; [done|]. by apply Forall_app. Qed.

(** * Sums of one sign: how far rounding takes them *)

(** ** Rounding to nearest, from [SpecFloat] *)

Section Rounding.
Open Scope Z_scope.

Lemma shifted_shr_1 m0 k mrs : shifted m0 k mrs → shifted m0 (S k) (shr_1 mrs).
Proof.
  intros (rem & Hq & Hm & Hrem & Hloc). destruct mrs as [q r s]. unfold shifted.
  cbn [shr_m shr_r shr_s] in *.
  rewrite Nat2Z.inj_succ, Z.pow_succ_r by lia.
  assert (Hp : 0 < 2 ^ Z.of_nat k) by (apply Z.pow_pos_nonneg; lia).
  destruct q as [|[p|p|]|p]; try lia; cbn [shr_1 shr_m shr_r shr_s].
  - exists rem. destruct r, s; simpl; lia.
  - exists (2 ^ Z.of_nat k + rem). rewrite Pos2Z.inj_xI in Hm. destruct r, s; simpl; lia.
  - exists rem. rewrite Pos2Z.inj_xO in Hm. destruct r, s; simpl; lia.
  - exists (2 ^ Z.of_nat k + rem). destruct r, s; simpl; lia.
Qed.

Lemma shifted_iter m0 k :
  0 ≤ m0 → shifted m0 k (Nat.iter k shr_1 (Build_shr_record m0 false false)).
Proof.
  intros Hm. induction k as [|k IH].
  - exists 0. change (Nat.iter 0 shr_1 ?x) with x. cbn [shr_m shr_r shr_s].
    change (Z.of_nat 0) with 0. rewrite Z.pow_0_r. lia.
  - rewrite Nat.iter_succ. by apply shifted_shr_1.
Qed.

(** Rounding to nearest after the shift: at most half a unit away. *)
Lemma round_shifted m0 k mrs :
  shifted m0 k mrs →
  let m' := round_nearest_even (shr_m mrs) (loc_of_shr_record mrs) in
  shr_m mrs ≤ m' ≤ shr_m mrs + 1
  ∧ 2 * Z.abs (m' * 2 ^ Z.of_nat k - m0) ≤ 2 ^ Z.of_nat k.
Proof.
  intros (rem & Hq & Hm & Hrem & Hloc). destruct mrs as [q r s].
  cbn [shr_m shr_r shr_s] in *.
  assert (Hp : 0 < 2 ^ Z.of_nat k) by (apply Z.pow_pos_nonneg; lia).
  destruct r, s; cbn [loc_of_shr_record round_nearest_even];
    try destruct (Z.even q); lia.
Qed.

Lemma shr_fexp_none m e :
  fexp prec emax (Zdigits2 m + e) - e ≤ 0 →
  shr_fexp prec emax m e loc_Exact = (Build_shr_record m false false, e).
Proof.
  intros H. unfold shr_fexp, shr. cbn [shr_record_of_loc].
  destruct (fexp prec emax (Zdigits2 m + e) - e); [done|lia|done].
Qed.

Lemma shr_fexp_some m e (n : nat) :
  fexp prec emax (Zdigits2 m + e) - e = Z.of_nat (S n) →
  shr_fexp prec emax m e loc_Exact
  = (Nat.iter (S n) shr_1 (Build_shr_record m false false), e + Z.of_nat (S n)).
Proof.
  intros H. unfold shr_fexp. rewrite H. cbn [shr_record_of_loc]. unfold shr.
  change (Z.of_nat (S n)) with (Zpos (Pos.of_succ_nat n)). cbv iota beta.
  by rewrite iter_pos_nat, SuccNat2Pos.id_succ.
Qed.

Lemma digits2_bounds p : 2 ^ (Zpos (digits2_pos p) - 1) ≤ Zpos p < 2 ^ Zpos (digits2_pos p).
Proof.
  rewrite digits2_log2. replace (Z.log2 (Z.pos p) + 1 - 1) with (Z.log2 (Zpos p)) by lia.
  apply Z.log2_spec. lia.
Qed.

Lemma digits2_unique p d : 2 ^ (d - 1) ≤ Zpos p < 2 ^ d → Zpos (digits2_pos p) = d.
Proof.
  intros H. rewrite digits2_log2.
  assert (0 ≤ d - 1).
  { destruct (Z.le_gt_cases 0 (d - 1)); [done|]. destruct H as [_ H].
    assert (2 ^ d ≤ 2 ^ 0) by (apply Z.pow_le_mono_r; lia). simpl in *. lia. }
  rewrite (Z.log2_unique (Zpos p) (d - 1)); [lia|lia|].
  by replace (Z.succ (d - 1)) with d by lia.
Qed.

(** A significand longer than 53 bits is rounded to nearest: with
    [S n] bits to drop, the result is within half of [2^(S n)] of it. *)
Lemma binary_round_aux_nearest sx (m : positive) e (n : nat) :
  Zpos (digits2_pos m) = 53 + Z.of_nat (S n) →
  -1074 ≤ e → e + Z.of_nat (S n) + 1 ≤ 971 →
  ∃ m' e',
    binary_round_aux prec emax sx (Zpos m) e loc_Exact = S754_finite sx m' e'
    ∧ e ≤ e'
    ∧ 2 * Z.abs (Zpos m' * 2 ^ (e' - e) - Zpos m) ≤ 2 ^ Z.of_nat (S n).
Proof.
  intros Hd He Hmax. unfold binary_round_aux.
  rewrite (shr_fexp_some _ _ n)
    by (cbn [Zdigits2]; rewrite Hd; unfold fexp, SpecFloat.emin, prec, emax; lia).
  pose proof (shifted_iter (Zpos m) (S n) ltac:(lia)) as Hsh.
  set (mrs := Nat.iter (S n) shr_1 _) in *.
  pose proof (round_shifted _ _ _ Hsh) as (Hq & Hnear).
  destruct Hsh as (rem & Hq0 & Hm & Hrem & _).
  pose proof (digits2_bounds m) as Hb. rewrite Hd in Hb.
  replace (53 + Z.of_nat (S n) - 1) with (52 + Z.of_nat (S n)) in Hb by lia.
  rewrite !Z.pow_add_r in Hb by lia.
  assert (Hp : 0 < 2 ^ Z.of_nat (S n)) by (apply Z.pow_pos_nonneg; lia).
  assert (Hq52 : 2 ^ 52 ≤ shr_m mrs < 2 ^ 53) by nia.
  set (m' := round_nearest_even (shr_m mrs) (loc_of_shr_record mrs)) in *.
  destruct m' as [|pm|pm] eqn:Hm'; try lia.
  destruct (decide (Zpos pm = 2 ^ 53)) as [Heq|Hne].
  - (* the carry: one more bit to drop, a zero *)
    rewrite (shr_fexp_some _ _ 0).
    2: { cbn [Zdigits2]. rewrite (digits2_unique pm 54) by (rewrite Heq; simpl; lia).
         unfold fexp, SpecFloat.emin, prec, emax. lia. }
    assert (pm = 9007199254740992%positive) as -> by (apply Pos2Z.inj; rewrite Heq; done).
    cbn [Nat.iter shr_1 shr_m].
    destruct (Z.leb_spec (e + Z.of_nat (S n) + Z.of_nat 1) (emax - prec));
      [|unfold emax, prec in *; lia].
    eexists _, _. split; [done|]. split; [lia|].
    replace (e + Z.of_nat (S n) + Z.of_nat 1 - e) with (Z.of_nat (S n) + 1) by lia.
    rewrite Z.pow_add_r by lia. rewrite Heq in Hnear. simpl in Hnear |- *. lia.
  - rewrite shr_fexp_none.
    2: { cbn [Zdigits2]. rewrite (digits2_unique pm 53) by (simpl; lia).
         unfold fexp, SpecFloat.emin, prec, emax. lia. }
    cbn [shr_m].
    destruct (Z.leb_spec (e + Z.of_nat (S n)) (emax - prec));
      [|unfold emax, prec in *; lia].
    eexists _, _. split; [done|]. split; [lia|].
    by replace (e + Z.of_nat (S n) - e) with (Z.of_nat (S n)) by lia.
Qed.

(** A significand in canonical form is left as it is. *)
Lemma binary_round_aux_canonical sx (m : positive) e :
  fexp prec emax (Zpos (digits2_pos m) + e) = e → e ≤ 971 →
  binary_round_aux prec emax sx (Zpos m) e loc_Exact = S754_finite sx m e.
Proof.
  intros Hc He. unfold binary_round_aux.
  rewrite shr_fexp_none by (cbn [Zdigits2]; lia).
  cbn [shr_m loc_of_shr_record round_nearest_even].
  rewrite shr_fexp_none by (cbn [Zdigits2]; lia). cbn [shr_m].
  by destruct (Z.leb_spec e (emax - prec)); [|unfold emax, prec in *; lia].
Qed.

(** Rounding [m * 2^e], a whole number of units of [2^-1074] that does
    not overflow: the result is finite and within [2^-53] of it,
    relatively.  Values are in units of [2^-1074]. *)
Lemma binary_round_nearest sx (m : positive) e :
  -1074 ≤ e → Zpos (digits2_pos m) + e ≤ 1023 →
  ∃ m' e',
    binary_round prec emax sx m e = S754_finite sx m' e'
    ∧ -1074 ≤ e'
    ∧ 2 ^ 53 * Z.abs (Zpos m' * 2 ^ (e' + 1074) - Zpos m * 2 ^ (e + 1074))
      ≤ Zpos m * 2 ^ (e + 1074).
Proof.
  intros He Hmax. unfold binary_round.
  set (d := Zpos (digits2_pos m)) in *.
  assert (Hpos : 0 < 2 ^ (e + 1074)) by (apply Z.pow_pos_nonneg; lia).
  destruct (Z_le_gt_dec d 53) as [Hd|Hd].
  - (* at most 53 bits: aligned to the canonical exponent, exactly *)
    set (t := fexp prec emax (d + e)).
    assert (Ht : t = Z.max (d + e - 53) (-1074)) by done.
    assert (Hte : -1074 ≤ t ≤ e) by lia.
    destruct (shl_align m e t) as [mz ez] eqn:Hal.
    assert (Hmz : Zpos mz = Zpos m * 2 ^ (e - t) ∧ ez = t).
    { pose proof (shl_align_fst m e t ltac:(lia)) as Hf. rewrite Hal in Hf. simpl in Hf.
      split; [done|]. unfold shl_align in Hal.
      destruct (t - e) as [|k|k] eqn:Hk; injection Hal as <- <-; lia. }
    destruct Hmz as [Hmz ->].
    rewrite binary_round_aux_canonical.
    + exists mz, t. split; [done|]. split; [lia|].
      rewrite Hmz, <- Z.mul_assoc, <- Z.pow_add_r by lia.
      replace (e - t + (t + 1074)) with (e + 1074) by lia.
      rewrite Z.sub_diag. simpl. nia.
    + rewrite digits2_log2, Hmz, Z.log2_mul_pow2 by lia. fold t in Ht.
      pose proof (digits2_log2 m) as Hl. fold d in Hl.
      unfold fexp, SpecFloat.emin, prec, emax. lia.
    + lia.
  - (* more than 53 bits: rounded *)
    assert (Hal : shl_align m e (fexp prec emax (d + e)) = (m, e)).
    { unfold shl_align.
      assert (fexp prec emax (d + e) - e = d - 53)
        by (unfold fexp, SpecFloat.emin, prec, emax; lia).
      destruct (fexp prec emax (d + e) - e) eqn:Hk; [done|done|lia]. }
    rewrite Hal.
    destruct (binary_round_aux_nearest sx m e (Z.to_nat (d - 53) - 1))
      as (m' & e' & -> & Hee & Hnear).
    { fold d. lia. } { lia. } { lia. }
    exists m', e'. split; [done|]. split; [lia|].
    replace (Z.of_nat (S (Z.to_nat (d - 53) - 1))) with (d - 53) in Hnear by lia.
    pose proof (digits2_bounds m) as Hb. fold d in Hb.
    replace (d - 1) with (53 + (d - 53 - 1)) in Hb by lia.
    replace (e' + 1074) with (e' - e + (e + 1074)) by lia.
    rewrite Z.pow_add_r, Z.mul_assoc, <- Z.mul_sub_distr_r by lia.
    rewrite Z.abs_mul, (Z.abs_eq (2 ^ (e + 1074))) by lia.
    assert (H2 : 2 ^ (d - 53) = 2 * 2 ^ (d - 53 - 1)).
    { rewrite <- Z.pow_succ_r by lia. f_equal. lia. }
    rewrite Z.pow_add_r in Hb by lia.
    assert (0 < 2 ^ (d - 53 - 1)) by (apply Z.pow_pos_nonneg; lia).
    assert (2 ^ 53 * Z.abs (Z.pos m' * 2 ^ (e' - e) - Z.pos m) ≤ Zpos m) by nia.
    nia.
Qed.

End Rounding.

(** ** Additions that neither cancel nor overflow *)

Section Sums.
Open Scope Z_scope.

Lemma Prim2SF_finite_valid x s m e :
  Prim2SF x = S754_finite s m e → -1074 ≤ e ≤ 971 ∧ Zpos (digits2_pos m) ≤ 53.
Proof.
  intros Hx. pose proof (Prim2SF_valid x) as Hv. rewrite Hx in Hv.
  unfold valid_binary, bounded, canonical_mantissa in Hv.
  apply andb_prop in Hv as [Hc He]. apply Z.eqb_eq in Hc. apply Z.leb_le in He.
  unfold fexp, SpecFloat.emin, prec, emax in *. lia.
Qed.

Lemma magnitude_nonneg x : 0 ≤ magnitude x.
Proof.
  unfold magnitude. destruct (Prim2SF x) as [| | |s m e]; lia.
Qed.

(** The sum of two doubles of the same sign that does not overflow is
    of that sign, and within [2^-53] of the exact sum, relatively. *)
Lemma add_nearest sg (a b : float) :
  of_sign sg a → of_sign sg b → magnitude a + magnitude b ≤ 2 ^ 2090 →
  of_sign sg (a + b)
  ∧ 2 ^ 53 * Z.abs (magnitude (a + b) - (magnitude a + magnitude b))
    ≤ magnitude a + magnitude b.
Proof.
  unfold of_sign, magnitude. rewrite FloatAxioms.add_spec.
  destruct (Prim2SF a) as [sa| | |sa ma ea] eqn:Ha; try done;
    destruct (Prim2SF b) as [sb| | |sb mb eb] eqn:Hb; try done; intros Hsa Hsb Hsum.
  - unfold SF64add, SFadd. destruct sa, sb; simpl; lia.
  - subst sb. unfold SF64add, SFadd. cbv iota.
    destruct (Prim2SF_finite_valid _ _ _ _ Hb).
    assert (0 < 2 ^ (eb + 1074)) by (apply Z.pow_pos_nonneg; lia).
    split; [done|]. rewrite Z.add_0_l, Z.sub_diag. simpl. lia.
  - subst sa. unfold SF64add, SFadd. cbv iota.
    destruct (Prim2SF_finite_valid _ _ _ _ Ha).
    assert (0 < 2 ^ (ea + 1074)) by (apply Z.pow_pos_nonneg; lia).
    split; [done|]. rewrite Z.add_0_r, Z.sub_diag. simpl. lia.
  - subst sa sb. unfold SF64add, SFadd. cbv zeta iota.
    destruct (Prim2SF_finite_valid _ _ _ _ Ha) as [Hea Hda].
    destruct (Prim2SF_finite_valid _ _ _ _ Hb) as [Heb Hdb].
    set (ez := Z.min ea eb).
    pose proof (shl_align_fst ma ea ez ltac:(lia)) as Hma.
    pose proof (shl_align_fst mb eb ez ltac:(lia)) as Hmb.
    set (ma' := fst (shl_align ma ea ez)) in *.
    set (mb' := fst (shl_align mb eb ez)) in *.
    assert (Hexact : Zpos (ma' + mb') * 2 ^ (ez + 1074)
                     = Zpos ma * 2 ^ (ea + 1074) + Zpos mb * 2 ^ (eb + 1074)).
    { rewrite Pos2Z.inj_add, Z.mul_add_distr_r, Hma, Hmb.
      rewrite <- !Z.mul_assoc, <- !Z.pow_add_r by lia.
      by replace (ea - ez + (ez + 1074)) with (ea + 1074) by lia;
         replace (eb - ez + (ez + 1074)) with (eb + 1074) by lia. }
    assert (Hnorm : binary_normalize prec emax
                      (cond_Zopp sg (Zpos ma') + cond_Zopp sg (Zpos mb')) ez false
                    = binary_round prec emax sg (ma' + mb') ez).
    { by destruct sg. }
    rewrite Hnorm.
    destruct (binary_round_nearest sg (ma' + mb') ez) as (m' & e' & -> & He' & Hnear).
    { lia. }
    { pose proof (digits2_bounds (ma' + mb')) as Hd.
      assert (0 < 2 ^ (ez + 1074)) by (apply Z.pow_pos_nonneg; lia).
      assert (Hle : 2 ^ (Zpos (digits2_pos (ma' + mb')) - 1 + (ez + 1074)) ≤ 2 ^ 2090).
      { rewrite Z.pow_add_r by lia. nia. }
      apply Z.pow_le_mono_r_iff in Hle; lia. }
    split; [done|]. by rewrite <- Hexact.
Qed.


Lemma approximates_mono sg c c' a S :
  approximates sg c a S → c ≤ c' → approximates sg c' a S.
Proof. intros (Hs & HS & Ha) Hc. split_and!; [done..|]. nia. Qed.

Lemma approximates_magnitude sg c a S :
  approximates sg c a S → c ≤ 2 ^ 52 → magnitude a ≤ 2 * S.
Proof. intros (_ & HS & Ha) Hc. nia. Qed.

Lemma approximates_add sg c a b S1 S2 :
  approximates sg c a S1 → approximates sg c b S2 →
  0 ≤ c ≤ 2 ^ 52 → S1 + S2 ≤ 2 ^ 2088 →
  approximates sg (c + 1) (a + b) (S1 + S2).
Proof.
  intros Ha Hb Hc Hsum.
  pose proof (approximates_magnitude _ _ _ _ Ha ltac:(lia)) as Hma.
  pose proof (approximates_magnitude _ _ _ _ Hb ltac:(lia)) as Hmb.
  destruct Ha as (Hsa & HS1 & Ha), Hb as (Hsb & HS2 & Hb).
  destruct (add_nearest sg a b Hsa Hsb) as [Hs Hr].
  { change (2 ^ 2090) with (4 * 2 ^ 2088). lia. }
  split_and!; [done|lia|].
  pose proof (magnitude_nonneg a). pose proof (magnitude_nonneg b).
  set (A := magnitude a) in *. set (B := magnitude b) in *.
  set (R := magnitude (a + b)) in *.
  rewrite Z.mul_add_distr_r, Z.mul_1_l, Z.mul_add_distr_l.
  lia.
Qed.

Lemma summable_approximates sg t :
  summable sg t = true → approximates sg 0 t (magnitude t) ∧ magnitude t ≤ 2 ^ 2065.
Proof.
  unfold summable, approximates, of_sign, magnitude.
  destruct (Prim2SF t) as [s| | |s m e] eqn:Ht; try done; intros Hsum.
  apply andb_prop in Hsum as [Hs He]. apply Bool.eqb_prop in Hs. apply Z.leb_le in He.
  destruct (Prim2SF_finite_valid _ _ _ _ Ht) as [He' Hd].
  pose proof (digits2_bounds m) as [_ Hm].
  assert (Hm' : Zpos m < 2 ^ 53).
  { eapply Z.lt_le_trans; [exact Hm|]. apply Z.pow_le_mono_r; lia. }
  assert (Hp : 0 < 2 ^ (e + 1074) ≤ 2 ^ 2012).
  { split; [apply Z.pow_pos_nonneg; lia|apply Z.pow_le_mono_r; lia]. }
  split_and!; [done|lia|rewrite Z.sub_diag; simpl; lia|].
  change (2 ^ 2065) with (2 ^ 53 * 2 ^ 2012). nia.
Qed.

Lemma total_cons p ps : total (p :: ps) = p + total ps.
Proof. done. Qed.

Lemma total_magnitudes ts :
  0 ≤ total (magnitude <$> ts).
Proof.
  apply total_nonneg, Forall_fmap, Forall_forall. intros t _. apply magnitude_nonneg.
Qed.

Lemma total_summable sg ts :
  Forall (λ t, summable sg t = true) ts →
  total (magnitude <$> ts) ≤ Z.of_nat (length ts) * 2 ^ 2065.
Proof.
  induction 1 as [|t ts Ht _ IH]; [done|].
  destruct (summable_approximates sg t Ht) as [_ Hm].
  rewrite fmap_cons, total_cons.
  cbn [length]. lia.
Qed.

Lemma foldl_add_approximates sg ts :
  Forall (λ t, summable sg t = true) ts →
  ∀ c a S, approximates sg c a S → 0 ≤ c → c + Z.of_nat (length ts) ≤ 2 ^ 52 →
    S + total (magnitude <$> ts) ≤ 2 ^ 2088 →
    approximates sg (c + Z.of_nat (length ts)) (foldl PrimFloat.add a ts)
                 (S + total (magnitude <$> ts)).
Proof.
  induction 1 as [|t ts Ht Hts IH]; intros c a S Ha Hc Hlen Hsum.
  - simpl. unfold total. simpl. by rewrite !Z.add_0_r.
  - rewrite fmap_cons, total_cons in *.
    cbn [length foldl] in *.
    pose proof (total_magnitudes ts).
    destruct (summable_approximates sg t Ht) as [Hat _].
    replace (c + Z.of_nat (Datatypes.S (length ts))) with (c + 1 + Z.of_nat (length ts)) by lia.
    rewrite Z.add_assoc. apply IH; [|lia..].
    apply approximates_add; [done| |lia|lia].
    apply (approximates_mono sg 0); [done|lia].
Qed.

Lemma approximates_zero sg : approximates sg 0 0%float 0.
Proof. by split_and!. Qed.

Lemma dot_foldl_add xs ys :
  dot xs ys = foldl PrimFloat.add 0%float (zip_with PrimFloat.mul xs ys).
Proof.
  unfold dot. generalize 0%float. revert ys.
  induction xs as [|x xs IH]; intros [|y ys] a; try done. simpl. apply IH.
Qed.

(** The loop of the dot product, on products of one sign that do not
    overflow: the sum it makes is within [n * 2^-52] of the exact sum
    of the products, relatively. *)
Lemma dot_approximates sg xs ys :
  Forall (λ t, summable sg t = true) (zip_with PrimFloat.mul xs ys) →
  Z.of_nat (length (zip_with PrimFloat.mul xs ys)) ≤ 2 ^ 23 →
  approximates sg (Z.of_nat (length (zip_with PrimFloat.mul xs ys))) (dot xs ys)
               (total (magnitude <$> zip_with PrimFloat.mul xs ys)).
Proof.
  intros Hts Hlen. rewrite dot_foldl_add.
  pose proof (total_summable sg _ Hts) as Hsum.
  apply (foldl_add_approximates sg _ Hts 0 0%float 0 (approximates_zero sg)); [lia|lia|].
  change (2 ^ 2088) with (2 ^ 23 * 2 ^ 2065). nia.
Qed.

(** The reduction, on contributions of one sign: along any schedule,
    what it produces is within [(c + leaves) * 2^-52] of the exact sum
    of what the contributions approximate within [c * 2^-52]. *)
Lemma combine_approximates sg c s (parts : list float) (sums : list Z) :
  Forall2 (approximates sg c) parts sums →
  (∀ r, r ∈ Mpi.ranks s → (r < length parts)%nat) →
  0 ≤ c → c + Z.of_nat (length (Mpi.ranks s)) ≤ 2 ^ 52 →
  total ((λ r, default 0 (sums !! r)) <$> Mpi.ranks s) ≤ 2 ^ 2088 →
  ∃ t, Mpi.combine s parts = Some t
       ∧ approximates sg (c + Z.of_nat (length (Mpi.ranks s))) t
                      (total ((λ r, default 0 (sums !! r)) <$> Mpi.ranks s)).
Proof.
  intros Hps. induction s as [r|a IHa b IHb]; simpl; intros Hr Hc Hlen Hsum.
  - destruct (lookup_lt_is_Some_2 parts r) as [v Hv];
      [by apply Hr, list_elem_of_singleton|].
    destruct (Forall2_lookup_l _ _ _ _ _ Hps Hv) as (S & HS & Hv').
    exists v. split; [done|]. rewrite HS. unfold total. simpl. rewrite Z.add_0_r.
    apply (approximates_mono sg c); [done|lia].
  - rewrite fmap_app, total_app, length_app, Nat2Z.inj_add in *.
    assert (Hnn : ∀ t, 0 ≤ total ((λ r, default 0 (sums !! r)) <$> Mpi.ranks t)).
    { intros t. apply total_nonneg, Forall_fmap, Forall_forall. intros r _. simpl.
      destruct (sums !! r) as [v|] eqn:Hv; simpl; [|lia].
      destruct (Forall2_lookup_r _ _ _ _ _ Hps Hv) as (? & _ & _ & ? & _). done. }
    pose proof (Hnn a). pose proof (Hnn b).
    assert (Hpos : ∀ t, 1 ≤ Z.of_nat (length (Mpi.ranks t))).
    { intros t. induction t; simpl; [lia|]. rewrite length_app. lia. }
    pose proof (Hpos a). pose proof (Hpos b).
    destruct IHa as (x & -> & Hx);
      [by (intros r ?; apply Hr, elem_of_app; auto)|lia..|].
    destruct IHb as (y & -> & Hy);
      [by (intros r ?; apply Hr, elem_of_app; auto)|lia..|].
    simpl. eexists. split; [done|].
    set (la := Z.of_nat (length (Mpi.ranks a))) in *.
    set (lb := Z.of_nat (length (Mpi.ranks b))) in *.
    apply (approximates_mono sg (c + (la + lb - 1) + 1)); [|lia].
    apply approximates_add; [| |lia|lia].
    + apply (approximates_mono sg (c + la)); [done|lia].
    + apply (approximates_mono sg (c + lb)); [done|lia].
Qed.

Lemma combine_approximates_total sg c s (parts : list float) (sums : list Z) :
  Mpi.schedule_for (length parts) s →
  Forall2 (approximates sg c) parts sums →
  0 ≤ c → c + Z.of_nat (length parts) ≤ 2 ^ 52 →
  total sums ≤ 2 ^ 2088 →
  ∃ t, Mpi.combine s parts = Some t
       ∧ approximates sg (c + Z.of_nat (length parts)) t (total sums).
Proof.
  unfold Mpi.schedule_for. intros Hs Hps Hc Hlen Hsum.
  pose proof (Forall2_length _ _ _ Hps) as Hl.
  assert (Ht : total ((λ r, default 0%Z (sums !! r)) <$> Mpi.ranks s) = total sums).
  { transitivity (total ((λ r, default 0%Z (sums !! r)) <$> seq 0 (length sums)));
      [|by rewrite lookups_seq].
    apply total_Permutation. by rewrite Hs, Hl. }
  assert (Hn : length (Mpi.ranks s) = length parts).
  { by rewrite Hs, length_seq. }
  rewrite <- Ht, <- Hn. apply combine_approximates; [done| |done|lia|lia].
  intros r Hr. rewrite Hs in Hr. apply elem_of_seq in Hr. lia.
Qed.


Lemma of_sign_scaled sg a :
  of_sign sg a →
  finite a = true ∧ scaled a = if sg then - magnitude a else magnitude a.
Proof.
  unfold of_sign, finite, scaled, magnitude.
  destruct (Prim2SF a) as [s| | |s m e]; try done; intros Hs.
  - by destruct sg.
  - subst s. by destruct sg.
Qed.

(** Two doubles that approximate the same exact sum within
    [cP * 2^-52] and [cQ * 2^-52] are within [1e-9] of each other. *)
Lemma approximates_close_to sg cP cQ P Q S :
  approximates sg cP P S → approximates sg cQ Q S →
  0 ≤ cP → 0 ≤ cQ → 10 ^ 9 * (cP + cQ) + cQ < 2 ^ 52 →
  close_to P Q = true.
Proof.
  intros (HsP & HS & HP) (HsQ & _ & HQ) HcP HcQ Hc. unfold close_to.
  destruct (of_sign_scaled sg P HsP) as [-> ->], (of_sign_scaled sg Q HsQ) as [-> ->].
  pose proof (magnitude_nonneg P). pose proof (magnitude_nonneg Q).
  set (A := magnitude P) in *. set (B := magnitude Q) in *. simpl.
  apply orb_true_iff.
  destruct (decide (S = 0)) as [->|HS0].
  - left. apply Z.eqb_eq. destruct sg; lia.
  - right. apply Z.ltb_lt.
    replace (Z.abs ((if sg then - A else A) - (if sg then - B else B)))
      with (Z.abs (A - B)) by (destruct sg; lia).
    replace (Z.abs (if sg then - B else B)) with B by (destruct sg; lia).
    assert (H1 : 2 ^ 52 * Z.abs (A - B) ≤ (cP + cQ) * S) by lia.
    assert (H2 : (2 ^ 52 - cQ) * S ≤ 2 ^ 52 * B) by lia.
    assert (H3 : 10 ^ 9 * ((cP + cQ) * S) < (2 ^ 52 - cQ) * S) by nia.
    lia.
Qed.

Lemma zip_with_concat_blocks {A B C} (f : A → B → C) (blocks : list (list A * list B)) :
  Forall (λ xy, length xy.1 = length xy.2) blocks →
  zip_with f (concat blocks.*1) (concat blocks.*2)
  = concat ((λ xy, zip_with f xy.1 xy.2) <$> blocks).
Proof.
  induction 1 as [|xy blocks Hxy _ IH]; [done|].
  rewrite !fmap_cons. cbn [concat]. by rewrite zip_with_app, IH.
Qed.

Lemma total_magnitudes_concat (ls : list (list float)) :
  total (magnitude <$> concat ls) = total ((λ l, total (magnitude <$> l)) <$> ls).
Proof.
  induction ls as [|l ls IH]; [done|].
  cbn [concat]. by rewrite fmap_app, total_app, fmap_cons, total_cons, IH.
Qed.

End Sums.

(** C6, what fails: on the blocks [[1e16; 1]] and [[-1e16; 1]] against
    ones, the partial dot products sum to [0], whichever of the two
    schedules the library takes, while the dot product over the
    reassembled vectors is [1]: they are not within [1e-9] of each
    other.  And on the blocks [[1e308]] and [[1e308]] against ones both
    sums overflow: there is no relative error between two
    infinities. *)
Lemma reduced_dot_off_tolerance :
  let w := [Mpi.holding [1e16%float; 1%float] [1%float; 1%float];
            Mpi.holding [(-1e16)%float; 1%float] [1%float; 1%float]] in
  let h : heap := {[ 0%N := Some <$> [1e16%float; 1%float; (-1e16)%float; 1%float];
                     1%N := Some <$> [1%float; 1%float; 1%float; 1%float] ]} in
  let w' := [Mpi.holding [1e308%float] [1%float]; Mpi.holding [1e308%float] [1%float]] in
  let h' : heap := {[ 0%N := Some <$> [1e308%float; 1e308%float];
                      1%N := Some <$> [1%float; 1%float] ]} in
  Mpi.Parallel_dot_product (Mpi.rank_order 2) 2 w = Some [0%float; 0%float]
  ∧ Mpi.Parallel_dot_product (Mpi.Combine (Mpi.Contribution 1) (Mpi.Contribution 0)) 2 w
    = Some [0%float; 0%float]
  ∧ Mpi.local_dot_product (Ptr 0) (Ptr 1) 4 h = Some 1%float
  ∧ within_tolerance 0 1 = false
  ∧ close_to 0 1 = false
  ∧ Mpi.Parallel_dot_product (Mpi.rank_order 2) 1 w' = Some [infinity; 0%float]
  ∧ Mpi.local_dot_product (Ptr 0) (Ptr 1) 2 h' = Some infinity
  ∧ within_tolerance infinity infinity = false
  ∧ close_to infinity infinity = false.
Proof. intros w h w' h'. split_and!; vm_compute; reflexivity. Qed.

(** C6, as the code has it.  Take blocks whose products [x[i] * y[i]]
    are all of one sign or zero, and below [2^991] in magnitude: no
    sum cancels and none overflows.  For at most 4.5 million additions
    in all ([main] has [n = 20]), the sum the reduction makes of the
    partial dot products, along any schedule, and the dot product one
    process computes over the reassembled vectors are finite and
    within relative error [1e-9] of each other; they need not be the
    same double. *)
Theorem reduced_dot_within_tolerance sg s local_n (p0 : Mpi.proc) (others : list Mpi.proc)
    (blocks : list (list float * list float)) (h : heap) (gx gy : ptr) :
  Mpi.schedule_for (length (p0 :: others)) s →
  Forall2 (Mpi.owns local_n) (p0 :: others) blocks →
  holds h gx (concat blocks.*1) → holds h gy (concat blocks.*2) →
  Forall (λ xy : list float * list float,
            Forall (λ t, summable sg t = true) (zip_with PrimFloat.mul xy.1 xy.2))
         blocks →
  (Z.of_nat (length (p0 :: others) * Z.to_nat local_n
             + Z.to_nat local_n + length (p0 :: others)) ≤ 4500000)%Z →
  ∃ par seq,
    Mpi.Parallel_dot_product s local_n (p0 :: others)
    = Some (par :: replicate (length others) 0%float)
    ∧ Mpi.local_dot_product gx gy (Z.of_nat (length (p0 :: others)) * local_n) h = Some seq
    ∧ close_to par seq = true.
Proof.
  intros Hs Hw Hgx Hgy Hsum Hsize.
  set (W := length (p0 :: others)) in *. set (k := Z.to_nat local_n) in *.
  assert (Hlen : length blocks = W) by (by apply Forall2_length in Hw).
  assert (Hk : Forall (λ xy : list float * list float, length xy.1 = k ∧ length xy.2 = k)
                      blocks).
  { apply Forall_forall. intros xy Hxy. apply list_elem_of_lookup in Hxy as [r Hr].
    destruct (Forall2_lookup_r _ _ _ r xy Hw Hr) as (p & _ & Hl1 & Hl2 & _). done. }
  assert (Heq : Forall (λ xy : list float * list float, length xy.1 = length xy.2) blocks).
  { eapply Forall_impl; [exact Hk|]. intros ? [??]. congruence. }
  set (products := λ xy : list float * list float, zip_with PrimFloat.mul xy.1 xy.2).
  set (sums := λ xy : list float * list float, total (magnitude <$> products xy)).
  assert (Hlp : Forall (λ xy, length (products xy) = k) blocks).
  { eapply Forall_impl; [exact Hk|]. intros xy [H1 H2]. unfold products.
    rewrite length_zip_with. lia. }
  assert (Hwhole : zip_with PrimFloat.mul (concat blocks.*1) (concat blocks.*2)
                   = concat (products <$> blocks)).
  { by apply zip_with_concat_blocks. }
  assert (Hall : Forall (λ t, summable sg t = true) (concat (products <$> blocks))).
  { apply Forall_concat_blocks, Forall_fmap. exact Hsum. }
  assert (Hn : length (concat (products <$> blocks)) = (W * k)%nat).
  { rewrite (length_concat_uniform k), length_fmap, Hlen; [done|].
    by apply Forall_fmap. }
  assert (Htotal : total (sums <$> blocks) = total (magnitude <$> concat (products <$> blocks))).
  { by rewrite total_magnitudes_concat, <- list_fmap_compose. }
  pose proof (total_summable sg _ Hall) as Hbound. rewrite Hn in Hbound.
  (* the reduction *)
  destruct (combine_approximates_total sg (Z.of_nat k) s
              ((λ xy, dot xy.1 xy.2) <$> blocks) (sums <$> blocks))
    as (par & Hcombine & Hpar).
  { by rewrite length_fmap, Hlen. }
  { apply Forall2_fmap, Forall_Forall2_diag, Forall_forall. intros xy Hxy.
    pose proof (proj1 (Forall_forall _ _) Hsum xy Hxy) as Hxy1.
    pose proof (proj1 (Forall_forall _ _) Hlp xy Hxy) as Hxy2.
    unfold products in Hxy2. unfold sums, products. rewrite <- Hxy2.
    apply dot_approximates; [done|]. rewrite Hxy2.
    change (2 ^ 23)%Z with 8388608%Z. lia. }
  { lia. }
  { rewrite length_fmap, Hlen. change (2 ^ 52)%Z with 4503599627370496%Z. lia. }
  { rewrite Htotal. change (2 ^ 2088)%Z with (2 ^ 23 * 2 ^ 2065)%Z.
    assert (Z.of_nat (W * k) ≤ 2 ^ 23)%Z by (change (2 ^ 23)%Z with 8388608%Z; lia).
    nia. }
  rewrite length_fmap, Hlen, Htotal in Hpar.
  (* the loop over the reassembled vectors *)
  assert (Hlx : length (concat blocks.*1) = Z.to_nat (Z.of_nat W * local_n)).
  { rewrite (length_concat_uniform k), length_fmap, Hlen; [subst k; nia|].
    apply Forall_fmap. eapply Forall_impl; [exact Hk|]. by intros ? [??]. }
  assert (Hly : length (concat blocks.*2) = Z.to_nat (Z.of_nat W * local_n)).
  { rewrite (length_concat_uniform k), length_fmap, Hlen; [subst k; nia|].
    apply Forall_fmap. eapply Forall_impl; [exact Hk|]. by intros ? [??]. }
  pose proof (dot_approximates sg (concat blocks.*1) (concat blocks.*2)) as Hseq.
  rewrite Hwhole, Hn in Hseq.
  specialize (Hseq Hall ltac:(change (2 ^ 23)%Z with 8388608%Z; lia)).
  exists par, (dot (concat blocks.*1) (concat blocks.*2)). split_and!.
  - by eapply Parallel_dot_product_reduce.
  - by apply local_dot_product_dot.
  - eapply approximates_close_to; [exact Hpar|exact Hseq|lia|lia|].
    change (2 ^ 52)%Z with 4503599627370496%Z. change (10 ^ 9)%Z with 1000000000%Z. lia.
Qed.

(** C6 on [x = [2.5; 5; 0.1; 0.1]] and [y = [2.5; 7.5; 0.1; 0.1]] over
    two processes: the reduction gives 43.770000000000003, the loop
    over the whole vectors 43.769999999999996; within [1e-9] of each
    other, and not the same double. *)
Lemma reduced_dot_within_tolerance_witness :
  let w := [Mpi.holding [2.5%float; 5%float] [2.5%float; 7.5%float];
            Mpi.holding [0.1%float; 0.1%float] [0.1%float; 0.1%float]] in
  let h : heap := {[ 0%N := Some <$> [2.5%float; 5%float; 0.1%float; 0.1%float];
                     1%N := Some <$> [2.5%float; 7.5%float; 0.1%float; 0.1%float] ]} in
  Mpi.Parallel_dot_product (Mpi.rank_order 2) 2 w
  = Some [43.770000000000003%float; 0%float]
  ∧ Mpi.local_dot_product (Ptr 0) (Ptr 1) 4 h = Some 43.769999999999996%float
  ∧ close_to 43.770000000000003 43.769999999999996 = true
  ∧ within_tolerance 43.770000000000003 43.769999999999996 = true
  ∧ (43.770000000000003 =? 43.769999999999996)%float = false.
Proof.
  intros w h.
  destruct (reduced_dot_within_tolerance false (Mpi.rank_order 2) 2
              (Mpi.holding [2.5%float; 5%float] [2.5%float; 7.5%float])
              [Mpi.holding [0.1%float; 0.1%float] [0.1%float; 0.1%float]]
              [([2.5%float; 5%float], [2.5%float; 7.5%float]);
               ([0.1%float; 0.1%float], [0.1%float; 0.1%float])] h (Ptr 0) (Ptr 1)
              (Permutation_refl _)
              ltac:(constructor;
                    [exact (holding_owns [2.5%float; 5%float] [2.5%float; 7.5%float] eq_refl)|];
                    constructor;
                    [exact (holding_owns [0.1%float; 0.1%float] [0.1%float; 0.1%float] eq_refl)|];
                    constructor)
              (holds_block h 0%N [2.5%float; 5%float; 0.1%float; 0.1%float] [] eq_refl)
              (holds_block h 1%N [2.5%float; 7.5%float; 0.1%float; 0.1%float] [] eq_refl)
              ltac:(repeat constructor)
              ltac:(cbn; lia))
    as (par & seq & Hp & Hseq & Hclose).
  vm_compute in Hp. injection Hp as <-.
  vm_compute in Hseq. injection Hseq as <-.
  split_and!; [reflexivity|reflexivity|exact Hclose|reflexivity|reflexivity].
Defined.

(** On blocks of non-negative integers with a dot product below
    [2^53], rank 0 receives the exact dot product of the two vectors,
    whatever the schedule. *)
Lemma Parallel_dot_product_integers s local_n (p0 : Mpi.proc) (others : list Mpi.proc)
    (blocks : list (list Z * list Z)) :
  Mpi.schedule_for (length (p0 :: others)) s →
  Forall2 (Mpi.owns local_n) (p0 :: others) (Mpi.as_doubles <$> blocks) →
  Forall (λ xy : list Z * list Z,
            Forall (λ v, 0 ≤ v < 2 ^ 53)%Z xy.1 ∧ Forall (λ v, 0 ≤ v < 2 ^ 53)%Z xy.2)
         blocks →
  (int_dot (Mpi.whole_x blocks) (Mpi.whole_y blocks) < 2 ^ 53)%Z →
  Mpi.Parallel_dot_product s local_n (p0 :: others)
  = Some (double_of_int (int_dot (Mpi.whole_x blocks) (Mpi.whole_y blocks))
          :: replicate (length others) 0%float).
Proof.
  intros Hs Hw Hrange Hbound. unfold Mpi.whole_x, Mpi.whole_y in *.
  assert (Hlen : length blocks = length (p0 :: others)).
  { apply Forall2_length in Hw. by rewrite length_fmap in Hw. }
  assert (Heq : Forall (λ xy : list Z * list Z, length xy.1 = length xy.2) blocks).
  { apply Forall_forall. intros xy Hxy. apply list_elem_of_lookup in Hxy as [r Hr].
    destruct (Forall2_lookup_r _ _ _ r (Mpi.as_doubles xy) Hw) as (p & _ & Hl1 & Hl2 & _).
    { by rewrite list_lookup_fmap, Hr. }
    simpl in Hl1, Hl2. rewrite !length_fmap in Hl1, Hl2. congruence. }
  set (partial := λ xy : list Z * list Z, int_dot xy.1 xy.2).
  assert (Hnn : Forall (λ v, 0 ≤ v)%Z (partial <$> blocks)).
  { apply Forall_fmap. eapply Forall_impl; [exact Hrange|]. simpl. intros xy [??].
    apply int_dot_nonneg; by apply Forall_weaken_nonneg. }
  rewrite int_dot_concat in * by done. fold partial in Hbound |- *.
  assert (Hpartials :
    (λ xy : list float * list float, dot xy.1 xy.2) <$> (Mpi.as_doubles <$> blocks)
    = double_of_int <$> (partial <$> blocks)).
  { rewrite <- !list_fmap_compose. apply Forall_fmap_ext_1, Forall_forall.
    intros xy Hxy. simpl.
    destruct (proj1 (Forall_forall _ _) Hrange xy Hxy) as [Hx Hy].
    apply dot_integers; [done..|].
    assert (partial xy ≤ total (partial <$> blocks))%Z; [|unfold partial in *; lia].
    apply total_elem_le; [done|]. apply list_elem_of_fmap. eauto. }
  eapply Parallel_dot_product_reduce; [done|]. rewrite Hpartials.
  apply combine_integers_total; [by rewrite length_fmap, Hlen|done|done].
Qed.

(** On blocks of non-negative integers whose dot product is below
    [2^53] (the vectors of [main] hold integers from 0 to 99), no
    addition rounds: the partial dot products summed by the reduction,
    along any schedule, and the dot product one process computes over
    the reassembled vectors are the same double, the exact dot
    product. *)
Theorem reduced_dot_on_integers s local_n (p0 : Mpi.proc) (others : list Mpi.proc)
    (blocks : list (list Z * list Z)) (h : heap) (gx gy : ptr) :
  Mpi.schedule_for (length (p0 :: others)) s →
  Forall2 (Mpi.owns local_n) (p0 :: others) (Mpi.as_doubles <$> blocks) →
  Forall (λ xy : list Z * list Z,
            Forall (λ v, 0 ≤ v < 2 ^ 53)%Z xy.1 ∧ Forall (λ v, 0 ≤ v < 2 ^ 53)%Z xy.2)
         blocks →
  (int_dot (Mpi.whole_x blocks) (Mpi.whole_y blocks) < 2 ^ 53)%Z →
  holds h gx (double_of_int <$> Mpi.whole_x blocks) →
  holds h gy (double_of_int <$> Mpi.whole_y blocks) →
  ∃ d,
    Mpi.Parallel_dot_product s local_n (p0 :: others)
    = Some (d :: replicate (length others) 0%float)
    ∧ Mpi.local_dot_product gx gy (Z.of_nat (length (p0 :: others)) * local_n) h = Some d
    ∧ d = double_of_int (int_dot (Mpi.whole_x blocks) (Mpi.whole_y blocks)).
Proof.
  intros Hs Hw Hrange Hbound Hgx Hgy.
  exists (double_of_int (int_dot (Mpi.whole_x blocks) (Mpi.whole_y blocks))).
  split_and!; [by apply Parallel_dot_product_integers| |done].
  unfold Mpi.whole_x, Mpi.whole_y in *.
  set (k := Z.to_nat local_n).
  assert (Hlen : length blocks = length (p0 :: others)).
  { apply Forall2_length in Hw. by rewrite length_fmap in Hw. }
  assert (Hk : Forall (λ xy : list Z * list Z, length xy.1 = k ∧ length xy.2 = k) blocks).
  { apply Forall_forall. intros xy Hxy. apply list_elem_of_lookup in Hxy as [r Hr].
    destruct (Forall2_lookup_r _ _ _ r (Mpi.as_doubles xy) Hw) as (p & _ & Hl1 & Hl2 & _).
    { by rewrite list_lookup_fmap, Hr. }
    simpl in Hl1, Hl2. by rewrite !length_fmap in Hl1, Hl2. }
  assert (Hlx : length (double_of_int <$> concat blocks.*1)
                = Z.to_nat (Z.of_nat (length (p0 :: others)) * local_n)).
  { rewrite length_fmap, (length_concat_uniform k), length_fmap, Hlen; [subst k; nia|].
    apply Forall_fmap. eapply Forall_impl; [exact Hk|]. by intros ? [??]. }
  assert (Hly : length (double_of_int <$> concat blocks.*2)
                = Z.to_nat (Z.of_nat (length (p0 :: others)) * local_n)).
  { rewrite length_fmap, (length_concat_uniform k), length_fmap, Hlen; [subst k; nia|].
    apply Forall_fmap. eapply Forall_impl; [exact Hk|]. by intros ? [??]. }
  rewrite (local_dot_product_dot gx gy _ h _ _ Hlx Hly Hgx Hgy).
  rewrite dot_integers; [done| | |done].
  - apply Forall_concat_blocks, Forall_fmap.
    eapply Forall_impl; [exact Hrange|]. by intros ? [??].
  - apply Forall_concat_blocks, Forall_fmap.
    eapply Forall_impl; [exact Hrange|]. by intros ? [??].
Qed.

(** On [x = [1; 2; 3; 4]] and [y = [5; 6; 7; 8]] over two processes:
    70 either way. *)
Lemma reduced_dot_on_integers_witness :
  let w := [Mpi.holding [1%float; 2%float] [5%float; 6%float];
            Mpi.holding [3%float; 4%float] [7%float; 8%float]] in
  let h : heap := {[ 0%N := Some <$> [1%float; 2%float; 3%float; 4%float];
                     1%N := Some <$> [5%float; 6%float; 7%float; 8%float] ]} in
  Mpi.Parallel_dot_product (Mpi.rank_order 2) 2 w = Some [70%float; 0%float]
  ∧ Mpi.local_dot_product (Ptr 0) (Ptr 1) 4 h = Some 70%float.
Proof.
  intros w h.
  destruct (reduced_dot_on_integers (Mpi.rank_order 2) 2
              (Mpi.holding [1%float; 2%float] [5%float; 6%float])
              [Mpi.holding [3%float; 4%float] [7%float; 8%float]]
              [([1; 2], [5; 6]); ([3; 4], [7; 8])]%Z h (Ptr 0) (Ptr 1)
              (Permutation_refl _)
              ltac:(constructor;
                    [exact (holding_owns [1%float; 2%float] [5%float; 6%float] eq_refl)|];
                    constructor;
                    [exact (holding_owns [3%float; 4%float] [7%float; 8%float] eq_refl)|];
                    constructor)
              ltac:(repeat constructor; lia)
              eq_refl
              (holds_block h 0%N [1%float; 2%float; 3%float; 4%float] [] eq_refl)
              (holds_block h 1%N [5%float; 6%float; 7%float; 8%float] [] eq_refl))
    as (d & Hp & Hseq & ->).
  split; [exact Hp|exact Hseq].
Defined.

(** * What [main] leaves untouched *)

Lemma only_wrote_refl ps h : only_wrote ps h h.
Proof. by split. Qed.

Lemma only_wrote_trans ps h1 h2 h3 :
  only_wrote ps h1 h2 → only_wrote ps h2 h3 → only_wrote ps h1 h3.
Proof.
  intros [H1 N1] [H2 N2]. split; intros b Hb.
  - by rewrite H2, H1.
  - auto.
Qed.

Lemma only_wrote_poke ps h q i c h' :
  q ∈ ps → poke h q i c = Some h' → only_wrote ps h h'.
Proof.
  unfold poke. intros Hq. destruct q as [|b]; [done|].
  destruct (h !! b) as [a|] eqn:Hb; simpl; [|done].
  destruct (i <? length a)%nat; [|done]. intros [= <-]. split; intros b' Hb'.
  - rewrite lookup_insert_ne; [done|]. intros ->. done.
  - rewrite lookup_insert_ne; [done|]. intros ->. congruence.
Qed.

(** What every iteration of a loop that comes back preserves holds at
    its end. *)
Lemma for_range_preserves {S : Type} (body : nat → S → option S) (P : S → Prop) :
  (∀ j t t', body j t = Some t' → P t → P t') →
  ∀ k start s s', for_range body start k s = Some s' → P s → P s'.
Proof.
  intros Hstep. induction k as [|k IH]; intros start s s'; simpl.
  - by intros [= <-].
  - destruct (body start s) as [t|] eqn:Ht; simpl; [|done]. eauto.
Qed.

Lemma scalar_multiplication_only_wrote x y s local_n h h' :
  Mpi.Parallel_scalar_multiplication x y s local_n h = Some h' →
  only_wrote [x; y] h h'.
Proof.
  unfold Mpi.Parallel_scalar_multiplication, for_loop. intros Hrun.
  eapply (for_range_preserves _ (only_wrote [x; y] h)); [|exact Hrun|apply only_wrote_refl].
  intros j t t' Hbody Ht. cbn beta in Hbody.
  destruct (load t x j) as [xi|]; simpl in Hbody; [|done].
  destruct (store t x j (xi * s)%float) as [t1|] eqn:H1; simpl in Hbody; [|done].
  destruct (load t1 y j) as [yi|]; simpl in Hbody; [|done].
  eapply only_wrote_trans; [exact Ht|]. eapply only_wrote_trans.
  - eapply (only_wrote_poke [x; y]); [|exact H1]. set_solver.
  - eapply (only_wrote_poke [x; y]); [|exact Hbody]. set_solver.
Qed.

Lemma place_only_wrote cs : ∀ h q k r i h',
  Mpi.place h q k r i cs = Some h' → only_wrote [q] h h'.
Proof.
  induction cs as [|c cs IH]; intros h q k r i h'; simpl.
  - intros [= <-]. apply only_wrote_refl.
  - destruct (poke h q (Mpi.global_index k r i) c) as [h1|] eqn:H1; simpl; [|done].
    intros Hrest. eapply only_wrote_trans; [|eauto].
    eapply only_wrote_poke; [|exact H1]. set_solver.
Qed.

Lemma gather_only_wrote blocks : ∀ h q k r h',
  Mpi.MPI_Gather h q k r blocks = Some h' → only_wrote [q] h h'.
Proof.
  induction blocks as [|cs blocks IH]; intros h q k r h'; simpl.
  - intros [= <-]. apply only_wrote_refl.
  - destruct (Mpi.place h q k r 0 cs) as [h1|] eqn:H1; simpl; [|done].
    intros Hrest. eapply only_wrote_trans; [|eauto]. eauto using place_only_wrote.
Qed.

Lemma not_elem_of_pair (q x y : ptr) : x ≠ q → y ≠ q → q ∉ [x; y].
Proof.
  intros Hx Hy [->|[->|[]%elem_of_nil]%elem_of_cons]%elem_of_cons; done.
Qed.

(** A step that keeps the pointers and the allocator of a process, and
    writes to [local_x] and [local_y] at most, leaves [local_z]
    untouched. *)
Lemma z_untouched_step k (p p' : Mpi.proc) :
  Mpi.z_untouched k p →
  only_wrote [Mpi.local_x p; Mpi.local_y p] (Mpi.mem p) (Mpi.mem p') →
  Mpi.local_x p' = Mpi.local_x p → Mpi.local_y p' = Mpi.local_y p →
  Mpi.local_z p' = Mpi.local_z p → Mpi.brk p' = Mpi.brk p →
  Mpi.z_untouched k p'.
Proof.
  intros (bz & Hz & Hbz & Hx & Hy & Hfresh) [Hframe Hnone] Hx' Hy' Hz' Hbrk.
  exists bz. rewrite Hx', Hy', Hz', Hbrk. split_and!; [done| |done|done|by auto].
  rewrite Hframe; [done|]. by apply not_elem_of_pair.
Qed.

Lemma generate_z_untouched e local_n r k (p p' : Mpi.proc) :
  Mpi.generate e local_n r p = Some p' → Mpi.z_untouched k p → Mpi.z_untouched k p'.
Proof.
  unfold Mpi.generate, for_loop.
  apply (for_range_preserves _ (Mpi.z_untouched k)). clear p p'.
  intros j p p' Hbody Hp. cbn beta in Hbody.
  destruct (store (Mpi.mem p) (Mpi.local_x p) j _) as [h1|] eqn:H1; simpl in Hbody; [|done].
  destruct (store h1 (Mpi.local_y p) j _) as [h2|] eqn:H2; simpl in Hbody; [|done].
  injection Hbody as <-.
  apply (z_untouched_step k p); [done| |done..].
  simpl. eapply only_wrote_trans.
  - eapply (only_wrote_poke [_; _]); [|exact H1]. set_solver.
  - eapply (only_wrote_poke [_; _]); [|exact H2]. set_solver.
Qed.

Lemma scale_z_untouched s local_n k (p : Mpi.proc) h :
  Mpi.Parallel_scalar_multiplication (Mpi.local_x p) (Mpi.local_y p) s local_n (Mpi.mem p)
  = Some h →
  Mpi.z_untouched k p → Mpi.z_untouched k (Mpi.with_mem h p).
Proof.
  intros Hrun Hp. apply (z_untouched_step k p); [done| |done..].
  by apply scalar_multiplication_only_wrote in Hrun.
Qed.

Lemma each_Forall (f : nat → Mpi.proc → option Mpi.proc) (P : Mpi.proc → Prop) :
  (∀ r p p', f r p = Some p' → P p → P p') →
  ∀ w r w', Mpi.each f r w = Some w' → Forall P w → Forall P w'.
Proof.
  intros Hf. induction w as [|p w IH]; intros r w'; simpl.
  - by intros [= <-].
  - destruct (f r p) as [p'|] eqn:Hp; simpl; [|done].
    destruct (Mpi.each f (S r) w) as [rest|] eqn:Hrest; simpl; [|done].
    intros [= <-] [Hp0 Hw]%Forall_cons. constructor; eauto.
Qed.

Lemma allocate_z_untouched local_n (p p' : Mpi.proc) :
  (∀ b, (Mpi.brk p ≤ b)%N → Mpi.mem p !! b = None) →
  Mpi.Allocate_vectors local_n p = Returns p' →
  Mpi.z_untouched (Z.to_nat local_n) p'.
Proof.
  intros Hfresh. unfold Mpi.Allocate_vectors, Mpi.malloc.
  repeat (match goal with
          | |- context [if (?c || ?d)%bool then (NULL, ?q) else _] => destruct (c || d)%bool
          end; cbn); try done.
  intros [= <-]. exists (Mpi.brk p + 1 + 1)%N. cbn.
  split_and!; [done| | | |].
  - by rewrite lookup_insert_eq.
  - intros [=]. lia.
  - intros [=]. lia.
  - intros b Hb. rewrite !lookup_insert_ne by lia. apply Hfresh. lia.
Qed.

Lemma allocate_all_z_untouched local_n : ∀ (w w' : list Mpi.proc),
  Forall (λ p, ∀ b, (Mpi.brk p ≤ b)%N → Mpi.mem p !! b = None) w →
  Mpi.allocate_all local_n w = Returns w' →
  Forall (Mpi.z_untouched (Z.to_nat local_n)) w'.
Proof.
  induction w as [|p w IH]; intros w' Hw; simpl.
  - by intros [= <-].
  - apply Forall_cons in Hw as [Hp Hw].
    destruct (Mpi.Allocate_vectors local_n p) as [p'|] eqn:Hp'; [|done].
    destruct (Mpi.allocate_all local_n w) as [rest|] eqn:Hrest; [|done].
    intros [= <-]. constructor; eauto using allocate_z_untouched.
Qed.

Lemma Print_vector_z_untouched local_b local_n n title k (w w' : list Mpi.proc) :
  Mpi.Print_vector local_b local_n n title w = Some w' →
  Forall (Mpi.z_untouched k) w → Forall (Mpi.z_untouched k) w'.
Proof.
  unfold Mpi.Print_vector.
  destruct (mapM _ w) as [blocks|]; simpl; [|done].
  destruct w as [|p0 others]; [by intros [= <-]|].
  intros Hrun [Hp0 Hothers]%Forall_cons.
  destruct (Mpi.malloc n p0) as [b p1] eqn:Hmalloc.
  destruct (Mpi.MPI_Gather (Mpi.mem p1) b (Z.to_nat local_n) 0 blocks) as [h|] eqn:Hg;
    simpl in Hrun; [|done].
  destruct (read_cells h b (Z.to_nat n)) as [cells|]; simpl in Hrun; [|done].
  injection Hrun as <-. apply gather_only_wrote in Hg as [Hframe Hnone].
  apply Forall_cons.
  split; [|by apply Forall_fmap; eapply Forall_impl; [exact Hothers|intros p Hp; exact Hp]].
  destruct Hp0 as (bz & Hz & Hbz & Hx & Hy & Hfresh).
  unfold Mpi.malloc in Hmalloc.
  destruct ((n <? 0)%Z || (Mpi.avail p0 <? n)%Z); injection Hmalloc as <- <-.
  - exists bz. cbn. split_and!; [done| |done|done|].
    + rewrite Hframe; [done|]. by intros [=]%list_elem_of_singleton.
    + intros b' Hb'. auto.
  - exists bz. cbn in *. assert (bz ≠ Mpi.brk p0).
    { intros ->. rewrite Hfresh in Hbz by lia. done. }
    split_and!; [done| |done|done|].
    + rewrite lookup_delete_ne by done.
      rewrite Hframe by (intros [=]%list_elem_of_singleton; done).
      by rewrite lookup_insert_ne.
    + intros b' Hb'. rewrite lookup_delete_ne by lia. apply Hnone.
      rewrite lookup_insert_ne by lia. apply Hfresh. lia.
Qed.

Lemma Forall_zip_with_r {A} (P : Mpi.proc → Prop) (f : A → Mpi.proc → Mpi.proc) ds w :
  (∀ d p, P p → P (f d p)) → Forall P w → Forall P (zip_with f ds w).
Proof.
  intros Hf Hw. revert ds. induction Hw as [|p w Hp _ IH]; intros [|d ds]; simpl; auto.
Qed.

Lemma at_root_Forall (P : Mpi.proc → Prop) (f : Mpi.proc → Mpi.proc) w :
  (∀ p, P p → P (f p)) → Forall P w → Forall P (Mpi.at_root f w).
Proof. intros Hf [|p w' Hp Hw]; simpl; auto. Qed.

Lemma compute_z_untouched e local_n k (w w' : list Mpi.proc) :
  Mpi.compute e local_n w = Some w' →
  Forall (Mpi.z_untouched k) w → Forall (Mpi.z_untouched k) w'.
Proof.
  unfold Mpi.compute. intros Hrun Hw.
  destruct (Mpi.each _ 0 w) as [w1|] eqn:H1; simpl in Hrun; [|done].
  apply (each_Forall _ (Mpi.z_untouched k)) in H1;
    [|eauto using generate_z_untouched|done].
  destruct (Mpi.Print_vector Mpi.local_x _ _ _ _) as [w2|] eqn:H2; simpl in Hrun; [|done].
  apply (Print_vector_z_untouched _ _ _ _ k) in H2; cycle 1.
  { apply Forall_fmap. eapply Forall_impl; [exact H1|]. intros p Hp. exact Hp. }
  destruct (Mpi.Print_vector Mpi.local_y _ _ _ _) as [w3|] eqn:H3; simpl in Hrun; [|done].
  apply (Print_vector_z_untouched _ _ _ _ k) in H3; [|done].
  destruct (Mpi.Parallel_dot_product _ _ _) as [dots|]; simpl in Hrun; [|done].
  destruct (Mpi.each _ 0 _) as [w4|] eqn:H4; simpl in Hrun; [|done].
  apply (each_Forall _ (Mpi.z_untouched k)) in H4; cycle 1.
  { intros _ p p' Hp. unfold Mpi.scale in Hp.
    destruct (Mpi.Parallel_scalar_multiplication _ _ _ _ _) as [h|] eqn:Hh;
      simpl in Hp; [|done].
    injection Hp as <-. eauto using scale_z_untouched. }
  { apply Forall_zip_with_r; [|done]. intros d p Hp. exact Hp. }
  destruct (Mpi.Print_vector Mpi.local_x _ _ _ _) as [w5|] eqn:H5; simpl in Hrun; [|done].
  apply (Print_vector_z_untouched _ _ _ _ k) in H5; [|done].
  destruct (Mpi.Print_vector Mpi.local_y _ _ _ _) as [w6|] eqn:H6; simpl in Hrun; [|done].
  apply (Print_vector_z_untouched _ _ _ _ k) in H6; [|done].
  injection Hrun as <-.
  apply at_root_Forall; [by intros p Hp|]. apply at_root_Forall; [by intros p Hp|done].
Qed.

(** Whatever the launch, a run of the MPI program that gets to its
    last [printf] has written no cell of any [local_z]. *)
Lemma main_body_z_untouched e st w :
  Mpi.main_body e = Mpi.Finished st w →
  Forall (Mpi.z_untouched (Z.to_nat (Mpi.block_length Mpi.n (Mpi.comm_sz e)))) w.
Proof.
  unfold Mpi.main_body. destruct (Mpi.comm_sz e) as [|W] eqn:HW; [done|].
  destruct (Mpi.allocate_all _ _) as [w1|] eqn:H1; [|done].
  apply allocate_all_z_untouched in H1; cycle 1.
  { apply Forall_fmap, Forall_forall. intros r _ b _. apply lookup_empty. }
  destruct (Mpi.compute e _ w1) as [w2|] eqn:H2; [|done].
  intros [= <- <-]. eauto using compute_z_untouched.
Qed.

(** * The claims on sample runs, and the two programs together *)


(** C2 on a run: the MPI program on two processes ends with the scaled
    [local_x] and [local_y] in place and every cell of [local_z] still
    unwritten: no sum was computed. *)
Lemma mpi_variant_adds_nothing :
  ∃ w, Mpi.main_body (Mpi.launch 2) = Mpi.Finished 0 w
       ∧ (λ p, (load (Mpi.mem p) (Mpi.local_x p) 0,
                load (Mpi.mem p) (Mpi.local_y p) 0,
                read_cells (Mpi.mem p) (Mpi.local_z p) 10)) <$> w
         = [(Some 0%float, Some 17.5%float, Some (replicate 10 None));
            (Some 2.5%float, Some 20%float, Some (replicate 10 None))].
Proof. eexists. split; vm_compute; reflexivity. Qed.

(** C2: [Vector_sum] of the sequential program leaves
    [z[i] = x[i] + y[i]] for every [i] in [0, n) and changes nothing
    else.  The MPI program, whose header announces the sum vector
    [z = x+y] and which allocates [local_z] for it, computes no sum:
    whatever the launch, when it reaches its last [printf] every cell
    of the [local_z] of every process is still as [malloc] returned
    it. *)
Theorem sum_is_sequential_only x y z n h xs ys e st w :
  length xs = Z.to_nat n → length ys = Z.to_nat n →
  holds h x xs → holds h y ys → allocated h z (Z.to_nat n) →
  Mpi.main_body e = Mpi.Finished st w →
  (∃ h', Seq.Vector_sum x y z n h = Some h'
         ∧ (∀ i xi yi, xs !! i = Some xi → ys !! i = Some yi →
                       load h' z i = Some (xi + yi)%float)
         ∧ (∀ q j, q ≠ z ∨ (Z.to_nat n ≤ j)%nat → peek h' q j = peek h q j))
  ∧ Forall (λ p, read_cells (Mpi.mem p) (Mpi.local_z p)
                   (Z.to_nat (Mpi.block_length Mpi.n (Mpi.comm_sz e)))
                 = Some (replicate (Z.to_nat (Mpi.block_length Mpi.n (Mpi.comm_sz e))) None))
      w.
Proof.
  intros Hlx Hly Hx Hy Hz Hrun. split; [by apply (Vector_sum_effect x y z n h xs ys)|].
  eapply Forall_impl; [by eapply main_body_z_untouched|]. simpl.
  intros p (bz & -> & Hbz & _).
  rewrite <- (length_replicate (Z.to_nat _) (None : cell)) at 1.
  by apply read_cells_block.
Qed.

(** C2 on a sum of two elements and on the run of two processes. *)
Lemma sum_is_sequential_only_witness :
  let h : heap := {[ 0%N := [Some 1%float; Some 2%float];
                     1%N := [Some 5%float; Some 6%float];
                     2%N := [None; None] ]} in
  (∃ h', Seq.Vector_sum (Ptr 0) (Ptr 1) (Ptr 2) 2 h = Some h'
         ∧ (∀ i xi yi, [1%float; 2%float] !! i = Some xi → [5%float; 6%float] !! i = Some yi →
                       load h' (Ptr 2) i = Some (xi + yi)%float)
         ∧ (∀ q j, q ≠ Ptr 2 ∨ (Z.to_nat 2 ≤ j)%nat → peek h' q j = peek h q j))
  ∧ ∃ w, Mpi.main_body (Mpi.launch 2) = Mpi.Finished 0 w
         ∧ Forall (λ p, read_cells (Mpi.mem p) (Mpi.local_z p) 10
                        = Some (replicate 10 None)) w.
Proof.
  intros h.
  assert (Hrun : ∃ w, Mpi.main_body (Mpi.launch 2) = Mpi.Finished 0 w)
    by (eexists; vm_compute; reflexivity).
  destruct Hrun as [w Hw].
  destruct (sum_is_sequential_only (Ptr 0) (Ptr 1) (Ptr 2) 2 h
              [1%float; 2%float] [5%float; 6%float] (Mpi.launch 2) 0 w
              eq_refl eq_refl
              (holds_block h 0%N [1%float; 2%float] [] eq_refl)
              (holds_block h 1%N [5%float; 6%float] [] eq_refl)
              (ex_intro _ 2%N (ex_intro _ [None; None]
                 (conj eq_refl (conj eq_refl (le_n 2)))))
              Hw) as [Hsum Hz].
  split; [exact Hsum|]. exists w. split; [exact Hw|exact Hz].
Defined.

Lemma allocate_all_Exits local_n (w : list Mpi.proc) st msg :
  Mpi.allocate_all local_n w = Exits st msg →
  msg = "Error en la asignación de memoria
"%string.
Proof.
  induction w as [|p w IH]; simpl; [done|].
  destruct (Mpi.Allocate_vectors local_n p) as [p'|st' msg'] eqn:Hp.
  - destruct (Mpi.allocate_all local_n w); [done|]. intros [= -> ->]. by apply IH.
  - intros [= -> ->]. revert Hp. unfold Mpi.Allocate_vectors.
    destruct (Mpi.malloc local_n p) as [x p1].
    destruct (Mpi.malloc local_n p1) as [y p2].
    destruct (Mpi.malloc local_n p2) as [z p3].
    destruct (Mpi.is_null _ || _ || _)%bool; [|done]. by intros [= _ <-].
Qed.

(** C1, on the code: no launch ends in a configuration error, the only
    abort of the program is the failed [malloc].  With three processes
    [n = 20] is not a multiple of [comm_sz], and nothing stops the run:
    every process goes through the barrier, the gathers and the
    reduction and returns 0, and the vector that rank 0 prints ends
    with two cells nobody wrote. *)
Theorem main_runs_unchecked :
  (∀ e st msg, Mpi.main e = Mpi.Aborted st msg →
               msg = "Error en la asignación de memoria
"%string)
  ∧ Z.rem Mpi.n 3 ≠ 0%Z
  ∧ ∃ w p0,
      Mpi.main (Mpi.launch 3) = Mpi.Finished 0 w
      ∧ Mpi.calls <$> w
        = replicate 3 [Mpi.Barrier; Mpi.Gather; Mpi.Gather; Mpi.Reduce; Mpi.Gather; Mpi.Gather]
      ∧ w !! 0%nat = Some p0
      ∧ take 22 (Mpi.stdout p0)
        = Mpi.Title "Vector x (antes de multiplicar por escalar)"
          :: (Mpi.Number <$>
                ((Some <$> [0; 14; 28; 42; 56; 70; 1; 15; 29; 43; 57; 71;
                            2; 16; 30; 44; 58; 72]%float)
                 ++ [None; None]))
          ++ [Mpi.Newline].
Proof.
  split_and!; [|done|].
  - intros e st msg. unfold Mpi.main, Mpi.main_body.
    destruct (Mpi.comm_sz e); [done|].
    destruct (Mpi.allocate_all _ _) as [w|st' msg'] eqn:Hw.
    + by destruct (Mpi.compute e _ w).
    + intros [= -> ->]. eauto using allocate_all_Exits.
  - eexists _, _. split_and!; [vm_compute; reflexivity|..]; reflexivity.
Qed.



(** * Allocation failure *)

Lemma Allocate_vectors_fails local_n (p : Mpi.proc) :
  (0 ≤ local_n)%Z → (Mpi.avail p < 3 * local_n)%Z →
  Mpi.Allocate_vectors local_n p
  = Exits (-1) "Error en la asignación de memoria
"%string.
Proof.
  intros Hn Hp. unfold Mpi.Allocate_vectors, Mpi.malloc.
  repeat (match goal with
          | |- context [if (?c || ?d)%bool then (NULL, ?q) else _] =>
              destruct (c || d)%bool eqn:?
          end; cbn); try done.
  repeat match goal with
         | H : (_ || _)%bool = false |- _ =>
             apply orb_false_elim in H as [_ H]; apply Z.ltb_ge in H
         end.
  cbn in *. lia.
Qed.

Lemma allocate_all_fails local_n (w : list Mpi.proc) :
  (0 ≤ local_n)%Z → Exists (λ p, Mpi.avail p < 3 * local_n)%Z w →
  Mpi.allocate_all local_n w
  = Exits (-1) "Error en la asignación de memoria
"%string.
Proof.
  intros Hn. induction 1 as [p w Hp|p w _ IH]; simpl.
  - by rewrite Allocate_vectors_fails.
  - rewrite IH. destruct (Mpi.Allocate_vectors local_n p) as [p'|st msg] eqn:Hp; [done|].
    revert Hp. unfold Mpi.Allocate_vectors.
    destruct (Mpi.malloc local_n p) as [x p1].
    destruct (Mpi.malloc local_n p1) as [y p2].
    destruct (Mpi.malloc local_n p2) as [z p3].
    destruct (Mpi.is_null _ || _ || _)%bool; [|done]. by intros [= <- <-].
Qed.

(** Allocation failure: when the three blocks do not fit at some rank,
    that rank writes the message on standard error and calls
    [MPI_Abort(comm, -1)]: the run of the communicator ends aborted,
    with status [-1].  (How far the other ranks had come by then is not
    part of the outcome.) *)
Theorem allocation_failure_aborts e r :
  (r < Mpi.comm_sz e)%nat →
  (Mpi.memory e r < 3 * Mpi.block_length Mpi.n (Mpi.comm_sz e))%Z →
  Mpi.main e = Mpi.Aborted (-1) "Error en la asignación de memoria
"%string.
Proof.
  intros Hr Hmem. unfold Mpi.main, Mpi.main_body.
  destruct (Mpi.comm_sz e) as [|W] eqn:HW; [lia|].
  rewrite allocate_all_fails; [done| |].
  - unfold Mpi.block_length, Mpi.n. apply Z.quot_pos; lia.
  - apply Exists_exists. exists (Mpi.start e r). split; [|done].
    apply list_elem_of_fmap. exists r. split; [done|]. apply elem_of_seq. lia.
Qed.

(** Two processes, the second with room for five doubles only. *)
Lemma allocation_failure_aborts_witness :
  Mpi.main (Mpi.Env 2 (λ _ _, 0%Z) (λ r, if decide (r = 1%nat) then 5%Z else 1000%Z)
                    (Mpi.rank_order 2))
  = Mpi.Aborted (-1) "Error en la asignación de memoria
"%string.
Proof.
  apply (allocation_failure_aborts _ 1%nat).
  - simpl. lia.
  - reflexivity.
Defined.

(** * A whole run on an even partition

    After [Allocate_vectors] a process holds three blocks, numbered 0,
    1 and 2 ([Mpi.at_work]); the lemmas below follow [main] through
    such states. *)

Lemma three_blocks_x (a b c : list cell) : Mpi.three_blocks a b c !! 0%N = Some a.
Proof. unfold Mpi.three_blocks. by rewrite !lookup_insert_ne, lookup_insert_eq by done. Qed.

Lemma three_blocks_y (a b c : list cell) : Mpi.three_blocks a b c !! 1%N = Some b.
Proof. unfold Mpi.three_blocks. by rewrite lookup_insert_ne, lookup_insert_eq by done. Qed.

Lemma three_blocks_fresh (a b c : list cell) (i : N) :
  (3 ≤ i)%N → Mpi.three_blocks a b c !! i = None.
Proof.
  intros Hi. unfold Mpi.three_blocks. rewrite !lookup_insert_ne by lia. apply lookup_empty.
Qed.

Lemma store_x (a b c : list cell) i v :
  (i < length a)%nat →
  store (Mpi.three_blocks a b c) (Ptr 0) i v
  = Some (Mpi.three_blocks (<[i := Some v]> a) b c).
Proof.
  intros Hi. unfold store. by rewrite (poke_block _ 0%N a) by (by rewrite ?three_blocks_x).
Qed.

Lemma store_y (a b c : list cell) i v :
  (i < length b)%nat →
  store (Mpi.three_blocks a b c) (Ptr 1) i v
  = Some (Mpi.three_blocks a (<[i := Some v]> b) c).
Proof.
  intros Hi. unfold store. by rewrite (poke_block _ 1%N b) by (by rewrite ?three_blocks_y).
Qed.

Lemma load_x (a b c : list cell) i : load (Mpi.three_blocks a b c) (Ptr 0) i = mjoin (a !! i).
Proof. unfold load, peek. by rewrite three_blocks_x. Qed.

Lemma load_y (a b c : list cell) i : load (Mpi.three_blocks a b c) (Ptr 1) i = mjoin (b !! i).
Proof. unfold load, peek. by rewrite three_blocks_y. Qed.

(** Writing the first [j] cells of a block one after the other. *)
Lemma insert_written (vs : list float) (rest : list cell) (j : nat) v c :
  (j = length vs) →
  <[j := Some v]> ((Some <$> vs) ++ c :: rest) = (Some <$> (vs ++ [v])) ++ rest.
Proof.
  intros ->. rewrite fmap_app, <- app_assoc. simpl.
  rewrite <- (length_fmap Some vs) at 1.
  by rewrite (insert_app_r_alt _ _ _ _), Nat.sub_diag by lia.
Qed.

Lemma Allocate_vectors_start e (k r : nat) :
  (3 * Z.of_nat k ≤ Mpi.memory e r)%Z →
  Mpi.Allocate_vectors (Z.of_nat k) (Mpi.start e r)
  = Returns (Mpi.at_work e k r (replicate k None) (replicate k None) 3 0 0 [] []).
Proof.
  intros Hmem. unfold Mpi.Allocate_vectors, Mpi.malloc, Mpi.start. cbn.
  destruct (Z.ltb_spec (Z.of_nat k) 0); [lia|].
  destruct (Z.ltb_spec (Mpi.memory e r) (Z.of_nat k)); [lia|]. cbn.
  destruct (Z.ltb_spec (Mpi.memory e r - Z.of_nat k) (Z.of_nat k)); [lia|]. cbn.
  destruct (Z.ltb_spec (Mpi.memory e r - Z.of_nat k - Z.of_nat k) (Z.of_nat k)); [lia|]. cbn.
  by rewrite Nat2Z.id.
Qed.

Lemma allocate_all_start e (k : nat) : ∀ W s,
  (∀ r, (s ≤ r < s + W)%nat → (3 * Z.of_nat k ≤ Mpi.memory e r)%Z) →
  Mpi.allocate_all (Z.of_nat k) (Mpi.start e <$> seq s W)
  = Returns ((λ r, Mpi.at_work e k r (replicate k None) (replicate k None) 3 0 0 [] [])
               <$> seq s W).
Proof.
  induction W as [|W IH]; intros s Hmem; [done|].
  cbn [seq fmap list_fmap Mpi.allocate_all].
  rewrite Allocate_vectors_start by (apply Hmem; lia).
  change (list_fmap _ _ (Mpi.start e) (seq (S s) W)) with (Mpi.start e <$> seq (S s) W).
  rewrite IH by (intros; apply Hmem; lia). done.
Qed.

Lemma each_seq (f : nat → Mpi.proc → option Mpi.proc) (g g' : nat → Mpi.proc) : ∀ W s,
  (∀ r, (s ≤ r < s + W)%nat → f r (g r) = Some (g' r)) →
  Mpi.each f s (g <$> seq s W) = Some (g' <$> seq s W).
Proof.
  induction W as [|W IH]; intros s Hf; [done|].
  cbn [seq fmap list_fmap Mpi.each]. rewrite Hf by lia. cbn [mbind option_bind].
  change (list_fmap _ _ g (seq (S s) W)) with (g <$> seq (S s) W).
  rewrite IH by (intros; apply Hf; lia). done.
Qed.

Lemma drawn_x_S e j r :
  Mpi.drawn_x e (S j) r = Mpi.drawn_x e j r ++ [Z.rem (Mpi.rand e r (2 * j)) 100].
Proof. unfold Mpi.drawn_x. by rewrite seq_S, fmap_app. Qed.

Lemma drawn_y_S e j r :
  Mpi.drawn_y e (S j) r = Mpi.drawn_y e j r ++ [Z.rem (Mpi.rand e r (S (2 * j))) 100].
Proof. unfold Mpi.drawn_y. by rewrite seq_S, fmap_app. Qed.

Lemma length_drawn_x e k r : length (Mpi.drawn_x e k r) = k.
Proof. unfold Mpi.drawn_x. by rewrite length_fmap, length_seq. Qed.

Lemma length_drawn_y e k r : length (Mpi.drawn_y e k r) = k.
Proof. unfold Mpi.drawn_y. by rewrite length_fmap, length_seq. Qed.

(** The loop of lines 57 to 60 fills the two blocks with the integers
    drawn. *)
Lemma generate_at_work e (k r : nat) next d cs out :
  Mpi.generate e (Z.of_nat k) r
    (Mpi.at_work e k r (replicate k None) (replicate k None) next 0 d cs out)
  = Some (Mpi.at_work e k r
            (Some <$> (double_of_int <$> Mpi.drawn_x e k r))
            (Some <$> (double_of_int <$> Mpi.drawn_y e k r))
            next (2 * k) d cs out).
Proof.
  unfold Mpi.generate.
  destruct (for_loop_inv
    (λ i p,
       h1 ← store (Mpi.mem p) (Mpi.local_x p) i
               (double_of_int (Z.rem (Mpi.rand e r (Mpi.rand_calls p)) 100));
       h2 ← store h1 (Mpi.local_y p) i
               (double_of_int (Z.rem (Mpi.rand e r (S (Mpi.rand_calls p))) 100));
       Some (Mpi.drew 2 (Mpi.with_mem h2 p)))
    (λ j p, p = Mpi.at_work e k r
                  ((Some <$> (double_of_int <$> Mpi.drawn_x e j r)) ++ replicate (k - j) None)
                  ((Some <$> (double_of_int <$> Mpi.drawn_y e j r)) ++ replicate (k - j) None)
                  next (2 * j) d cs out)
    (Z.of_nat k)
    (Mpi.at_work e k r (replicate k None) (replicate k None) next 0 d cs out))
    as (p' & -> & ->).
  - by rewrite Nat.sub_0_r.
  - rewrite Nat2Z.id. intros j p Hj ->.
    cbn [Mpi.at_work Mpi.mem Mpi.local_x Mpi.local_y Mpi.rand_calls].
    replace (k - j)%nat with (S (k - S j)) by lia. cbn [replicate].
    rewrite store_x by (rewrite length_app, !length_fmap, length_drawn_x; simpl; lia).
    cbn [mbind option_bind].
    rewrite store_y by (rewrite length_app, !length_fmap, length_drawn_y; simpl; lia).
    cbn [mbind option_bind].
    eexists. split; [done|].
    rewrite !insert_written by (by rewrite length_fmap, ?length_drawn_x, ?length_drawn_y).
    rewrite drawn_x_S, drawn_y_S, !fmap_app. cbn [fmap list_fmap].
    unfold Mpi.drew, Mpi.with_mem, Mpi.at_work. cbn. f_equal. lia.
  - rewrite Nat2Z.id, Nat.sub_diag. cbn [replicate]. by rewrite !app_nil_r.
Qed.

Lemma read_cells_x (a b c : list cell) :
  read_cells (Mpi.three_blocks a b c) (Ptr 0) (length a) = Some a.
Proof. apply read_cells_block, three_blocks_x. Qed.

Lemma read_cells_y (a b c : list cell) :
  read_cells (Mpi.three_blocks a b c) (Ptr 1) (length b) = Some b.
Proof. apply read_cells_block, three_blocks_y. Qed.

Lemma read_cells_x_k (a b c : list cell) k :
  length a = k → read_cells (Mpi.three_blocks a b c) (Ptr 0) k = Some a.
Proof. intros <-. apply read_cells_x. Qed.

Lemma read_cells_y_k (a b c : list cell) k :
  length b = k → read_cells (Mpi.three_blocks a b c) (Ptr 1) k = Some b.
Proof. intros <-. apply read_cells_y. Qed.

(** [Print_vector] on a run at work: rank 0 prints the cells [C r] the
    ranks hold, in rank order. *)
Lemma Print_vector_at_work (local_b : Mpi.proc → ptr) e (k W : nat) title
    (a b : list cell) next draws d cs out (g : nat → Mpi.proc) (C : nat → list cell) :
  (3 ≤ next)%N →
  (Z.of_nat (S W * k) ≤ Mpi.memory e 0 - Z.of_nat k - Z.of_nat k - Z.of_nat k)%Z →
  read_cells (Mpi.three_blocks a b (replicate k None))
             (local_b (Mpi.at_work e k 0 a b next draws d cs out)) k = Some (C 0%nat) →
  (∀ r, read_cells (Mpi.mem (g r)) (local_b (g r)) k = Some (C r)) →
  Mpi.Print_vector local_b (Z.of_nat k) (Z.of_nat (S W * k)) title
    (Mpi.at_work e k 0 a b next draws d cs out :: (g <$> seq 1 W))
  = Some (Mpi.at_work e k 0 a b (next + 1) draws d (cs ++ [Mpi.Gather])
            (out ++ Mpi.Title title
                 :: (Mpi.Number <$> concat (C <$> seq 0 (S W))) ++ [Mpi.Newline])
          :: (Mpi.called Mpi.Gather <$> (g <$> seq 1 W))).
Proof.
  intros Hnext Hmem H0 Hg.
  assert (Hblocks : Forall2 (λ p cs, read_cells (Mpi.mem p) (local_b p) k = Some cs)
            (Mpi.at_work e k 0 a b next draws d cs out :: (g <$> seq 1 W))
            (C <$> seq 0 (S W))).
  { change (C <$> seq 0 (S W)) with (C 0%nat :: (C <$> seq 1 W)).
    constructor; [exact H0|]. apply Forall2_fmap, Forall_Forall2_diag, Forall_forall.
    intros r _. apply Hg. }
  pose proof (Print_vector_gathers local_b k title _ _ _ Hblocks
       ltac:(by apply three_blocks_fresh)
       ltac:(cbn [length]; rewrite length_fmap, length_seq; exact Hmem)) as HP.
  cbn [length] in HP. rewrite length_fmap, length_seq in HP. exact HP.
Qed.

(** The loop of [Parallel_scalar_multiplication] on the blocks of a
    process at work. *)
Lemma scalar_multiplication_at_work (X Y : list float) (c : list cell) s (k : nat) :
  length X = k → length Y = k →
  Mpi.Parallel_scalar_multiplication (Ptr 0) (Ptr 1) s (Z.of_nat k)
    (Mpi.three_blocks (Some <$> X) (Some <$> Y) c)
  = Some (Mpi.three_blocks (Some <$> ((λ v, v * s)%float <$> X))
                           (Some <$> ((λ v, v * s)%float <$> Y)) c).
Proof.
  intros HX HY. unfold Mpi.Parallel_scalar_multiplication.
  destruct (for_loop_inv
    (λ i h, xi ← load h (Ptr 0) i; h1 ← store h (Ptr 0) i (xi * s)%float;
            yi ← load h1 (Ptr 1) i; store h1 (Ptr 1) i (yi * s)%float)
    (λ j h, h = Mpi.three_blocks
                  ((Some <$> ((λ v, v * s)%float <$> take j X)) ++ (Some <$> drop j X))
                  ((Some <$> ((λ v, v * s)%float <$> take j Y)) ++ (Some <$> drop j Y)) c)
    (Z.of_nat k) (Mpi.three_blocks (Some <$> X) (Some <$> Y) c))
    as (h' & -> & ->).
  - done.
  - rewrite Nat2Z.id. intros j h Hj ->.
    destruct (lookup_lt_is_Some_2 X j ltac:(lia)) as [xj Hxj].
    destruct (lookup_lt_is_Some_2 Y j ltac:(lia)) as [yj Hyj].
    rewrite (drop_S X xj j Hxj), (drop_S Y yj j Hyj). cbn [fmap list_fmap].
    assert (Hlx : length (Some <$> ((λ v, v * s)%float <$> take j X)) = j)
      by (rewrite !length_fmap, length_take; lia).
    assert (Hly : length (Some <$> ((λ v, v * s)%float <$> take j Y)) = j)
      by (rewrite !length_fmap, length_take; lia).
    rewrite load_x, lookup_app_r, Hlx, Nat.sub_diag by lia.
    cbn [lookup list_lookup mjoin option_join mbind option_bind].
    rewrite store_x by (rewrite length_app, Hlx; simpl; lia). cbn [mbind option_bind].
    rewrite load_y, lookup_app_r, Hly, Nat.sub_diag by lia.
    cbn [lookup list_lookup mjoin option_join mbind option_bind].
    rewrite store_y by (rewrite length_app, Hly; simpl; lia).
    eexists. split; [done|].
    rewrite !insert_written by (rewrite length_fmap, length_take; lia).
    by rewrite (take_S_r X j xj), (take_S_r Y j yj), !fmap_app by done.
  - rewrite Nat2Z.id, !take_ge, !drop_ge by lia. cbn [fmap list_fmap]. by rewrite !app_nil_r.
Qed.

Lemma scale_at_work e (k r : nat) (X Y : list float) s next draws d cs out :
  length X = k → length Y = k →
  Mpi.scale s (Z.of_nat k) (Mpi.at_work e k r (Some <$> X) (Some <$> Y) next draws d cs out)
  = Some (Mpi.at_work e k r (Some <$> ((λ v, v * s)%float <$> X))
                      (Some <$> ((λ v, v * s)%float <$> Y)) next draws d cs out).
Proof.
  intros HX HY. unfold Mpi.scale. cbn [Mpi.at_work Mpi.mem Mpi.local_x Mpi.local_y].
  by rewrite scalar_multiplication_at_work.
Qed.

Lemma owns_at_work e (k r : nat) (xs ys : list Z) next draws d cs out :
  length xs = k → length ys = k →
  Mpi.owns (Z.of_nat k)
    (Mpi.at_work e k r (Some <$> (double_of_int <$> xs)) (Some <$> (double_of_int <$> ys))
       next draws d cs out)
    (Mpi.as_doubles (xs, ys)).
Proof.
  intros Hx Hy. unfold Mpi.owns, Mpi.as_doubles. cbn. rewrite Nat2Z.id, !length_fmap.
  split_and!; [done..| |].
  - apply (holds_block _ 0%N _ []). by rewrite three_blocks_x, app_nil_r.
  - apply (holds_block _ 1%N _ []). by rewrite three_blocks_y, app_nil_r.
Qed.

Lemma int_dot_bound xs ys :
  Forall (λ v, 0 ≤ v < 100)%Z xs → Forall (λ v, 0 ≤ v < 100)%Z ys →
  (int_dot xs ys ≤ 9801 * Z.of_nat (length xs))%Z.
Proof.
  intros Hxs. revert ys. induction Hxs as [|x xs Hx _ IH]; intros ys Hys; [done|].
  destruct Hys as [|y ys Hy Hys]; [unfold int_dot, total; simpl; lia|].
  specialize (IH ys Hys).
  change (int_dot (x :: xs) (y :: ys)) with (x * y + int_dot xs ys)%Z.
  rewrite length_cons. nia.
Qed.

Lemma drawn_x_range e k r :
  (∀ i, 0 ≤ Mpi.rand e r i)%Z → Forall (λ v, 0 ≤ v < 100)%Z (Mpi.drawn_x e k r).
Proof.
  intros Hr. apply Forall_fmap, Forall_forall. intros i _. simpl.
  apply Z.rem_bound_pos; [apply Hr|lia].
Qed.

Lemma drawn_y_range e k r :
  (∀ i, 0 ≤ Mpi.rand e r i)%Z → Forall (λ v, 0 ≤ v < 100)%Z (Mpi.drawn_y e k r).
Proof.
  intros Hr. apply Forall_fmap, Forall_forall. intros i _. simpl.
  apply Z.rem_bound_pos; [apply Hr|lia].
Qed.

Lemma concat_fmap_blocks {A B} (f : A → B) (ls : list (list A)) :
  concat ((λ l : list A, f <$> l) <$> ls) = f <$> concat ls.
Proof.
  induction ls as [|l ls IH]; [done|].
  rewrite fmap_cons. cbn [concat]. by rewrite fmap_app, IH.
Qed.

Lemma concat_seq_fmap {A B} (F : nat → list A) (f : A → B) (l : list nat) :
  concat ((λ r, f <$> F r) <$> l) = f <$> concat (F <$> l).
Proof.
  induction l as [|r l IH]; [done|].
  rewrite !fmap_cons. cbn [concat]. by rewrite fmap_app, IH.
Qed.

Lemma fmap_seq_const {A} (F : nat → A) (c : A) (W s : nat) :
  (∀ r, F r = c) → F <$> seq s W = replicate W c.
Proof.
  intros HF. revert s. induction W as [|W IH]; intros s; [done|].
  cbn [seq replicate]. rewrite fmap_cons, HF. f_equal. apply IH.
Qed.

Lemma whole_x_drawn e k W : Mpi.whole_x (Mpi.drawn e k W) = concat (Mpi.drawn_x e k <$> seq 0 W).
Proof. unfold Mpi.whole_x, Mpi.drawn. by rewrite <- list_fmap_compose. Qed.

Lemma whole_y_drawn e k W : Mpi.whole_y (Mpi.drawn e k W) = concat (Mpi.drawn_y e k <$> seq 0 W).
Proof. unfold Mpi.whole_y, Mpi.drawn. by rewrite <- list_fmap_compose. Qed.

(** The reduction on the vectors [main] generates, for blocks that
    cover at most [n] elements: the exact dot product, whatever the
    schedule. *)
Lemma Parallel_dot_product_at_work e (k W : nat) s (p0 : Mpi.proc) (g : nat → Mpi.proc) :
  Mpi.schedule_for (S W) s →
  (Z.of_nat (S W * k) ≤ Mpi.n)%Z →
  (∀ r i, 0 ≤ Mpi.rand e r i)%Z →
  Mpi.owns (Z.of_nat k) p0 (Mpi.as_doubles (Mpi.drawn_x e k 0, Mpi.drawn_y e k 0)) →
  (∀ r, Mpi.owns (Z.of_nat k) (g r) (Mpi.as_doubles (Mpi.drawn_x e k r, Mpi.drawn_y e k r))) →
  Mpi.Parallel_dot_product s (Z.of_nat k) (p0 :: (g <$> seq 1 W))
  = Some (double_of_int (int_dot (Mpi.whole_x (Mpi.drawn e k (S W)))
                                 (Mpi.whole_y (Mpi.drawn e k (S W))))
          :: replicate W 0%float).
Proof.
  intros Hs Hn Hrand H0 Hg.
  rewrite (Parallel_dot_product_integers s (Z.of_nat k) p0 (g <$> seq 1 W)
             (Mpi.drawn e k (S W))).
  - by rewrite length_fmap, length_seq.
  - cbn [length]. by rewrite length_fmap, length_seq.
  - unfold Mpi.drawn. change (seq 0 (S W)) with (0%nat :: seq 1 W). rewrite !fmap_cons.
    constructor; [exact H0|]. rewrite <- !list_fmap_compose.
    apply Forall2_fmap, Forall_Forall2_diag, Forall_forall. intros r _. apply Hg.
  - apply Forall_fmap, Forall_forall. intros r _. simpl. split.
    + eapply Forall_impl; [by apply drawn_x_range|]. simpl. lia.
    + eapply Forall_impl; [by apply drawn_y_range|]. simpl. lia.
  - rewrite whole_x_drawn, whole_y_drawn.
    assert (Hx : Forall (λ v, 0 ≤ v < 100)%Z (concat (Mpi.drawn_x e k <$> seq 0 (S W))))
      by (apply Forall_concat_blocks, Forall_fmap, Forall_forall; intros;
          by apply drawn_x_range).
    assert (Hy : Forall (λ v, 0 ≤ v < 100)%Z (concat (Mpi.drawn_y e k <$> seq 0 (S W))))
      by (apply Forall_concat_blocks, Forall_fmap, Forall_forall; intros;
          by apply drawn_y_range).
    pose proof (int_dot_bound _ _ Hx Hy) as Hb.
    rewrite (length_concat_uniform k), length_fmap, length_seq in Hb.
    + unfold Mpi.n in Hn. lia.
    + apply Forall_fmap, Forall_forall. intros r _. apply length_drawn_x.
Qed.

(** The whole of [main] when [comm_sz] divides [n = 20], the blocks fit
    at every rank, the gather buffer fits at rank 0 and [rand()] is
    non-negative: every process returns 0; rank 0 prints the two
    vectors as drawn, the two vectors scaled by 2.5, the dot product,
    which is exactly the integer dot product of the drawn vectors under
    any schedule of the reduction, and the elapsed time; the other
    ranks print nothing; every rank makes the same six collective
    calls; all blocks are freed. *)
Theorem main_on_even_partition e (k : nat) :
  (0 < Mpi.comm_sz e)%nat →
  Z.of_nat (Mpi.comm_sz e * k) = Mpi.n →
  Mpi.schedule_for (Mpi.comm_sz e) (Mpi.reduction e) →
  (∀ r, 3 * Z.of_nat k ≤ Mpi.memory e r)%Z →
  (3 * Z.of_nat k + Mpi.n ≤ Mpi.memory e 0)%Z →
  (∀ r i, 0 ≤ Mpi.rand e r i)%Z →
  ∃ w,
    Mpi.main e = Mpi.Finished 0 w
    ∧ Mpi.stdout <$> w
      = Mpi.report (Mpi.whole_x (Mpi.drawn e k (Mpi.comm_sz e)))
                   (Mpi.whole_y (Mpi.drawn e k (Mpi.comm_sz e)))
        :: replicate (Mpi.comm_sz e - 1) []
    ∧ Mpi.calls <$> w
      = replicate (Mpi.comm_sz e)
          [Mpi.Barrier; Mpi.Gather; Mpi.Gather; Mpi.Reduce; Mpi.Gather; Mpi.Gather]
    ∧ Mpi.mem <$> w = replicate (Mpi.comm_sz e) ∅.
Proof.
  intros HW Hn Hs Hmem Hmem0 Hrand.
  unfold Mpi.main, Mpi.main_body.
  destruct (Mpi.comm_sz e) as [|W] eqn:HeW; [lia|]. clear HW.
  assert (Hk : Mpi.block_length Mpi.n (S W) = Z.of_nat k).
  { unfold Mpi.block_length. rewrite <- Hn, Nat2Z.inj_mul, Z.mul_comm. apply Z.quot_mul. lia. }
  rewrite Hk, allocate_all_start by (intros; apply Hmem).
  unfold Mpi.compute.
  rewrite (each_seq _ _ _ (S W) 0 (λ r _, generate_at_work e k r 3 0 [] [])).
  cbn [mbind option_bind]. rewrite <- list_fmap_compose.
  cbn [seq fmap list_fmap compose].
  set (X := λ r, double_of_int <$> Mpi.drawn_x e k r).
  set (Y := λ r, double_of_int <$> Mpi.drawn_y e k r).
  assert (HX : ∀ r, length (X r) = k)
    by (intros; unfold X; by rewrite length_fmap, length_drawn_x).
  assert (HY : ∀ r, length (Y r) = k)
    by (intros; unfold Y; by rewrite length_fmap, length_drawn_y).
  change (Mpi.called Mpi.Barrier (Mpi.at_work e k 0 ?a ?b 3 ?dr 0 [] []))
    with (Mpi.at_work e k 0 a b 3 dr 0 [Mpi.Barrier] []).
  rewrite <- Hn in Hmem0 |- *.
  (* the two vectors, as generated *)
  rewrite (Print_vector_at_work Mpi.local_x e k W _ _ _ _ _ _ _ _ _ (λ r, Some <$> X r));
    [|lia|lia|by apply read_cells_x_k; rewrite length_fmap
     |by intros r; apply read_cells_x_k; rewrite length_fmap].
  cbn [mbind option_bind]. rewrite <- (list_fmap_compose _ (Mpi.called Mpi.Gather)).
  rewrite (Print_vector_at_work Mpi.local_y e k W _ _ _ _ _ _ _ _ _ (λ r, Some <$> Y r));
    [|lia|lia|by apply read_cells_y_k; rewrite length_fmap
     |by intros r; apply read_cells_y_k; rewrite length_fmap].
  cbn [mbind option_bind]. rewrite <- (list_fmap_compose _ (Mpi.called Mpi.Gather)).
  (* the dot product *)
  rewrite (Parallel_dot_product_at_work e k W) by
    (done || lia || (intros; apply owns_at_work; auto using length_drawn_x, length_drawn_y)).
  cbn [mbind option_bind zip_with].
  rewrite zip_with_replicate_l by (by rewrite length_fmap, length_seq).
  rewrite <- (list_fmap_compose _ (λ p, Mpi.called Mpi.Reduce (Mpi.with_dot_product 0 p))).
  (* the scaling *)
  cbn [Mpi.each].
  change (Mpi.called Mpi.Reduce (Mpi.with_dot_product ?v
            (Mpi.at_work e k 0 ?a ?b ?nx ?dr ?d0 ?cs ?out)))
    with (Mpi.at_work e k 0 a b nx dr v (cs ++ [Mpi.Reduce]) out).
  rewrite (scale_at_work e k 0 (X 0%nat) (Y 0%nat)) by done. cbn [mbind option_bind].
  rewrite (each_seq _ _
             (λ r, Mpi.at_work e k r (Some <$> ((λ v, v * Mpi.scalar)%float <$> X r))
                     (Some <$> ((λ v, v * Mpi.scalar)%float <$> Y r)) 3 (2 * k) 0
                     [Mpi.Barrier; Mpi.Gather; Mpi.Gather; Mpi.Reduce] []) W 1)
    by (intros r _; exact (scale_at_work e k r (X r) (Y r) Mpi.scalar 3 (2 * k) 0
                             [Mpi.Barrier; Mpi.Gather; Mpi.Gather; Mpi.Reduce] []
                             (HX r) (HY r))).
  cbn [mbind option_bind].
  (* the two vectors, scaled *)
  rewrite (Print_vector_at_work Mpi.local_x e k W _ _ _ _ _ _ _ _ _
             (λ r, Some <$> ((λ v, v * Mpi.scalar)%float <$> X r)));
    [|lia|lia|by apply read_cells_x_k; rewrite !length_fmap
     |by intros r; apply read_cells_x_k; rewrite !length_fmap].
  cbn [mbind option_bind]. rewrite <- (list_fmap_compose _ (Mpi.called Mpi.Gather)).
  rewrite (Print_vector_at_work Mpi.local_y e k W _ _ _ _ _ _ _ _ _
             (λ r, Some <$> ((λ v, v * Mpi.scalar)%float <$> Y r)));
    [|lia|lia|by apply read_cells_y_k; rewrite !length_fmap
     |by intros r; apply read_cells_y_k; rewrite !length_fmap].
  cbn [mbind option_bind Mpi.at_root]. rewrite <- (list_fmap_compose _ (Mpi.called Mpi.Gather)).
  eexists. split; [reflexivity|].
  rewrite !fmap_cons, <- !list_fmap_compose.
  replace (S W - 1)%nat with W by lia.
  split; [|split].
  - f_equal; [|by apply fmap_seq_const].
    cbn [Mpi.stdout Mpi.free Mpi.printed Mpi.at_work Mpi.local_x Mpi.local_y Mpi.local_z
         Mpi.dot_product].
    unfold Mpi.report, Mpi.line, X, Y.
    rewrite whole_x_drawn, whole_y_drawn.
    rewrite !(concat_seq_fmap _ Some), !(concat_seq_fmap _ (λ v, v * Mpi.scalar)%float),
      !(concat_seq_fmap _ double_of_int).
    rewrite <- !(list_fmap_compose double_of_int).
    repeat (cbn [app]; rewrite <- ?app_assoc). done.
  - cbn [replicate]. apply (f_equal2 cons); [done|]. by apply fmap_seq_const.
  - cbn [replicate]. apply (f_equal2 cons); [done|]. by apply fmap_seq_const.
Qed.

(** On four processes, blocks of five. *)
Lemma main_on_even_partition_witness :
  ∃ w, Mpi.main (Mpi.launch 4) = Mpi.Finished 0 w
    ∧ Mpi.stdout <$> w
      = Mpi.report (Mpi.whole_x (Mpi.drawn (Mpi.launch 4) 5 4))
                   (Mpi.whole_y (Mpi.drawn (Mpi.launch 4) 5 4))
        :: replicate 3 []
    ∧ Mpi.calls <$> w
      = replicate 4 [Mpi.Barrier; Mpi.Gather; Mpi.Gather; Mpi.Reduce; Mpi.Gather; Mpi.Gather]
    ∧ Mpi.mem <$> w = replicate 4 ∅.
Proof.
  apply (main_on_even_partition (Mpi.launch 4) 5).
  - vm_compute. lia.
  - reflexivity.
  - apply Permutation_refl.
  - intros r. vm_compute. discriminate.
  - vm_compute. discriminate.
  - intros r i. apply Nat2Z.is_nonneg.
Defined.

(** * The sequential program: allocation, input, output and [main] *)

(** [Allocate_vectors] with room for the three blocks, and without. *)
Lemma sequential_Allocate_vectors_returns n (p : Seq.process) :
  (0 ≤ n)%Z → (3 * n ≤ Seq.avail p)%Z →
  Seq.Allocate_vectors n p
  = Returns (Ptr (Seq.brk p), Ptr (Seq.brk p + 1), Ptr (Seq.brk p + 1 + 1),
             Seq.Process
               (<[(Seq.brk p + 1 + 1)%N := replicate (Z.to_nat n) None]>
                  (<[(Seq.brk p + 1)%N := replicate (Z.to_nat n) None]>
                     (<[Seq.brk p := replicate (Z.to_nat n) None]> (Seq.mem p))))
               (Seq.brk p + 1 + 1 + 1)%N (Seq.avail p - n - n - n)%Z
               (Seq.rand_calls p) (Seq.stdin p) (Seq.stdout p)).
Proof.
  intros Hn Hp. unfold Seq.Allocate_vectors, Seq.malloc.
  repeat (match goal with
          | |- context [(?a <? ?b)%Z] => destruct (Z.ltb_spec a b)
          end; cbn [orb Seq.avail Seq.brk Seq.mem Seq.rand_calls Seq.stdin Seq.stdout] in *);
    try done; lia.
Qed.

Lemma sequential_Allocate_vectors_exits n (p : Seq.process) :
  (n < 0 ∨ Seq.avail p < 3 * n)%Z →
  Seq.Allocate_vectors n p = Exits (-1) "Can't allocate vectors
"%string.
Proof.
  intros Hp. unfold Seq.Allocate_vectors, Seq.malloc.
  repeat (match goal with
          | |- context [(?a <? ?b)%Z] => destruct (Z.ltb_spec a b)
          end; cbn [orb Seq.avail Seq.brk Seq.mem Seq.rand_calls Seq.stdin Seq.stdout] in *);
    try done; lia.
Qed.

(** [Allocate_vectors] of the sequential program returns exactly when
    [0 <= n] and three blocks of [n] cells fit: the blocks are then
    three new ones, of [n] indeterminate cells each, and nothing else
    changes.  Otherwise the process exits with status [-1] and the
    message. *)
Theorem sequential_Allocate_vectors n (p : Seq.process) :
  Seq.Allocate_vectors n p
  = if decide (0 ≤ n ∧ 3 * n ≤ Seq.avail p)%Z
    then Returns (Ptr (Seq.brk p), Ptr (Seq.brk p + 1), Ptr (Seq.brk p + 1 + 1),
                  Seq.Process
                    (<[(Seq.brk p + 1 + 1)%N := replicate (Z.to_nat n) None]>
                       (<[(Seq.brk p + 1)%N := replicate (Z.to_nat n) None]>
                          (<[Seq.brk p := replicate (Z.to_nat n) None]> (Seq.mem p))))
                    (Seq.brk p + 1 + 1 + 1)%N (Seq.avail p - n - n - n)%Z
                    (Seq.rand_calls p) (Seq.stdin p) (Seq.stdout p))
    else Exits (-1) "Can't allocate vectors
"%string.
Proof.
  case_decide as H.
  - destruct H. by apply sequential_Allocate_vectors_returns.
  - apply sequential_Allocate_vectors_exits. lia.
Qed.

Lemma length_stored found : ∀ old, length (Seq.stored found old) = length old.
Proof.
  induction found as [|[v|] found IH]; intros [|c old]; simpl; by rewrite ?IH.
Qed.

Lemma stored_number found v : ∀ old,
  (length found < length old)%nat →
  Seq.stored (found ++ [Some v]) old = <[length found := Some v]> (Seq.stored found old).
Proof.
  induction found as [|[w|] found IH]; intros [|c old] Hlen; simpl in *; try lia;
    try (by rewrite IH by lia).
  done.
Qed.

Lemma stored_failure found : ∀ old,
  Seq.stored (found ++ [None]) old = Seq.stored found old.
Proof.
  induction found as [|[w|] found IH]; intros [|c old]; simpl; try done;
    by rewrite IH.
Qed.

Lemma lookup_stored found : ∀ old i,
  Seq.stored found old !! i
  = match found !! i with
    | Some (Some v) => (λ _, Some v) <$> old !! i
    | _ => old !! i
    end.
Proof.
  induction found as [|[w|] found IH]; intros [|c old] [|i]; simpl; try done;
    try apply IH; by destruct (found !! i) as [[?|]|].
Qed.

(** The process after [Read_vector] into a block of at least [n]
    cells. *)
Lemma Read_vector_block (b : N) (k : nat) (name : string) (p : Seq.process)
    (old : list cell) :
  Seq.mem p !! b = Some old → (k ≤ length old)%nat →
  Seq.Read_vector (Ptr b) (Z.of_nat k) name p
  = Some (Seq.Process
            (<[b := Seq.stored (take k (Seq.stdin p)) old]> (Seq.mem p))
            (Seq.brk p) (Seq.avail p) (Seq.rand_calls p)
            (drop k (Seq.stdin p))
            (Seq.stdout p ++ [Seq.Line ("Enter the vector " ++ name)])).
Proof.
  intros Hb Hk. unfold Seq.Read_vector.
  set (I := λ (j : nat) (q : Seq.process),
         q = Seq.Process
               (<[b := Seq.stored (take j (Seq.stdin p)) old]> (Seq.mem p))
               (Seq.brk p) (Seq.avail p) (Seq.rand_calls p)
               (drop j (Seq.stdin p))
               (Seq.stdout p ++ [Seq.Line ("Enter the vector " ++ name)])).
  destruct (for_loop_inv
    (λ i q,
       match Seq.stdin q with
       | [] => Some q
       | None :: rest => Some (Seq.with_stdin rest q)
       | Some v :: rest =>
           h ← store (Seq.mem q) (Ptr b) i v; Some (Seq.with_stdin rest (Seq.with_mem h q))
       end) I (Z.of_nat k)
    (Seq.printed [Seq.Line ("Enter the vector " ++ name)] p)) as (q & -> & Hq).
  - unfold I, Seq.printed. rewrite take_0, drop_0. cbn [Seq.stored].
    by rewrite insert_id.
  - rewrite Nat2Z.id. intros j q Hj ->. cbn [Seq.stdin Seq.mem].
    destruct (Seq.stdin p !! j) as [o|] eqn:Ho.
    + rewrite (drop_S _ _ _ Ho).
      assert (Hlt : (j < length (Seq.stdin p))%nat) by (by eapply lookup_lt_Some).
      assert (Hj' : length (take j (Seq.stdin p)) = j) by (rewrite length_take_le; lia).
      destruct o as [v|].
      * unfold store.
        rewrite (poke_block _ b (Seq.stored (take j (Seq.stdin p)) old))
          by (rewrite ?lookup_insert_eq, ?length_stored; done || lia).
        cbn [mbind option_bind]. eexists. split; [done|].
        unfold I, Seq.with_stdin, Seq.with_mem.
        cbn [Seq.mem Seq.brk Seq.avail Seq.rand_calls Seq.stdin Seq.stdout].
        rewrite insert_insert_eq, (take_S_r _ _ _ Ho), stored_number by lia.
        by rewrite Hj'.
      * eexists. split; [done|].
        unfold I, Seq.with_stdin.
        cbn [Seq.mem Seq.brk Seq.avail Seq.rand_calls Seq.stdin Seq.stdout].
        by rewrite (take_S_r _ _ _ Ho), stored_failure.
    + apply lookup_ge_None_1 in Ho.
      rewrite (drop_ge (Seq.stdin p)) by lia. eexists. split; [done|].
      unfold I. by rewrite !take_ge, (drop_ge (Seq.stdin p)) by lia.
  - unfold I in Hq. rewrite Nat2Z.id in Hq. by rewrite Hq.
Qed.

(** [Read_vector] into a block of at least [n] cells: the prompt is
    printed, and call [i] of [scanf], for [0 <= i < n], stores in
    [a[i]] the number it finds, if it finds one.  The function never
    looks at what [scanf] returns: a call that finds no number, because
    of what the input holds there or because the input has ended,
    leaves its cell as it was, and the loop goes on.  Every other
    block is unchanged. *)
Theorem Read_vector_reads (b : N) (k : nat) (name : string) (p : Seq.process)
    (old : list cell) :
  Seq.mem p !! b = Some old → (k ≤ length old)%nat →
  ∃ q, Seq.Read_vector (Ptr b) (Z.of_nat k) name p = Some q
       ∧ (∀ i v, (i < k)%nat → Seq.stdin p !! i = Some (Some v) →
                 load (Seq.mem q) (Ptr b) i = Some v)
       ∧ (∀ i, (i < k)%nat → Seq.stdin p !! i = Some None ∨ Seq.stdin p !! i = None →
               peek (Seq.mem q) (Ptr b) i = old !! i)
       ∧ (∀ i, (k ≤ i)%nat → peek (Seq.mem q) (Ptr b) i = old !! i)
       ∧ Seq.stdin q = drop k (Seq.stdin p)
       ∧ (∀ b', b' ≠ b → Seq.mem q !! b' = Seq.mem p !! b')
       ∧ Seq.stdout q = Seq.stdout p ++ [Seq.Line ("Enter the vector " ++ name)].
Proof.
  intros Hb Hk. eexists. split; [by apply (Read_vector_block b k name p old)|].
  cbn [Seq.mem Seq.stdin Seq.stdout]. split_and!; try done.
  - intros i v Hi Hv. unfold load, peek. rewrite lookup_insert_eq. cbn [mbind option_bind].
    rewrite lookup_stored, lookup_take_lt, Hv by done.
    destruct (lookup_lt_is_Some_2 old i ltac:(lia)) as [c ->]. done.
  - intros i Hi Hv. unfold peek. rewrite lookup_insert_eq. cbn [mbind option_bind].
    rewrite lookup_stored, lookup_take_lt by done. by destruct Hv as [-> | ->].
  - intros i Hi. unfold peek. rewrite lookup_insert_eq. cbn [mbind option_bind].
    by rewrite lookup_stored, lookup_take_ge by done.
  - intros b' Hb'. by rewrite lookup_insert_ne.
Qed.

(** Three cells holding 9, 9 and 7, and the input [- 5 6]: the sign
    alone is consumed by a call that stores nothing. *)
Lemma Read_vector_reads_witness :
  let p := Seq.Process {[ 0%N := [Some 9%float; Some 9%float; Some 7%float] ]} 1 0 0
             [None; Some 5%float; Some 6%float] [] in
  ∃ q, Seq.Read_vector (Ptr 0) 3 "x" p = Some q
       ∧ load (Seq.mem q) (Ptr 0) 0 = Some 9%float
       ∧ load (Seq.mem q) (Ptr 0) 1 = Some 5%float
       ∧ load (Seq.mem q) (Ptr 0) 2 = Some 6%float
       ∧ Seq.stdin q = [].
Proof.
  intros p.
  destruct (Read_vector_reads 0%N 3 "x" p [Some 9%float; Some 9%float; Some 7%float]
              eq_refl ltac:(simpl; lia)) as (q & Hq & Hnum & Hfail & _ & Hin & _).
  exists q. split_and!; [exact Hq| | | |exact Hin].
  - apply load_peek. apply (Hfail 0%nat); [lia|by left].
  - apply (Hnum 1%nat); [lia|reflexivity].
  - apply (Hnum 2%nat); [lia|reflexivity].
Defined.

(** The display loop on cells [lo <= i < hi] inside a block. *)
Lemma print_cells_block (b : N) (a : list cell) (lo hi : nat) (p : Seq.process) :
  Seq.mem p !! b = Some a → (lo ≤ hi ≤ length a)%nat →
  Seq.print_cells (Ptr b) (Z.of_nat lo) (Z.of_nat hi) p
  = Some (Seq.printed (Seq.Number <$> take (hi - lo) (drop lo a)) p).
Proof.
  intros Hb Hr. unfold Seq.print_cells.
  rewrite (mapM_Some_2 _ _ (take (hi - lo) (drop lo a))); [done|].
  apply Forall2_same_length_lookup_2.
  { rewrite length_fmap, length_seq, length_take, length_drop. lia. }
  intros i z c Hz Hc. apply list_lookup_fmap_Some in Hz as (j & -> & Hj).
  apply lookup_seq in Hj as [-> Hj]. simpl in Hj |- *.
  destruct (Z.ltb_spec (Z.of_nat lo + Z.of_nat i) 0); [lia|].
  apply lookup_take_Some in Hc as [Hc _]. rewrite lookup_drop in Hc.
  unfold peek. rewrite Hb. simpl.
  by replace (Z.to_nat (Z.of_nat lo + Z.of_nat i)) with (lo + i)%nat by lia.
Qed.

(** The display loop ends exactly when it has no cell to print or its
    cells are inside a block. *)
Lemma print_cells_is_Some (a : ptr) (n : Z) (p : Seq.process) :
  is_Some (Seq.print_cells a 0 n p) ↔ (n ≤ 0)%Z ∨ allocated (Seq.mem p) a (Z.to_nat n).
Proof.
  unfold Seq.print_cells. rewrite Z.sub_0_r. split.
  - intros [q Hq]. destruct (Z.le_gt_cases n 0) as [|Hn]; [by left|right].
    destruct (mapM _ _) as [cells|] eqn:Hcells; [|done].
    apply mapM_Some_1 in Hcells.
    assert (Hlast : ((λ k, 0 + Z.of_nat k)%Z <$> seq 0 (Z.to_nat n)) !! (Z.to_nat n - 1)%nat
                    = Some (Z.of_nat (Z.to_nat n - 1))).
    { rewrite list_lookup_fmap, lookup_seq_lt by lia. done. }
    destruct (Forall2_lookup_l _ _ _ _ _ Hcells Hlast) as (c & _ & Hc).
    destruct (Z.ltb_spec (Z.of_nat (Z.to_nat n - 1)) 0); [lia|].
    rewrite Nat2Z.id in Hc. unfold peek in Hc.
    destruct a as [|b]; [done|]. destruct (Seq.mem p !! b) as [blk|] eqn:Hb; [|done].
    simpl in Hc. apply lookup_lt_Some in Hc. exists b, blk. split_and!; [done..|lia].
  - intros [Hn|(b & blk & -> & Hb & Hlen)].
    + by replace (Z.to_nat n) with 0%nat by lia.
    + destruct (Z.le_gt_cases n 0) as [|Hn].
      { by replace (Z.to_nat n) with 0%nat by lia. }
      pose proof (print_cells_block b blk 0 (Z.to_nat n) p Hb ltac:(lia)) as H.
      rewrite Z2Nat.id in H by lia. unfold Seq.print_cells in H.
      change (Z.of_nat 0) with 0%Z in H. rewrite Z.sub_0_r in H. by rewrite H.
Qed.

(** [Print_vector] prints the title, the first [n] cells of the block
    and a newline, and changes nothing else. *)
Lemma Print_vector_block (b : N) (k : nat) (title : string) (p : Seq.process)
    (a : list cell) :
  Seq.mem p !! b = Some a → (k ≤ length a)%nat →
  Seq.Print_vector (Ptr b) (Z.of_nat k) title p
  = Some (Seq.printed (Seq.Line title :: (Seq.Number <$> take k a) ++ [Seq.Newline]) p).
Proof.
  intros Hb Hk. unfold Seq.Print_vector.
  rewrite (print_cells_block b a 0 k) by (done || lia). cbn [mbind option_bind].
  rewrite Nat.sub_0_r, drop_0. unfold Seq.printed. cbn.
  by rewrite <- !app_assoc.
Qed.

(** [Print_vector] is defined exactly when [n] cells can be read from
    [b]: for [n <= 0], or when [b] is a block of at least [n] cells.
    Through [NULL], a freed block or past the end of a block it is
    not. *)
Theorem Print_vector_defined (b : ptr) (n : Z) (title : string) (p : Seq.process) :
  is_Some (Seq.Print_vector b n title p)
  ↔ (n ≤ 0)%Z ∨ allocated (Seq.mem p) b (Z.to_nat n).
Proof.
  rewrite <- (print_cells_is_Some b n (Seq.printed [Seq.Line title] p)).
  unfold Seq.Print_vector.
  destruct (Seq.print_cells b 0 n _) as [q|]; simpl; split; intros [? ?]; by eauto.
Qed.

(** Round trip: [Print_vector] after [Read_vector] on a block of [n]
    cells prints, after the prompt and the title, at position [i] the
    number call [i] of [scanf] found, and the cell as the block held it
    before where that call found none. *)
Theorem Read_vector_Print_vector (b : N) (k : nat) (name title : string)
    (p : Seq.process) (old : list cell) :
  Seq.mem p !! b = Some old → length old = k →
  Seq.stdout <$> (Seq.Read_vector (Ptr b) (Z.of_nat k) name p
                    ≫= Seq.Print_vector (Ptr b) (Z.of_nat k) title)
  = Some (Seq.stdout p
          ++ [Seq.Line ("Enter the vector " ++ name); Seq.Line title]
          ++ (Seq.Number <$> Seq.stored (Seq.stdin p) old)
          ++ [Seq.Newline]).
Proof.
  intros Hb Hk. rewrite (Read_vector_block b k name p old) by (done || lia).
  cbn [mbind option_bind].
  rewrite (Print_vector_block b k title _ (Seq.stored (take k (Seq.stdin p)) old));
    [|by cbn [Seq.mem]; rewrite lookup_insert_eq|by rewrite length_stored, Hk].
  cbn [fmap option_fmap option_map Seq.printed Seq.stdout]. f_equal.
  rewrite take_ge by (by rewrite length_stored, Hk).
  assert (Seq.stored (take k (Seq.stdin p)) old = Seq.stored (Seq.stdin p) old) as ->.
  { apply list_eq. intros i. rewrite !lookup_stored.
    destruct (decide (i < k)%nat).
    - by rewrite lookup_take_lt.
    - rewrite lookup_take_ge, (lookup_ge_None_2 old) by lia.
      by destruct (Seq.stdin p !! i) as [[?|]|]. }
  by rewrite <- !app_assoc.
Qed.

(** Three cells and the input [- 5 6], then a short input. *)
Lemma Read_vector_Print_vector_witness :
  let p := Seq.Process {[ 0%N := [Some 9%float; Some 9%float; Some 7%float] ]} 1 0 0
             [None; Some 5%float; Some 6%float] [] in
  let q := Seq.Process {[ 0%N := [None; None] ]} 1 0 0 [Some 1.5%float] [] in
  Seq.stdout <$> (Seq.Read_vector (Ptr 0) 3 "x" p ≫= Seq.Print_vector (Ptr 0) 3 "x is")
  = Some [Seq.Line "Enter the vector x"; Seq.Line "x is";
          Seq.Number (Some 9%float); Seq.Number (Some 5%float);
          Seq.Number (Some 6%float); Seq.Newline]
  ∧ Seq.stdout <$> (Seq.Read_vector (Ptr 0) 2 "x" q ≫= Seq.Print_vector (Ptr 0) 2 "x is")
    = Some [Seq.Line "Enter the vector x"; Seq.Line "x is";
            Seq.Number (Some 1.5%float); Seq.Number None; Seq.Newline].
Proof.
  intros p q. split.
  - exact (Read_vector_Print_vector 0%N 3 "x" "x is" p
             [Some 9%float; Some 9%float; Some 7%float] eq_refl eq_refl).
  - exact (Read_vector_Print_vector 0%N 2 "x" "x is" q [None; None] eq_refl eq_refl).
Defined.

(** ** [main] of the sequential program *)

Lemma three_blocks_z (a b c : list cell) : Mpi.three_blocks a b c !! 2%N = Some c.
Proof. unfold Mpi.three_blocks. by rewrite lookup_insert_eq. Qed.

Lemma store_z (a b c : list cell) i v :
  (i < length c)%nat →
  store (Mpi.three_blocks a b c) (Ptr 2) i v
  = Some (Mpi.three_blocks a b (<[i := Some v]> c)).
Proof.
  intros Hi. unfold store. by rewrite (poke_block _ 2%N c) by (by rewrite ?three_blocks_z).
Qed.

Lemma sequential_at_work e k a b c draws out :
  Seq.at_work e k a b c draws out
  = Seq.Process (Mpi.three_blocks a b c) 3%N
      (Seq.memory e - Z.of_nat k - Z.of_nat k - Z.of_nat k)%Z draws (Seq.input e) out.
Proof. reflexivity. Qed.

Lemma sequential_Allocate_vectors_start e (k : nat) :
  (3 * Z.of_nat k ≤ Seq.memory e)%Z →
  Seq.Allocate_vectors (Z.of_nat k) (Seq.start e)
  = Returns (Ptr 0, Ptr 1, Ptr 2,
             Seq.at_work e k (replicate k None) (replicate k None) (replicate k None) 0 []).
Proof.
  intros Hmem.
  rewrite sequential_Allocate_vectors_returns by (cbn [Seq.start Seq.avail]; lia).
  by rewrite Nat2Z.id.
Qed.

(** The values of [x] and [y] after the loop of lines 42 to 45. *)
Lemma sequential_generate e (k : nat) (c : list cell) out :
  Seq.generate e (Ptr 0) (Ptr 1) (Z.of_nat k)
    (Seq.at_work e k (replicate k None) (replicate k None) c 0 out)
  = Some (Seq.at_work e k
            (Some <$> ((λ i, double_of_int (Seq.drawn_x e i)) <$> seq 0 k))
            (Some <$> ((λ i, double_of_int (Seq.drawn_y e i)) <$> seq 0 k))
            c (2 * k) out).
Proof.
  unfold Seq.generate.
  destruct (for_loop_inv
    (λ i p,
       h1 ← store (Seq.mem p) (Ptr 0) i
               (double_of_int (Z.rem (Seq.rand e (Seq.rand_calls p)) 100));
       h2 ← store h1 (Ptr 1) i
               (double_of_int (Z.rem (Seq.rand e (S (Seq.rand_calls p))) 100));
       Some (Seq.drew 2 (Seq.with_mem h2 p)))
    (λ j p, p = Seq.at_work e k
                  ((Some <$> ((λ i, double_of_int (Seq.drawn_x e i)) <$> seq 0 j))
                   ++ replicate (k - j) None)
                  ((Some <$> ((λ i, double_of_int (Seq.drawn_y e i)) <$> seq 0 j))
                   ++ replicate (k - j) None)
                  c (2 * j) out)
    (Z.of_nat k)
    (Seq.at_work e k (replicate k None) (replicate k None) c 0 out))
    as (p' & -> & ->).
  - by rewrite Nat.sub_0_r.
  - rewrite Nat2Z.id. intros j p Hj ->. rewrite sequential_at_work.
    cbn [Seq.mem Seq.rand_calls].
    replace (k - j)%nat with (S (k - S j)) by lia. cbn [replicate].
    rewrite store_x by (rewrite length_app, !length_fmap, length_seq; simpl; lia).
    cbn [mbind option_bind].
    rewrite store_y by (rewrite length_app, !length_fmap, length_seq; simpl; lia).
    cbn [mbind option_bind].
    eexists. split; [done|].
    rewrite !insert_written by (by rewrite length_fmap, length_seq).
    rewrite seq_S, !fmap_app. cbn [fmap list_fmap].
    rewrite sequential_at_work. unfold Seq.drew, Seq.with_mem, Seq.drawn_x, Seq.drawn_y.
    cbn [Seq.mem Seq.brk Seq.avail Seq.rand_calls Seq.stdin Seq.stdout].
    change (0 + j)%nat with j. f_equal. lia.
  - rewrite Nat2Z.id, Nat.sub_diag. cbn [replicate]. by rewrite !app_nil_r.
Qed.

(** [Vector_sum] on the three blocks of [main]. *)
Lemma Vector_sum_three_blocks (X Y : list float) (c : list cell) (k : nat) :
  length X = k → length Y = k → length c = k →
  Seq.Vector_sum (Ptr 0) (Ptr 1) (Ptr 2) (Z.of_nat k)
    (Mpi.three_blocks (Some <$> X) (Some <$> Y) c)
  = Some (Mpi.three_blocks (Some <$> X) (Some <$> Y)
            (Some <$> zip_with (λ a b, a + b)%float X Y)).
Proof.
  intros HX HY Hc. unfold Seq.Vector_sum.
  destruct (for_loop_inv
    (λ i h, xi ← load h (Ptr 0) i; yi ← load h (Ptr 1) i; store h (Ptr 2) i (xi + yi)%float)
    (λ j h, h = Mpi.three_blocks (Some <$> X) (Some <$> Y)
                  ((Some <$> zip_with (λ a b, a + b)%float (take j X) (take j Y))
                   ++ drop j c))
    (Z.of_nat k) (Mpi.three_blocks (Some <$> X) (Some <$> Y) c)) as (h' & -> & ->).
  - by rewrite !take_0, drop_0.
  - rewrite Nat2Z.id. intros j h Hj ->.
    destruct (lookup_lt_is_Some_2 X j ltac:(lia)) as [xj Hxj].
    destruct (lookup_lt_is_Some_2 Y j ltac:(lia)) as [yj Hyj].
    destruct (lookup_lt_is_Some_2 c j ltac:(lia)) as [cj Hcj].
    rewrite load_x, load_y, !list_lookup_fmap, Hxj, Hyj.
    cbn [fmap option_fmap option_map mjoin option_join mbind option_bind].
    rewrite (drop_S _ _ _ Hcj).
    rewrite store_z
      by (rewrite length_app, length_fmap, length_zip_with, !length_take; simpl; lia).
    eexists. split; [done|].
    rewrite insert_written by (rewrite length_zip_with, !length_take; lia).
    rewrite (take_S_r _ _ _ Hxj), (take_S_r _ _ _ Hyj).
    by rewrite zip_with_app by (rewrite !length_take; lia).
  - rewrite Nat2Z.id, !take_ge, drop_ge by lia. by rewrite app_nil_r.
Qed.

(** A display of cells inside a block. *)
Lemma display_block (b : N) (a : list cell) (lo hi : nat) title (p : Seq.process) :
  Seq.mem p !! b = Some a → (lo ≤ hi ≤ length a)%nat →
  Seq.display title (Ptr b) (Z.of_nat lo) (Z.of_nat hi) p
  = Some (Seq.printed
            (Seq.Line title :: (Seq.Number <$> take (hi - lo) (drop lo a)) ++ [Seq.Newline])
            p).
Proof.
  intros Hb Hr. unfold Seq.display.
  rewrite (print_cells_block b a lo hi) by done. cbn [mbind option_bind].
  unfold Seq.printed. cbn. by rewrite <- !app_assoc.
Qed.

Lemma zip_with_fmap_seq {A B C} (f : A → B → C) (g : nat → A) (h : nat → B) (s k : nat) :
  zip_with f (g <$> seq s k) (h <$> seq s k) = (λ i, f (g i) (h i)) <$> seq s k.
Proof. revert s. induction k as [|k IH]; intros s; [done|]. cbn. by rewrite <- IH. Qed.

Lemma take_drop_fmap_seq {A} (g : nat → A) (lo c k : nat) :
  (lo + c ≤ k)%nat → take c (drop lo (g <$> seq 0 k)) = g <$> seq lo c.
Proof.
  intros H. rewrite <- fmap_drop, <- fmap_take, drop_seq, take_seq. simpl.
  by rewrite Nat.min_l by lia.
Qed.

Lemma display_at_work e (k : nat) (a b c : list cell) (v : nat → float) (blk : N)
    (lo hi : nat) title draws out :
  (lo ≤ hi ≤ k)%nat →
  Mpi.three_blocks a b c !! blk = Some (Some <$> (v <$> seq 0 k)) →
  Seq.display title (Ptr blk) (Z.of_nat lo) (Z.of_nat hi) (Seq.at_work e k a b c draws out)
  = Some (Seq.at_work e k a b c draws (out ++ Seq.shown title v lo (hi - lo))).
Proof.
  intros Hr Hb.
  rewrite (display_block blk (Some <$> (v <$> seq 0 k)))
    by (done || by rewrite !length_fmap, length_seq).
  rewrite <- fmap_drop, <- fmap_take, take_drop_fmap_seq by lia. done.
Qed.

Lemma free_at_work e (k : nat) (a b c : list cell) draws out :
  length a = k → length b = k → length c = k →
  Seq.free (Ptr 2) (Seq.free (Ptr 1) (Seq.free (Ptr 0) (Seq.at_work e k a b c draws out)))
  = Seq.Process ∅ 3%N (Seq.memory e) draws (Seq.input e) out.
Proof.
  intros Ha Hb Hc. rewrite sequential_at_work. unfold Seq.free.
  cbn [Seq.mem Seq.brk Seq.avail Seq.rand_calls Seq.stdin Seq.stdout].
  assert (H0 : delete 0%N (Mpi.three_blocks a b c) = <[2%N := c]> (<[1%N := b]> ∅))
    by reflexivity.
  assert (H1 : delete 1%N (<[2%N := c]> (<[1%N := b]> (∅ : heap))) = <[2%N := c]> ∅)
    by reflexivity.
  assert (H2 : delete 2%N (<[2%N := c]> (∅ : heap)) = ∅) by reflexivity.
  rewrite three_blocks_x, H0, lookup_insert_ne, lookup_insert_eq, H1 by done.
  rewrite lookup_insert_eq, H2. cbn [default id]. f_equal. lia.
Qed.

Lemma drawn_x_bounds e i : (∀ j, 0 ≤ Seq.rand e j)%Z → (0 ≤ Seq.drawn_x e i < 100)%Z.
Proof. intros Hr. apply Z.rem_bound_pos; [apply Hr|lia]. Qed.

Lemma drawn_y_bounds e i : (∀ j, 0 ≤ Seq.rand e j)%Z → (0 ≤ Seq.drawn_y e i < 100)%Z.
Proof. intros Hr. apply Z.rem_bound_pos; [apply Hr|lia]. Qed.

(** [main] of the sequential program when the three vectors fit in
    memory and [rand()] is non-negative: it returns 0 after printing
    the first and the last ten elements of [x], of [y] and of [z], where
    [z[i]] is exactly [x[i] + y[i]], and the execution time; it has
    drawn [2 * n] numbers, read nothing from standard input and freed
    the three blocks. *)
Theorem sequential_main_report e :
  (3 * Seq.n ≤ Seq.memory e)%Z → (∀ i, 0 ≤ Seq.rand e i)%Z →
  Seq.main e
  = Seq.Finished 0
      (Seq.Process ∅ 3%N (Seq.memory e) (2 * Z.to_nat Seq.n) (Seq.input e)
         (Seq.report e (Z.to_nat Seq.n))).
Proof.
  intros Hmem Hrand. unfold Seq.main.
  assert (Hn : Seq.n = Z.of_nat (Z.to_nat Seq.n)) by (rewrite Z2Nat.id; [done|by unfold Seq.n]).
  assert (H10 : (10 ≤ Z.to_nat Seq.n)%nat) by (unfold Seq.n; lia).
  revert Hn H10. generalize (Z.to_nat Seq.n). intros k Hn H10. rewrite Hn in Hmem |- *.
  clear Hn.
  rewrite sequential_Allocate_vectors_start by done.
  rewrite sequential_generate. cbn [mbind option_bind].
  set (X := λ i, double_of_int (Seq.drawn_x e i)).
  set (Y := λ i, double_of_int (Seq.drawn_y e i)).
  rewrite sequential_at_work at 1. cbn [Seq.mem].
  rewrite (Vector_sum_three_blocks _ _ _ k)
    by (by rewrite ?length_fmap, ?length_seq, ?length_replicate).
  cbn [mbind option_bind]. rewrite zip_with_fmap_seq.
  set (Zs := λ i, (X i + Y i)%float).
  change (Seq.with_mem (Mpi.three_blocks ?a ?b ?c) (Seq.at_work e k _ _ _ ?d ?o))
    with (Seq.at_work e k a b c d o).
  change 0%Z with (Z.of_nat 0). change 10%Z with (Z.of_nat 10).
  replace (Z.of_nat k - Z.of_nat 10)%Z with (Z.of_nat (k - 10)) by lia.
  rewrite (display_at_work e k _ _ _ X 0%N) by (done || lia). cbn [mbind option_bind].
  rewrite (display_at_work e k _ _ _ X 0%N) by (done || lia). cbn [mbind option_bind].
  rewrite (display_at_work e k _ _ _ Y 1%N) by (done || lia). cbn [mbind option_bind].
  rewrite (display_at_work e k _ _ _ Y 1%N) by (done || lia). cbn [mbind option_bind].
  rewrite (display_at_work e k _ _ _ Zs 2%N) by (done || lia). cbn [mbind option_bind].
  rewrite (display_at_work e k _ _ _ Zs 2%N) by (done || lia). cbn [mbind option_bind].
  change (Seq.printed [Seq.ExecutionTime] (Seq.at_work e k ?a ?b ?c ?d ?o))
    with (Seq.at_work e k a b c d (o ++ [Seq.ExecutionTime])).
  rewrite free_at_work by (by rewrite !length_fmap, length_seq).
  do 2 f_equal. replace (k - (k - 10))%nat with 10%nat by lia.
  assert (HZ : ∀ title lo c,
            Seq.shown title Zs lo c
            = Seq.shown title (λ i, double_of_int (Seq.drawn_x e i + Seq.drawn_y e i)) lo c).
  { intros title lo c. unfold Seq.shown. do 4 f_equal. apply list_fmap_ext. intros _ i _.
    pose proof (drawn_x_bounds e i Hrand). pose proof (drawn_y_bounds e i Hrand).
    unfold Zs, X, Y. apply double_of_int_add; lia. }
  rewrite !HZ. unfold Seq.report. cbn [app Nat.sub]. by rewrite <- !app_assoc.
Qed.

(** Without memory for the three vectors the sequential [main] exits
    with status [-1] and the message of [Allocate_vectors]; nothing has
    been drawn or printed. *)
Theorem sequential_main_exits e :
  (Seq.memory e < 3 * Seq.n)%Z →
  Seq.main e = Seq.Exited (-1) "Can't allocate vectors
"%string.
Proof.
  intros Hmem. unfold Seq.main.
  by rewrite sequential_Allocate_vectors_exits by (cbn [Seq.start Seq.avail]; lia).
Qed.


(** Memory for exactly the three vectors, [rand] counting up. *)
Lemma sequential_main_report_witness :
  let e := Seq.Env Z.of_nat 300000 [] in
  Seq.main e
  = Seq.Finished 0
      (Seq.Process ∅ 3%N 300000 (2 * Z.to_nat Seq.n) [] (Seq.report e (Z.to_nat Seq.n))).
Proof.
  intros e. apply (sequential_main_report e).
  - unfold Seq.n. simpl. lia.
  - intros i. apply Nat2Z.is_nonneg.
Defined.

(** One cell short. *)
Lemma sequential_main_exits_witness :
  Seq.main (Seq.Env Z.of_nat 299999 []) = Seq.Exited (-1) "Can't allocate vectors
"%string.
Proof. apply sequential_main_exits. unfold Seq.n. simpl. lia. Defined.

(** * Symmetries *)

Lemma for_range_ext {S : Type} (f g : nat → S → option S) :
  (∀ i s, f i s = g i s) → ∀ k start s, for_range f start k s = for_range g start k s.
Proof.
  intros Hfg. induction k as [|k IH]; intros start s; [done|].
  cbn [for_range]. rewrite Hfg. destruct (g start s); [apply IH|done].
Qed.

(** [Vector_sum] is symmetric in its two inputs when they hold no NaN:
    with [x] and [y] exchanged it leaves the same memory, and it fails
    on the same memories.  (The sum of two NaNs takes the payload of
    one of them, by the order of the operands; the binary64 of this
    development has one NaN, so that the condition is not used in the
    proof: it is what makes the statement one about the bits the
    program leaves.) *)
Theorem Vector_sum_comm x y z n h :
  (∀ i v, load h x i = Some v → is_nan v = false) →
  (∀ i v, load h y i = Some v → is_nan v = false) →
  Seq.Vector_sum x y z n h = Seq.Vector_sum y x z n h.
Proof.
  intros _ _. unfold Seq.Vector_sum, for_loop. apply for_range_ext. intros i t.
  destruct (load t x i) as [xi|], (load t y i) as [yi|]; cbn [mbind option_bind]; try done.
  by rewrite float_add_comm.
Qed.

(** Two vectors without NaN, given in the two orders. *)
Lemma Vector_sum_comm_witness :
  let h : heap := {[ 0%N := [Some 1%float; Some 2%float];
                     1%N := [Some 5%float; Some 6%float];
                     2%N := [None; None] ]} in
  Seq.Vector_sum (Ptr 0) (Ptr 1) (Ptr 2) 2 h = Seq.Vector_sum (Ptr 1) (Ptr 0) (Ptr 2) 2 h.
Proof.
  intros h. apply Vector_sum_comm.
  - intros [|[|i]] v; vm_compute; intros [= <-] || intros [=]; reflexivity.
  - intros [|[|i]] v; vm_compute; intros [= <-] || intros [=]; reflexivity.
Defined.

Lemma local_dot_product_comm x y local_n h :
  Mpi.local_dot_product x y local_n h = Mpi.local_dot_product y x local_n h.
Proof.
  unfold Mpi.local_dot_product, for_loop. apply for_range_ext. intros i acc.
  destruct (load h x i) as [xi|], (load h y i) as [yi|]; cbn [mbind option_bind]; try done.
  by rewrite float_mul_comm.
Qed.

(** The dot product is symmetric on vectors that hold no NaN: with
    [local_x] and [local_y] exchanged at every process,
    [Parallel_dot_product] returns the same doubles at every rank,
    under the same schedule.  (The product of two NaNs takes the
    payload of one of them, by the order of the operands; as for
    [Vector_sum], the condition is not used in the proof.) *)
Theorem Parallel_dot_product_comm s local_n (w : list Mpi.proc) :
  Forall (λ p, ∀ i v, load (Mpi.mem p) (Mpi.local_x p) i = Some v
                      ∨ load (Mpi.mem p) (Mpi.local_y p) i = Some v →
                      is_nan v = false) w →
  Mpi.Parallel_dot_product s local_n
    ((λ p, Mpi.with_vectors (Mpi.local_y p) (Mpi.local_x p) (Mpi.local_z p) p) <$> w)
  = Mpi.Parallel_dot_product s local_n w.
Proof.
  intros _. unfold Mpi.Parallel_dot_product. rewrite length_fmap. f_equal.
  induction w as [|p w IH]; [done|].
  rewrite fmap_cons. cbn [mapM]. rewrite IH.
  cbn [Mpi.with_vectors Mpi.local_x Mpi.local_y Mpi.mem].
  by rewrite local_dot_product_comm.
Qed.

(** Two processes, their vectors exchanged. *)
Lemma Parallel_dot_product_comm_witness :
  Mpi.Parallel_dot_product (Mpi.rank_order 2) 2
    [Mpi.holding [5%float; 6%float] [1%float; 2%float];
     Mpi.holding [7%float; 8%float] [3%float; 4%float]]
  = Mpi.Parallel_dot_product (Mpi.rank_order 2) 2
      [Mpi.holding [1%float; 2%float] [5%float; 6%float];
       Mpi.holding [3%float; 4%float] [7%float; 8%float]].
Proof.
  apply (Parallel_dot_product_comm (Mpi.rank_order 2) 2
           [Mpi.holding [1%float; 2%float] [5%float; 6%float];
            Mpi.holding [3%float; 4%float] [7%float; 8%float]]).
  repeat constructor;
    intros [|[|i]] v; vm_compute; intros [[= <-]|[= <-]] || intros [[=]|[=]]; reflexivity.
Defined.

(** * Reductions over one or two processes *)

Lemma ranks_nonempty s : (0 < length (Mpi.ranks s))%nat.
Proof. induction s; simpl; [lia|]. rewrite length_app. lia. Qed.

Lemma schedule_one_rank s r : Mpi.ranks s = [r] → s = Mpi.Contribution r.
Proof.
  destruct s as [r'|a b]; simpl; [by intros [= ->]|].
  intros H. pose proof (ranks_nonempty a). pose proof (ranks_nonempty b).
  apply (f_equal length) in H. rewrite length_app in H. simpl in H. lia.
Qed.

Lemma schedule_two_ranks s :
  Mpi.schedule_for 2 s →
  s = Mpi.Combine (Mpi.Contribution 0) (Mpi.Contribution 1)
  ∨ s = Mpi.Combine (Mpi.Contribution 1) (Mpi.Contribution 0).
Proof.
  unfold Mpi.schedule_for. intros Hs.
  destruct s as [r|a b]; simpl in Hs.
  { apply Permutation_length in Hs. done. }
  pose proof (ranks_nonempty a) as Ha. pose proof (ranks_nonempty b) as Hb.
  pose proof (Permutation_length Hs) as Hl. rewrite length_app in Hl. simpl in Hl.
  destruct (Mpi.ranks a) as [|ra [|]] eqn:Hra; simpl in *; try lia.
  destruct (Mpi.ranks b) as [|rb [|]] eqn:Hrb; simpl in *; try lia.
  apply schedule_one_rank in Hra as ->. apply schedule_one_rank in Hrb as ->.
  apply Permutation_length_2 in Hs as [[-> ->]|[-> ->]]; auto.
Qed.

(** With one or two processes whose partial sums are no NaN the
    reduction has one result: every schedule of the library gives the
    same doubles at every rank.  (Two NaNs add up to one of them, by
    the order of the operands; as for [Vector_sum], the condition is
    not used in the proof.) *)
Theorem reduction_up_to_two_ranks s s' local_n (w : list Mpi.proc) :
  (length w ≤ 2)%nat →
  Mpi.schedule_for (length w) s → Mpi.schedule_for (length w) s' →
  Forall (λ p, ∀ v, Mpi.local_dot_product (Mpi.local_x p) (Mpi.local_y p) local_n (Mpi.mem p)
                    = Some v → is_nan v = false) w →
  Mpi.Parallel_dot_product s local_n w = Mpi.Parallel_dot_product s' local_n w.
Proof.
  intros Hw Hs Hs' _. unfold Mpi.Parallel_dot_product.
  destruct (mapM _ w) as [partials|] eqn:Hp; [|done]. cbn [mbind option_bind].
  apply length_mapM in Hp. unfold Mpi.MPI_Reduce.
  assert (Mpi.combine s partials = Mpi.combine s' partials) as ->; [|done].
  destruct w as [|p0 [|p1 [|]]]; simpl in *; try lia.
  - apply Permutation_length in Hs. pose proof (ranks_nonempty s). simpl in *. lia.
  - unfold Mpi.schedule_for in *. simpl in *.
    apply Permutation_singleton_r, schedule_one_rank in Hs as ->.
    by apply Permutation_singleton_r, schedule_one_rank in Hs' as ->.
  - destruct partials as [|a [|b [|]]]; try done.
    destruct (schedule_two_ranks s Hs) as [->| ->],
             (schedule_two_ranks s' Hs') as [->| ->]; simpl; try done;
      by rewrite float_add_comm.
Qed.

(** Two processes, the library adding rank 1 first. *)
Lemma reduction_up_to_two_ranks_witness :
  let w := [Mpi.holding [1%float; 2%float] [5%float; 6%float];
            Mpi.holding [3%float; 4%float] [7%float; 8%float]] in
  Mpi.Parallel_dot_product (Mpi.Combine (Mpi.Contribution 1) (Mpi.Contribution 0)) 2 w
  = Mpi.Parallel_dot_product (Mpi.rank_order 2) 2 w.
Proof.
  intros w. apply reduction_up_to_two_ranks.
  - simpl. lia.
  - apply perm_swap.
  - apply Permutation_refl.
  - repeat constructor; intros v; vm_compute; intros [= <-]; reflexivity.
Defined.

(** * The same block twice *)

(** [Parallel_scalar_multiplication] does not require two blocks, but
    it needs them to get its result: handed the same block as
    [local_x] and as [local_y], it multiplies every element by the
    scalar twice, rounding after each product, and writes nothing
    else. *)
Theorem scalar_multiplication_same_block x s local_n h xs :
  length xs = Z.to_nat local_n → holds h x xs →
  ∃ h', Mpi.Parallel_scalar_multiplication x x s local_n h = Some h'
        ∧ holds h' x ((λ v, v * s * s)%float <$> xs)
        ∧ (∀ q j, q ≠ x ∨ (Z.to_nat local_n ≤ j)%nat → peek h' q j = peek h q j).
Proof.
  intros Hlx Hx. unfold Mpi.Parallel_scalar_multiplication.
  set (body := λ (i : nat) (h : heap),
         xi ← load h x i; h1 ← store h x i (xi * s)%float;
         yi ← load h1 x i; store h1 x i (yi * s)%float).
  set (I := λ (k : nat) (hk : heap),
         (∀ i v, (i < k)%nat → xs !! i = Some v → load hk x i = Some (v * s * s)%float)
         ∧ (∀ q j, q ≠ x ∨ (k ≤ j)%nat → peek hk q j = peek h q j)).
  destruct (for_loop_inv body I local_n h) as (h' & Hrun & Hsx & Hframe).
  - split; [intros; lia|done].
  - intros j hk Hj (Hsx & Hframe). unfold body.
    destruct (holds_lookup h x xs j Hx ltac:(lia)) as (xj & Hxj & Hlxj).
    assert (load hk x j = Some xj) as Hkx.
    { unfold load. rewrite Hframe by (right; lia). done. }
    rewrite Hkx. simpl.
    destruct (poke_allocated hk x j (Some (xj * s)%float) (S j)) as [h1 Hst1];
      [eauto using load_allocated|lia|].
    change (store hk x j (xj * s)%float = Some h1) in Hst1. rewrite Hst1. simpl.
    rewrite (load_store_eq _ _ _ _ _ Hst1). simpl.
    destruct (poke_allocated h1 x j (Some (xj * s * s)%float) (S j)) as [h2 Hst2];
      [eauto using load_allocated, allocated_poke|lia|].
    exists h2. split; [done|]. split.
    + intros i v Hi Hv. destruct (decide (i = j)) as [->|Hne].
      * rewrite Hxj in Hv. simplify_eq. eauto using load_store_eq.
      * erewrite (load_store_ne h1 h2), (load_store_ne hk h1) by eauto.
        apply Hsx; [lia|done].
    + intros q i Hq.
      rewrite (peek_poke_ne _ _ _ _ _ q i Hst2), (peek_poke_ne _ _ _ _ _ q i Hst1)
        by (destruct Hq as [?|?]; [by left|right; lia]).
      apply Hframe. destruct Hq as [?|?]; [by left|right; lia].
  - exists h'. split_and!; [done| |done].
    intros i v Hv. apply list_lookup_fmap_Some in Hv as (v0 & -> & Hv0).
    apply Hsx; [|done]. apply lookup_lt_Some in Hv0. lia.
Qed.

(** On the block [[1; 2]] with the scalar 2: [[4; 8]]. *)
Lemma scalar_multiplication_same_block_witness :
  let h : heap := {[ 0%N := [Some 1%float; Some 2%float] ]} in
  ∃ h', Mpi.Parallel_scalar_multiplication (Ptr 0) (Ptr 0) 2%float 2 h = Some h'
        ∧ holds h' (Ptr 0) [4%float; 8%float].
Proof.
  intros h.
  destruct (scalar_multiplication_same_block (Ptr 0) 2%float 2 h [1%float; 2%float]
              eq_refl (holds_block h 0%N [1%float; 2%float] [] eq_refl))
    as (h' & Hrun & Hx & _).
  exists h'. split; [exact Hrun|exact Hx].
Defined.

(** * The gather buffer *)

(** [Print_vector] does not test what [malloc] returned: when rank 0
    cannot get the [n] cells of the buffer, [b] is [NULL] and the call
    has no defined result. *)
Lemma Print_vector_without_buffer local_b local_n n title (p0 : Mpi.proc) others :
  (0 < n)%Z → (Mpi.avail p0 < n)%Z →
  Mpi.Print_vector local_b local_n n title (p0 :: others) = None.
Proof.
  intros Hn Hp. unfold Mpi.Print_vector.
  destruct (mapM _ (p0 :: others)) as [blocks|]; [|done]. cbn [mbind option_bind].
  unfold Mpi.malloc. destruct (Z.ltb_spec (Mpi.avail p0) n); [|lia].
  rewrite orb_true_r.
  destruct (Mpi.MPI_Gather _ NULL _ 0 blocks) as [h|]; [|done]. cbn [mbind option_bind].
  unfold read_cells. destruct (Z.to_nat n) as [|m] eqn:Hm; [lia|]. done.
Qed.

(** When the three blocks fit at every rank but rank 0 has no room
    left for the [n = 20] cells of the gather buffer, [main] runs into
    undefined behaviour at the first [Print_vector]: no error is
    reported. *)
Theorem gather_buffer_unchecked e :
  (0 < Mpi.comm_sz e)%nat →
  (∀ r, (r < Mpi.comm_sz e)%nat →
        3 * Mpi.block_length Mpi.n (Mpi.comm_sz e) ≤ Mpi.memory e r)%Z →
  (Mpi.memory e 0 < 3 * Mpi.block_length Mpi.n (Mpi.comm_sz e) + Mpi.n)%Z →
  Mpi.main e = Mpi.Undefined.
Proof.
  intros HW Hmem Hmem0. unfold Mpi.main, Mpi.main_body.
  destruct (Mpi.comm_sz e) as [|W] eqn:HeW; [lia|].
  assert (Hk : ∃ k : nat, Mpi.block_length Mpi.n (S W) = Z.of_nat k).
  { exists (Z.to_nat (Mpi.block_length Mpi.n (S W))). rewrite Z2Nat.id; [done|].
    unfold Mpi.block_length, Mpi.n. apply Z.quot_pos; lia. }
  destruct Hk as [k Hk]. rewrite Hk in *.
  rewrite allocate_all_start by (intros; apply Hmem; lia).
  unfold Mpi.compute.
  rewrite (each_seq _ _ _ (S W) 0 (λ r _, generate_at_work e k r 3 0 [] [])).
  cbn [mbind option_bind]. rewrite <- list_fmap_compose. cbn [seq fmap list_fmap compose].
  by rewrite Print_vector_without_buffer
    by (done || (cbn [Mpi.called Mpi.at_work Mpi.avail]; lia)).
Qed.

(** Four processes, room for the blocks but not for the buffer at
    rank 0. *)
Lemma gather_buffer_unchecked_witness :
  Mpi.main (Mpi.Env 4 (λ _ _, 0%Z) (λ _, 20%Z) (Mpi.rank_order 4)) = Mpi.Undefined.
Proof.
  apply gather_buffer_unchecked.
  - simpl. lia.
  - intros r _. vm_compute. discriminate.
  - reflexivity.
Defined.

(** * A whole run, whatever the number of processes *)

Lemma read_cells_whole (h : heap) b a k :
  h !! b = Some a → length a = k → read_cells h (Ptr b) k = Some a.
Proof. intros Hb <-. by apply read_cells_block. Qed.

(** [Print_vector] with a buffer the blocks may not fill: the cells
    past the last block are printed as [malloc] returned them. *)
Lemma Print_vector_pads (local_b : Mpi.proc → ptr) (k n : nat) (title : string)
    (p0 : Mpi.proc) (others : list Mpi.proc) (blocks : list (list cell)) :
  Forall2 (λ p cs, read_cells (Mpi.mem p) (local_b p) k = Some cs) (p0 :: others) blocks →
  Mpi.mem p0 !! Mpi.brk p0 = None →
  (length (p0 :: others) * k ≤ n)%nat →
  (Z.of_nat n ≤ Mpi.avail p0)%Z →
  Mpi.Print_vector local_b (Z.of_nat k) (Z.of_nat n) title (p0 :: others)
  = Some (Mpi.called Mpi.Gather <$>
            (Mpi.Proc (Mpi.mem p0) (Mpi.brk p0 + 1)%N (Mpi.avail p0)
               (Mpi.rand_calls p0) (Mpi.local_x p0) (Mpi.local_y p0) (Mpi.local_z p0)
               (Mpi.dot_product p0) (Mpi.calls p0)
               (Mpi.stdout p0
                ++ Mpi.Title title
                   :: (Mpi.Number <$>
                         (concat blocks
                          ++ replicate (n - length (p0 :: others) * k) None))
                   ++ [Mpi.Newline])
             :: others)).
Proof.
  intros Hblocks Hfresh Hn Havail.
  assert (Hk : Forall (λ cs, length cs = k) blocks) by (by eapply blocks_uniform).
  assert (Hlen : length (concat blocks) = (length (p0 :: others) * k)%nat).
  { rewrite (length_concat_uniform k) by done.
    by rewrite <- (Forall2_length _ _ _ Hblocks). }
  assert (Hb : length blocks = length (p0 :: others))
    by (by rewrite <- (Forall2_length _ _ _ Hblocks)).
  unfold Mpi.Print_vector. rewrite !Nat2Z.id.
  rewrite (mapM_Some_2 _ _ blocks Hblocks). cbn [mbind option_bind].
  unfold Mpi.malloc.
  destruct (Z.ltb_spec (Z.of_nat n) 0); [lia|].
  destruct (Z.ltb_spec (Mpi.avail p0) (Z.of_nat n)); [lia|].
  cbn [orb Mpi.mem]. rewrite !Nat2Z.id.
  rewrite (gather_blocks blocks _ _ (replicate n None))
    by (rewrite ?lookup_insert_eq, ?length_replicate; done || lia).
  cbn [mbind option_bind]. rewrite insert_insert_eq.
  change (0 * k)%nat with 0%nat. rewrite take_0. cbn [app].
  rewrite Nat.add_0_l, drop_replicate, Hb.
  rewrite (read_cells_whole _ (Mpi.brk p0)
             (concat blocks ++ replicate (n - length (p0 :: others) * k) None))
    by (rewrite ?lookup_insert_eq, ?length_app, ?length_replicate; done || lia).
  cbn [mbind option_bind]. do 3 f_equal.
  unfold Mpi.free, Mpi.printed, Mpi.with_mem. cbn.
  rewrite lookup_insert_eq, delete_insert_eq, delete_id by done. cbn.
  f_equal. rewrite length_app, length_replicate, Hlen. simpl in *. lia.
Qed.

Lemma Print_vector_at_work_pads (local_b : Mpi.proc → ptr) e (k W n : nat) title
    (a b : list cell) next draws d cs out (g : nat → Mpi.proc) (C : nat → list cell) :
  (3 ≤ next)%N →
  (S W * k ≤ n)%nat →
  (Z.of_nat n ≤ Mpi.memory e 0 - Z.of_nat k - Z.of_nat k - Z.of_nat k)%Z →
  read_cells (Mpi.three_blocks a b (replicate k None))
             (local_b (Mpi.at_work e k 0 a b next draws d cs out)) k = Some (C 0%nat) →
  (∀ r, read_cells (Mpi.mem (g r)) (local_b (g r)) k = Some (C r)) →
  Mpi.Print_vector local_b (Z.of_nat k) (Z.of_nat n) title
    (Mpi.at_work e k 0 a b next draws d cs out :: (g <$> seq 1 W))
  = Some (Mpi.at_work e k 0 a b (next + 1) draws d (cs ++ [Mpi.Gather])
            (out ++ Mpi.Title title
                 :: (Mpi.Number <$> (concat (C <$> seq 0 (S W))
                                     ++ replicate (n - S W * k) None))
                 ++ [Mpi.Newline])
          :: (Mpi.called Mpi.Gather <$> (g <$> seq 1 W))).
Proof.
  intros Hnext Hn Hmem H0 Hg.
  assert (Hblocks : Forall2 (λ p cs, read_cells (Mpi.mem p) (local_b p) k = Some cs)
            (Mpi.at_work e k 0 a b next draws d cs out :: (g <$> seq 1 W))
            (C <$> seq 0 (S W))).
  { change (C <$> seq 0 (S W)) with (C 0%nat :: (C <$> seq 1 W)).
    constructor; [exact H0|]. apply Forall2_fmap, Forall_Forall2_diag, Forall_forall.
    intros r _. apply Hg. }
  pose proof (Print_vector_pads local_b k n title _ _ _ Hblocks
       ltac:(by apply three_blocks_fresh)
       ltac:(cbn [length]; rewrite length_fmap, length_seq; exact Hn)
       Hmem) as HP.
  cbn [length] in HP. rewrite length_fmap, length_seq in HP. exact HP.
Qed.

(** The three [free]s at the end of [main] give back what
    [Allocate_vectors] took. *)
Lemma avail_freed e (k r : nat) (a b : list cell) next draws d cs out :
  length a = k → length b = k →
  Mpi.avail (Mpi.free (Ptr 2) (Mpi.free (Ptr 1) (Mpi.free (Ptr 0)
               (Mpi.at_work e k r a b next draws d cs out))))
  = Mpi.memory e r.
Proof.
  intros Ha Hb. unfold Mpi.free, Mpi.at_work.
  cbn [Mpi.mem Mpi.brk Mpi.avail Mpi.rand_calls Mpi.stdout].
  assert (H0 : delete 0%N (Mpi.three_blocks a b (replicate k None))
               = <[2%N := replicate k None]> (<[1%N := b]> ∅)) by reflexivity.
  assert (H1 : delete 1%N (<[2%N := replicate k None]> (<[1%N := b]> (∅ : heap)))
               = <[2%N := replicate k None]> ∅) by reflexivity.
  rewrite three_blocks_x, H0, lookup_insert_ne, lookup_insert_eq, H1 by done.
  rewrite lookup_insert_eq. cbn [default id]. rewrite length_replicate. lia.
Qed.

(** [main] for every number of processes, when the blocks fit at every
    rank, the gather buffer fits at rank 0 and [rand()] is
    non-negative.  Every process returns 0 after the same six
    collective calls, with its blocks freed and the memory it had at
    the start available again.  The blocks of
    [local_n = n / comm_sz] elements cover the first
    [comm_sz * local_n] of the [n = 20] positions only: rank 0 prints,
    for each vector, the values gathered and then the cells of its
    buffer that no block reached, which nobody wrote; the dot product
    is the exact one of the elements generated, under any schedule of
    the reduction. *)
Theorem main_on_any_partition e (k : nat) :
  (0 < Mpi.comm_sz e)%nat →
  Mpi.block_length Mpi.n (Mpi.comm_sz e) = Z.of_nat k →
  Mpi.schedule_for (Mpi.comm_sz e) (Mpi.reduction e) →
  (∀ r, (r < Mpi.comm_sz e)%nat → 3 * Z.of_nat k ≤ Mpi.memory e r)%Z →
  (3 * Z.of_nat k + Mpi.n ≤ Mpi.memory e 0)%Z →
  (∀ r i, 0 ≤ Mpi.rand e r i)%Z →
  ∃ w,
    Mpi.main e = Mpi.Finished 0 w
    ∧ Mpi.stdout <$> w
      = Mpi.padded_report (Mpi.whole_x (Mpi.drawn e k (Mpi.comm_sz e)))
                          (Mpi.whole_y (Mpi.drawn e k (Mpi.comm_sz e)))
                          (Z.to_nat Mpi.n - Mpi.comm_sz e * k)
        :: replicate (Mpi.comm_sz e - 1) []
    ∧ Mpi.calls <$> w
      = replicate (Mpi.comm_sz e)
          [Mpi.Barrier; Mpi.Gather; Mpi.Gather; Mpi.Reduce; Mpi.Gather; Mpi.Gather]
    ∧ Mpi.mem <$> w = replicate (Mpi.comm_sz e) ∅
    ∧ Mpi.avail <$> w = Mpi.memory e <$> seq 0 (Mpi.comm_sz e).
Proof.
  intros HW Hk Hs Hmem Hmem0 Hrand.
  unfold Mpi.main, Mpi.main_body.
  destruct (Mpi.comm_sz e) as [|W] eqn:HeW; [lia|]. clear HW.
  assert (Hle : (Z.of_nat (S W * k) ≤ Mpi.n)%Z).
  { pose proof (Z.mul_quot_le Mpi.n (Z.of_nat (S W)) ltac:(by unfold Mpi.n) ltac:(lia)) as H.
    unfold Mpi.block_length in Hk. rewrite Hk in H. lia. }
  assert (Hn : (S W * k ≤ Z.to_nat Mpi.n)%nat) by lia.
  rewrite Hk, allocate_all_start by (intros; apply Hmem; lia).
  unfold Mpi.compute.
  rewrite (each_seq _ _ _ (S W) 0 (λ r _, generate_at_work e k r 3 0 [] [])).
  cbn [mbind option_bind]. rewrite <- list_fmap_compose.
  cbn [seq fmap list_fmap compose].
  set (X := λ r, double_of_int <$> Mpi.drawn_x e k r).
  set (Y := λ r, double_of_int <$> Mpi.drawn_y e k r).
  assert (HX : ∀ r, length (X r) = k)
    by (intros; unfold X; by rewrite length_fmap, length_drawn_x).
  assert (HY : ∀ r, length (Y r) = k)
    by (intros; unfold Y; by rewrite length_fmap, length_drawn_y).
  change (Mpi.called Mpi.Barrier (Mpi.at_work e k 0 ?a ?b 3 ?dr 0 [] []))
    with (Mpi.at_work e k 0 a b 3 dr 0 [Mpi.Barrier] []).
  remember (Z.to_nat Mpi.n) as n eqn:En.
  assert (Hn' : Mpi.n = Z.of_nat n) by (by subst n).
  clear En. rewrite Hn' in Hmem0 |- *. clear Hn'.
  (* the two vectors, as generated *)
  rewrite (Print_vector_at_work_pads Mpi.local_x e k W n _ _ _ _ _ _ _ _ _
             (λ r, Some <$> X r));
    [|lia|lia|lia|by apply read_cells_x_k; rewrite length_fmap
     |by intros r; apply read_cells_x_k; rewrite length_fmap].
  cbn [mbind option_bind]. rewrite <- (list_fmap_compose _ (Mpi.called Mpi.Gather)).
  rewrite (Print_vector_at_work_pads Mpi.local_y e k W n _ _ _ _ _ _ _ _ _
             (λ r, Some <$> Y r));
    [|lia|lia|lia|by apply read_cells_y_k; rewrite length_fmap
     |by intros r; apply read_cells_y_k; rewrite length_fmap].
  cbn [mbind option_bind]. rewrite <- (list_fmap_compose _ (Mpi.called Mpi.Gather)).
  (* the dot product *)
  rewrite (Parallel_dot_product_at_work e k W) by
    (done || (intros; apply owns_at_work; auto using length_drawn_x, length_drawn_y)).
  cbn [mbind option_bind zip_with].
  rewrite zip_with_replicate_l by (by rewrite length_fmap, length_seq).
  rewrite <- (list_fmap_compose _ (λ p, Mpi.called Mpi.Reduce (Mpi.with_dot_product 0 p))).
  (* the scaling *)
  cbn [Mpi.each].
  change (Mpi.called Mpi.Reduce (Mpi.with_dot_product ?v
            (Mpi.at_work e k 0 ?a ?b ?nx ?dr ?d0 ?cs ?out)))
    with (Mpi.at_work e k 0 a b nx dr v (cs ++ [Mpi.Reduce]) out).
  rewrite (scale_at_work e k 0 (X 0%nat) (Y 0%nat)) by done. cbn [mbind option_bind].
  rewrite (each_seq _ _
             (λ r, Mpi.at_work e k r (Some <$> ((λ v, v * Mpi.scalar)%float <$> X r))
                     (Some <$> ((λ v, v * Mpi.scalar)%float <$> Y r)) 3 (2 * k) 0
                     [Mpi.Barrier; Mpi.Gather; Mpi.Gather; Mpi.Reduce] []) W 1)
    by (intros r _; exact (scale_at_work e k r (X r) (Y r) Mpi.scalar 3 (2 * k) 0
                             [Mpi.Barrier; Mpi.Gather; Mpi.Gather; Mpi.Reduce] []
                             (HX r) (HY r))).
  cbn [mbind option_bind].
  (* the two vectors, scaled *)
  rewrite (Print_vector_at_work_pads Mpi.local_x e k W n _ _ _ _ _ _ _ _ _
             (λ r, Some <$> ((λ v, v * Mpi.scalar)%float <$> X r)));
    [|lia|lia|lia|by apply read_cells_x_k; rewrite !length_fmap
     |by intros r; apply read_cells_x_k; rewrite !length_fmap].
  cbn [mbind option_bind]. rewrite <- (list_fmap_compose _ (Mpi.called Mpi.Gather)).
  rewrite (Print_vector_at_work_pads Mpi.local_y e k W n _ _ _ _ _ _ _ _ _
             (λ r, Some <$> ((λ v, v * Mpi.scalar)%float <$> Y r)));
    [|lia|lia|lia|by apply read_cells_y_k; rewrite !length_fmap
     |by intros r; apply read_cells_y_k; rewrite !length_fmap].
  cbn [mbind option_bind Mpi.at_root]. rewrite <- (list_fmap_compose _ (Mpi.called Mpi.Gather)).
  eexists. split; [reflexivity|].
  rewrite !fmap_cons, <- !list_fmap_compose.
  replace (S W - 1)%nat with W by lia.
  split_and!.
  - f_equal; [|by apply fmap_seq_const].
    cbn [Mpi.stdout Mpi.free Mpi.printed Mpi.at_work Mpi.local_x Mpi.local_y Mpi.local_z
         Mpi.dot_product].
    unfold Mpi.padded_report, Mpi.padded_line, X, Y.
    rewrite whole_x_drawn, whole_y_drawn.
    rewrite !(concat_seq_fmap _ Some), !(concat_seq_fmap _ (λ v, v * Mpi.scalar)%float),
      !(concat_seq_fmap _ double_of_int).
    rewrite <- !(list_fmap_compose double_of_int).
    repeat (cbn [app]; rewrite <- ?app_assoc). done.
  - cbn [replicate]. apply (f_equal2 cons); [done|]. by apply fmap_seq_const.
  - cbn [replicate]. apply (f_equal2 cons); [done|]. by apply fmap_seq_const.
  - cbn [seq fmap list_fmap]. apply (f_equal2 cons).
    + apply (avail_freed e k 0 _ _ _ _ _ _ _); by rewrite length_fmap.
    + apply list_fmap_ext. intros _ r _.
      apply (avail_freed e k r _ _ _ _ _ _ _); by rewrite !length_fmap.
Qed.

(** Three processes: blocks of six elements, and two cells of the
    buffer that no block reaches. *)
Lemma main_on_any_partition_witness :
  ∃ w, Mpi.main (Mpi.launch 3) = Mpi.Finished 0 w
    ∧ Mpi.stdout <$> w
      = Mpi.padded_report (Mpi.whole_x (Mpi.drawn (Mpi.launch 3) 6 3))
                          (Mpi.whole_y (Mpi.drawn (Mpi.launch 3) 6 3)) 2
        :: replicate 2 []
    ∧ Mpi.calls <$> w
      = replicate 3 [Mpi.Barrier; Mpi.Gather; Mpi.Gather; Mpi.Reduce; Mpi.Gather; Mpi.Gather]
    ∧ Mpi.mem <$> w = replicate 3 ∅
    ∧ Mpi.avail <$> w = [1000; 1000; 1000]%Z.
Proof.
  apply (main_on_any_partition (Mpi.launch 3) 6).
  - simpl. lia.
  - reflexivity.
  - apply Permutation_refl.
  - intros r _. vm_compute. discriminate.
  - vm_compute. discriminate.
  - intros r i. apply Nat2Z.is_nonneg.
Defined.

(** * When [main] aborts *)

(** [MPI_Abort] is reached exactly when some rank has no room for its
    three blocks: neither the vector order nor the number of processes
    can make [main] report an error. *)
Theorem main_aborts_iff e :
  (0 < Mpi.comm_sz e)%nat →
  (∃ st msg, Mpi.main e = Mpi.Aborted st msg)
  ↔ ∃ r, (r < Mpi.comm_sz e)%nat
         ∧ (Mpi.memory e r < 3 * Mpi.block_length Mpi.n (Mpi.comm_sz e))%Z.
Proof.
  intros HW.
  assert (Hk : ∃ k : nat, Mpi.block_length Mpi.n (Mpi.comm_sz e) = Z.of_nat k).
  { exists (Z.to_nat (Mpi.block_length Mpi.n (Mpi.comm_sz e))). rewrite Z2Nat.id; [done|].
    unfold Mpi.block_length, Mpi.n. apply Z.quot_pos; lia. }
  destruct Hk as [k Hk]. rewrite Hk.
  unfold Mpi.main, Mpi.main_body. rewrite Hk.
  destruct (Mpi.comm_sz e) as [|W] eqn:HeW; [lia|]. clear HW.
  destruct (decide (Forall (λ r, 3 * Z.of_nat k ≤ Mpi.memory e r)%Z (seq 0 (S W))))
    as [Hall|Hsome].
  - rewrite allocate_all_start
      by (intros r Hr; apply (proj1 (Forall_forall _ _) Hall), elem_of_seq; lia).
    split.
    + intros (st & msg & H). by destruct (Mpi.compute _ _ _).
    + intros (r & Hr & Hlt).
      pose proof (proj1 (Forall_forall _ _) Hall r ltac:(apply elem_of_seq; lia)) as H.
      simpl in H. lia.
  - apply not_Forall_Exists in Hsome; [|apply _].
    rewrite allocate_all_fails; [|lia|].
    + split; [|by eauto]. intros _.
      apply Exists_exists in Hsome as (r & Hr%elem_of_seq & Hlt). simpl in Hlt.
      exists r. split; lia.
    + apply Exists_fmap. eapply Exists_impl; [exact Hsome|].
      intros r Hr. simpl in Hr |- *. lia.
Qed.

(** Two processes, the second with room for five doubles only. *)
Lemma main_aborts_iff_witness :
  (∃ st msg, Mpi.main (Mpi.Env 2 (λ _ _, 0%Z) (λ r, if decide (r = 1%nat) then 5%Z else 1000%Z)
                         (Mpi.rank_order 2)) = Mpi.Aborted st msg).
Proof.
  apply main_aborts_iff.
  - simpl. lia.
  - exists 1%nat. split; [simpl; lia|reflexivity].
Defined.
